(** * Cayley tree generator and air-traffic network analyser

    A shallow embedding of [Problem_1_CayleyTree.py] and
    [Problem_2_AirTraffic.py].  Both scripts are thin drivers over the
    [networkx.Graph] class, so the development has three layers:

    - [Py]: the Python built-ins the scripts rely on (insertion-ordered
      dictionaries, [str.strip], [str.split], [sorted], [max]);
    - [Nx]: the part of [networkx.Graph] the scripts call (node and adjacency
      dictionaries, [add_node], [add_edge], degrees, induced subgraphs,
      breadth-first search, components, eccentricity);
    - [CayleyTree] and [AirTraffic]: the two scripts themselves.

    Definitions come first, the theorems about them afterwards. *)

From Stdlib Require Import String Ascii.
From Stdlib Require Import List Arith Lia Bool ZArith QArith.
From Stdlib Require Import Permutation Sorted Relations.
Import ListNotations.

Set Implicit Arguments.
Local Open Scope nat_scope.
Local Open Scope list_scope.

(* ================================================================== *)
(** * Python built-ins *)
(* ================================================================== *)

Module Py.

(** Hashable keys: all that is used of them is a decidable equality. *)
Class Key (K : Type) := {
  keqb : K -> K -> bool;
  keqb_eq : forall a b, keqb a b = true <-> a = b
}.

#[export] Instance Key_nat : Key nat :=
  {| keqb := Nat.eqb; keqb_eq := Nat.eqb_eq |}.

#[export] Instance Key_string : Key string :=
  {| keqb := String.eqb; keqb_eq := String.eqb_eq |}.

(** The exceptions that can escape from the scripts. *)
Inductive exn :=
| ValueError
| KeyError
| IndexError
| FileNotFoundError
| ZeroDivisionError
| NetworkXError
| NetworkXNoPath
| NodeNotFound.

(** A computation that may raise: [inl e] is a raised exception. *)
Definition result (A : Type) := sum exn A.

Definition rbind {A B} (r : result A) (f : A -> result B) : result B :=
  match r with inl e => inl e | inr a => f a end.

Fixpoint rmap {A B} (f : A -> result B) (l : list A) : result (list B) :=
  match l with
  | [] => inr []
  | a :: l' => rbind (f a) (fun b => rbind (rmap f l') (fun bs => inr (b :: bs)))
  end.

Section Dict.
Context {K : Type} `{Key K} {V : Type}.

(** A [dict]: keys are unique and iteration follows insertion order. *)
Definition dict := list (K * V).

Fixpoint dict_get (k : K) (d : dict) : option V :=
  match d with
  | [] => None
  | (k', v) :: d' => if keqb k k' then Some v else dict_get k d'
  end.

Definition dict_mem (k : K) (d : dict) : bool :=
  match dict_get k d with Some _ => true | None => false end.

(** [d[k] = v]: an existing key keeps its position, a new one goes last. *)
Fixpoint dict_set (k : K) (v : V) (d : dict) : dict :=
  match d with
  | [] => [(k, v)]
  | (k', v') :: d' =>
      if keqb k k' then (k', v) :: d' else (k', v') :: dict_set k v d'
  end.

Definition dict_keys (d : dict) : list K := map fst d.
Definition dict_values (d : dict) : list V := map snd d.
End Dict.

Arguments dict : clear implicits.

Section Lists.
Context {K : Type} `{Key K}.

(** [k in l] for a list or a set of keys. *)
Fixpoint mem (k : K) (l : list K) : bool :=
  match l with
  | [] => false
  | k' :: l' => keqb k k' || mem k l'
  end.
End Lists.

(** [d.get(k, 0)] on a dictionary of counts; also [c[k]] on a [Counter],
    which answers 0 for a key it does not hold. *)
Definition get0 (dc : dict nat nat) (d : nat) : nat :=
  match dict_get d dc with Some c => c | None => 0 end.

(** [dc[d] = dc.get(d, 0) + 1] *)
Definition incr (dc : dict nat nat) (d : nat) : dict nat nat :=
  dict_set d (get0 dc d + 1) dc.

(** [collections.Counter(xs)] *)
Definition Counter (xs : list nat) : dict nat nat := fold_left incr xs [].

(** [max(xs)] on integers; raises on an empty sequence. *)
Definition max_nat (l : list nat) : result nat :=
  match l with
  | [] => inl ValueError
  | x :: l' => inr (fold_left Nat.max l' x)
  end.

(** [max(xs, key=len)]: the first element of maximal length. *)
Definition max_by_len {A} (l : list (list A)) : result (list A) :=
  match l with
  | [] => inl ValueError
  | x :: l' =>
      inr (fold_left (fun best c => if length best <? length c then c else best)
                     l' x)
  end.

(** [sorted(xs)] on integers, as a stable insertion sort. *)
Fixpoint insert_asc (x : nat) (l : list nat) : list nat :=
  match l with
  | [] => [x]
  | y :: l' => if x <? y then x :: l else y :: insert_asc x l'
  end.

Definition sorted (l : list nat) : list nat :=
  fold_left (fun acc x => insert_asc x acc) l [].

(** [xs.sort(key=..., reverse=True)] and [sorted(xs, key=..., reverse=True)]:
    stable, so that elements with equal keys keep the order they had in
    [xs].  [ltb x y] says that the key of [x] is below the key of [y]. *)
Section SortDesc.
Context {A : Type} (ltb : A -> A -> bool).

Fixpoint insert_desc (x : A) (l : list A) : list A :=
  match l with
  | [] => [x]
  | y :: l' => if ltb y x then x :: l else y :: insert_desc x l'
  end.

Definition sort_desc (l : list A) : list A :=
  fold_left (fun acc x => insert_desc x acc) l [].
End SortDesc.

(** [a / b] on integers, with exact rational arithmetic in place of floats. *)
Definition truediv (a b : nat) : result Q :=
  if b =? 0 then inl ZeroDivisionError
  else inr (inject_Z (Z.of_nat a) / inject_Z (Z.of_nat b))%Q.

(** ** Strings *)

(** [str.isspace] on the code points below 256. *)
Definition is_space (c : ascii) : bool :=
  let n := nat_of_ascii c in
  ((9 <=? n) && (n <=? 13)) || ((28 <=? n) && (n <=? 32))
  || (n =? 133) || (n =? 160).

Fixpoint lstrip (s : string) : string :=
  match s with
  | EmptyString => EmptyString
  | String c r => if is_space c then lstrip r else s
  end.

Fixpoint rstrip (s : string) : string :=
  match s with
  | EmptyString => EmptyString
  | String c r =>
      match rstrip r with
      | EmptyString => if is_space c then EmptyString else String c EmptyString
      | r' => String c r'
      end
  end.

(** [s.strip()] *)
Definition strip (s : string) : string := rstrip (lstrip s).

(** [s.split(sep)] for a one-character separator. *)
Fixpoint split_on (sep : ascii) (s : string) : list string :=
  match s with
  | EmptyString => [EmptyString]
  | String c r =>
      if Ascii.eqb c sep then EmptyString :: split_on sep r
      else match split_on sep r with
           | [] => [String c EmptyString]
           | t :: ts => String c t :: ts
           end
  end.

Definition push_word (w : string) (ts : list string) : list string :=
  match w with EmptyString => ts | _ => w :: ts end.

Fixpoint split_ws_aux (s : string) : string * list string :=
  match s with
  | EmptyString => (EmptyString, [])
  | String c r =>
      let '(w, ts) := split_ws_aux r in
      if is_space c then (EmptyString, push_word w ts) else (String c w, ts)
  end.

(** [s.split()]: the maximal runs of non-blank characters. *)
Definition split_ws (s : string) : list string :=
  let '(w, ts) := split_ws_aux s in push_word w ts.

(** [all(p(c) for c in s)] *)
Fixpoint all_chars (p : ascii -> bool) (s : string) : bool :=
  match s with
  | EmptyString => true
  | String c r => p c && all_chars p r
  end.

(** [s.count(c)] for a one-character [c]. *)
Fixpoint str_count (c : ascii) (s : string) : nat :=
  match s with
  | EmptyString => 0
  | String c' r => (if Ascii.eqb c' c then 1 else 0) + str_count c r
  end.

(** A string of blanks only, a string without blanks, a string without
    the separator [c]. *)
Definition blank (s : string) : bool := all_chars is_space s.
Definition no_blank (s : string) : bool := all_chars (fun c => negb (is_space c)) s.
Definition without (c : ascii) (s : string) : bool :=
  all_chars (fun c' => negb (Ascii.eqb c' c)) s.

(** [sep.join(xs)] *)
Fixpoint join (sep : string) (l : list string) : string :=
  match l with
  | [] => EmptyString
  | [x] => x
  | x :: l' => (x ++ sep ++ join sep l')%string
  end.

(** [str(n)] for a non-negative integer. *)
Fixpoint digits (fuel n : nat) (acc : string) : string :=
  match fuel with
  | 0 => acc
  | S f =>
      let acc' := String (ascii_of_nat (48 + n mod 10)) acc in
      if n <? 10 then acc' else digits f (n / 10) acc'
  end.

Definition str (n : nat) : string := digits (S n) n EmptyString.

End Py.

Import Py.

(* ================================================================== *)
(** * The networkx Graph class *)
(* ================================================================== *)

Module Nx.

(** Node attribute dictionaries: the empty one and [old.update(new)]. *)
Class Attrs (A : Type) := {
  attr_empty : A;
  attr_update : A -> A -> A
}.

Section Graph.
Context {K : Type} `{Key K} {A : Type} `{Attrs A}.

(** [G._node] maps a node to its attributes, [G._adj] maps a node to the
    dictionary of its neighbours.  Edges carry no data here, so only the
    keys of the inner dictionary are kept, in insertion order. *)
Record Graph := mkGraph {
  _node : dict K A;
  _adj : dict K (list K)
}.

(** [nx.Graph()] *)
Definition empty_graph : Graph := mkGraph [] [].

(** [n in G] *)
Definition has_node (G : Graph) (n : K) : bool := dict_mem n (_node G).

(** [G.add_node(n, **attr)] *)
Definition add_node (n : K) (attr : A) (G : Graph) : Graph :=
  match dict_get n (_node G) with
  | None =>
      mkGraph (dict_set n (attr_update attr_empty attr) (_node G))
              (dict_set n [] (_adj G))
  | Some old => mkGraph (dict_set n (attr_update old attr) (_node G)) (_adj G)
  end.

(** [G._adj[n]], the neighbours of [n]; the scripts only ask for the
    neighbours of nodes, so that the [KeyError] of a missing key is left
    out. *)
Definition neighbors (G : Graph) (n : K) : list K :=
  match dict_get n (_adj G) with Some l => l | None => [] end.

(** [nbrs[v] = {}] on an inner adjacency dictionary *)
Definition nbr_add (v : K) (nbrs : list K) : list K :=
  if mem v nbrs then nbrs else nbrs ++ [v].

(** The first lines of [add_edge]: a missing endpoint becomes a node. *)
Definition touch_node (n : K) (G : Graph) : Graph :=
  if has_node G n then G
  else mkGraph (dict_set n attr_empty (_node G)) (dict_set n [] (_adj G)).

(** [G.add_edge(u, v)]: endpoints that are not nodes yet are created with
    an empty attribute dictionary. *)
Definition add_edge (u v : K) (G : Graph) : Graph :=
  let G1 := touch_node u G in
  let G2 := touch_node v G1 in
  let adj1 := dict_set u (nbr_add v (neighbors G2 u)) (_adj G2) in
  let adj2 :=
    dict_set v (nbr_add u (match dict_get v adj1 with
                           | Some l => l | None => [] end)) adj1 in
  mkGraph (_node G2) adj2.

(** [G.has_edge(u, v)] *)
Definition has_edge (G : Graph) (u v : K) : bool := mem v (neighbors G u).

(** [list(G.nodes)] *)
Definition nodes (G : Graph) : list K := dict_keys (_node G).

(** [G.number_of_nodes()] *)
Definition number_of_nodes (G : Graph) : nat := length (_node G).

(** The degree of a node from its adjacency dictionary; a self-loop counts
    twice. *)
Definition degree_of (n : K) (nbrs : list K) : nat :=
  length nbrs + (if mem n nbrs then 1 else 0).

(** [list(G.degree())] *)
Definition degree (G : Graph) : list (K * nat) :=
  map (fun '(n, nbrs) => (n, degree_of n nbrs)) (_adj G).

(** [G.number_of_edges()]: half of the sum of the degrees. *)
Definition number_of_edges (G : Graph) : nat :=
  fold_left Nat.add (map snd (degree G)) 0 / 2.

(** [G.subgraph(ns)], the subgraph induced by the nodes of [ns] that are
    in [G].  networkx returns a read-only view; none of the scripts changes
    [G] while it holds one, so the view is modelled by its contents.  The
    nodes keep the order they have in [G]; networkx does the same unless
    [ns] is less than half of [G], when it follows the order of the set
    [ns], which Python leaves open.  [subgraph] therefore gives the nodes,
    the attributes and the neighbour lists of the view; where the order of
    the nodes of the view matters, [subgraph_view] below is the model. *)
Definition subgraph (G : Graph) (ns : list K) : Graph :=
  mkGraph (filter (fun '(n, _) => mem n ns) (_node G))
          (map (fun '(n, nbrs) => (n, filter (fun w => mem w ns) nbrs))
               (filter (fun '(n, _) => mem n ns) (_adj G))).

(** ** The iteration order of a subgraph view

    A Python set is given here by the list of its elements in the order in
    which they were added.  The order in which the set is iterated depends
    on the hash values of its elements, which for strings change from one
    run to the next: [set_iter l] stands for the order in which the set
    built by adding the elements of [l] is iterated.  All that Python
    promises is that every element comes once. *)
Definition set_iter_ok (set_iter : list K -> list K) : Prop :=
  forall l, NoDup (set_iter l) /\ forall x, In x (set_iter l) <-> In x l.

(** [G._node[n]] for a node of [G]. *)
Definition attrs_of (G : Graph) (n : K) : A :=
  match dict_get n (_node G) with Some a => a | None => attr_empty end.

(** [G.subgraph(ns)] with the order in which the view is iterated.

    [show_nodes(G.nbunch_iter(ns))] builds a new set [node_ok] from the
    elements of the set [ns] that are nodes of [G].  [FilterAtlas.__iter__]
    and [FilterAdjacency.__iter__] then yield
    [(n for n in node_ok if n in G)] when [2 * len(node_ok) < len(G)], and
    [(n for n in G if n in node_ok)] otherwise.  The neighbours of a node
    of the view are always those of [G] that are in [node_ok], in the
    order of [G]. *)
Definition subgraph_view (set_iter : list K -> list K)
           (G : Graph) (ns : list K) : Graph :=
  let node_ok := set_iter (filter (has_node G) (set_iter ns)) in
  let order :=
    if 2 * length node_ok <? number_of_nodes G
    then filter (has_node G) node_ok
    else filter (fun n => mem n node_ok) (nodes G) in
  mkGraph (map (fun n => (n, attrs_of G n)) order)
          (map (fun n => (n, filter (fun w => mem w node_ok) (neighbors G n)))
               order).

(** [G.copy()]: a fresh graph rebuilt from the nodes, then the edges. *)
Definition copy (G : Graph) : Graph :=
  let G1 := fold_left (fun g '(n, a) => add_node n a g) (_node G) empty_graph in
  fold_left (fun g '(u, nbrs) => fold_left (fun g v => add_edge u v g) nbrs g)
            (_adj G) G1.

(** ** Breadth-first search

    networkx has three level-by-level searches that differ only in what
    they record for a discovered node: nothing ([_plain_bfs]), its level
    ([_single_shortest_path_length]) or the path that led to it
    ([_single_shortest_path]).  [ext p l w] is what is recorded for [w]
    when it is found at level [l] from a node whose record is [p]. *)
Section BFS.
Context {P : Type} (ext : P -> nat -> K -> P).

Definition visit (level : nat) (pv : P)
           (st : dict K P * list (K * P)) (w : K) :=
  let '(found, next) := st in
  if dict_mem w found then st
  else let p := ext pv level w in (found ++ [(w, p)], next ++ [(w, p)]).

Definition expand (G : Graph) (level : nat)
           (st : dict K P * list (K * P)) (vp : K * P) :=
  fold_left (visit level (snd vp)) (neighbors G (fst vp)) st.

Fixpoint bfs_loop (fuel : nat) (G : Graph) (found : dict K P)
         (this : list (K * P)) (level : nat) : dict K P :=
  match fuel with
  | 0 => found
  | S fuel' =>
      match this with
      | [] => found
      | _ =>
          let '(found', next) :=
            fold_left (expand G (S level)) this (found, []) in
          bfs_loop fuel' G found' next (S level)
      end
  end.

(** Every round with a non-empty frontier discovers at least one new
    node, so [number_of_nodes G] rounds exhaust the search. *)
Definition bfs (G : Graph) (s : K) (p0 : P) : dict K P :=
  bfs_loop (number_of_nodes G) G [(s, p0)] [(s, p0)] 0.
End BFS.

(** Two search results list the same nodes in the same order, with records
    related by [Q]. *)
Definition sim {P1 P2 : Type} (Q : P1 -> P2 -> Prop)
           (d1 : dict K P1) (d2 : dict K P2) : Prop :=
  Forall2 (fun a b => fst a = fst b /\ Q (snd a) (snd b)) d1 d2.

(** [_plain_bfs(G, n, source)] *)
Definition _plain_bfs (G : Graph) (s : K) : list K :=
  dict_keys (bfs (fun _ _ _ => tt) G s tt).

(** [nx.single_source_shortest_path_length(G, source)] *)
Definition single_source_shortest_path_length (G : Graph) (s : K)
  : result (dict K nat) :=
  if has_node G s then inr (bfs (fun _ l _ => l) G s 0)
  else inl NodeNotFound.

(** [nx.single_source_shortest_path(G, source)] *)
Definition single_source_shortest_path (G : Graph) (s : K)
  : result (dict K (list K)) :=
  if has_node G s then inr (bfs (fun p _ w => p ++ [w]) G s [s])
  else inl NodeNotFound.

(** [nx.shortest_path(G, source, target)].  networkx answers a
    source-to-target query with a search from both ends; it is modelled by
    the single-source search.  Both return a shortest path, so they agree
    on the number of edges, though not always on the path. *)
Definition shortest_path (G : Graph) (s t : K) : result (list K) :=
  if has_node G s && has_node G t then
    rbind (single_source_shortest_path G s) (fun paths =>
      match dict_get t paths with
      | Some p => inr p
      | None => inl NetworkXNoPath
      end)
  else inl NodeNotFound.

(** [list(nx.connected_components(G))]; a component is listed in the order
    in which the search found its nodes. *)
Definition connected_components (G : Graph) : list (list K) :=
  snd (fold_left
         (fun '(seen, comps) v =>
            if mem v seen then (seen, comps)
            else let c := _plain_bfs G v in (seen ++ c, comps ++ [c]))
         (nodes G) ([], [])).

(** [nx.number_connected_components(G)] *)
Definition number_connected_components (G : Graph) : nat :=
  length (connected_components G).

(** [nx.eccentricity(G)] *)
Definition eccentricity (G : Graph) : result (dict K nat) :=
  rmap (fun n =>
          rbind (single_source_shortest_path_length G n) (fun lengths =>
            if length lengths =? number_of_nodes G then
              rbind (max_nat (dict_values lengths)) (fun e => inr (n, e))
            else inl NetworkXError))
       (nodes G).

(** [nx.diameter(G)] *)
Definition diameter (G : Graph) : result nat :=
  rbind (eccentricity G) (fun e => max_nat (dict_values e)).

(** [nx.periphery(G)] *)
Definition periphery (G : Graph) : result (list K) :=
  rbind (eccentricity G) (fun e =>
    rbind (max_nat (dict_values e)) (fun d =>
      inr (dict_keys (filter (fun '(_, ev) => ev =? d) e)))).

(** ** Invariants and graph-theoretic notions *)

(** The two dictionaries of a graph have the same keys in the same order. *)
Definition keys_ok (G : Graph) : Prop :=
  dict_keys (_adj G) = dict_keys (_node G).

(** What every graph built through [add_node] and [add_edge] satisfies:
    the two dictionaries have the same keys, without repetition, and
    adjacency is symmetric. *)
Record wf (G : Graph) : Prop := {
  wf_keys : dict_keys (_adj G) = dict_keys (_node G);
  wf_nodup : NoDup (dict_keys (_node G));
  wf_sym : forall u v, In v (neighbors G u) -> In u (neighbors G v);
  wf_nbrs : forall u, NoDup (neighbors G u)
}.

Definition adj (G : Graph) (u v : K) : Prop := In v (neighbors G u).

(** [walk G u v n]: a walk of [n] edges from [u] to [v]. *)
Inductive walk (G : Graph) : K -> K -> nat -> Prop :=
| walk_nil u : walk G u u 0
| walk_step u v w n : adj G u v -> walk G v w n -> walk G u w (S n).

Definition reach (G : Graph) (u v : K) : Prop := exists n, walk G u v n.

Definition connected (G : Graph) : Prop :=
  forall u v, In u (nodes G) -> In v (nodes G) -> reach G u v.

(** [d] is the distance from [u] to [v]. *)
Definition dist (G : Graph) (u v : K) (d : nat) : Prop :=
  walk G u v d /\ forall n, walk G u v n -> d <= n.

Fixpoint is_path (G : Graph) (l : list K) : Prop :=
  match l with
  | [] => True
  | x :: l' =>
      match l' with
      | [] => True
      | y :: _ => adj G x y /\ is_path G l'
      end
  end.

(** A cycle: at least three distinct nodes, each adjacent to the next and
    the last one to the first. *)
Definition cycle (G : Graph) (l : list K) : Prop :=
  3 <= length l /\ NoDup l /\ is_path G l /\
  match l with
  | [] => False
  | x :: _ => adj G (last l x) x
  end.

Definition acyclic (G : Graph) : Prop :=
  (forall u, ~ adj G u u) /\ (forall l, ~ cycle G l).

Definition is_tree (G : Graph) : Prop := connected G /\ acyclic G.

(** What holds while [connected_components] runs, of the nodes [seen] so
    far and the components listed: the components are disjoint searches,
    and no edge leaves the nodes seen. *)
Record cc_inv (G : Graph) (seen : list K) (comps : list (list K)) : Prop := {
  c_concat : seen = concat comps;
  c_nodup : NoDup seen;
  c_incl : incl seen (nodes G);
  c_closed : forall u v, In u seen -> adj G u v -> In v seen;
  c_source : forall c, In c comps ->
                       exists v, In v (nodes G) /\ c = _plain_bfs G v
}.
End Graph.

Arguments Graph K A : clear implicits.

End Nx.

Import Nx.

(* ================================================================== *)
(** * Problem 1: the Cayley tree *)
(* ================================================================== *)

Module CayleyTree.

(** The only node attribute is [level]; [None] is a dictionary without it. *)
#[export] Instance Attrs_level : Attrs (option nat) := {|
  attr_empty := None;
  attr_update old new := match new with Some _ => new | None => old end
|}.

Definition TGraph := Graph nat (option nat).

(** [G.nodes[node]['level']] *)
Definition get_level (G : TGraph) (node : nat) : result nat :=
  match dict_get node (_node G) with
  | Some (Some l) => inr l
  | _ => inl KeyError
  end.

(** The variables the loops of [generate_cayley_tree] update. *)
Record state := mkState {
  st_G : TGraph;
  st_new_level : list nat;
  st_next_node : nat
}.

(** [for _ in range(n): body] *)
Fixpoint for_range {S : Type} (n : nat) (body : S -> S) (s : S) : S :=
  match n with
  | 0 => s
  | S n' => for_range n' body (body s)
  end.

(** Lines 24-27: one child of [node] at level [d]. *)
Definition add_child (d node : nat) (s : state) : state :=
  let c := st_next_node s in
  mkState (add_edge node c (add_node c (Some d) (st_G s)))
          (st_new_level s ++ [c])
          (S c).

(** Lines 20-27: all the children of one node of the current level. *)
Definition expand_node (k d : nat) (s : result state) (node : nat)
  : result state :=
  rbind s (fun s =>
    rbind (get_level (st_G s) node) (fun l =>
      let children_count := if l =? 0 then k else k - 1 in
      inr (for_range children_count (add_child d node) s))).

(** Lines 18-28: one level of the tree. *)
Definition grow_level (k : nat) (s : result (TGraph * list nat * nat))
           (d : nat) : result (TGraph * list nat * nat) :=
  rbind s (fun '(G, current_level, next_node) =>
    rbind (fold_left (expand_node k d) current_level
                     (inr (mkState G [] next_node)))
          (fun s' => inr (st_G s', st_new_level s', st_next_node s'))).

(** [generate_cayley_tree(k, P)], for [k] and [P] that are not negative.
    For [k = 0] the difference [k - 1] is 0 here and -1 in Python; either
    way the loop of line 23 does not run. *)
Definition generate_cayley_tree (k P : nat) : result TGraph :=
  let G := add_node 0 (Some 0) empty_graph in
  rbind (fold_left (grow_level k) (seq 1 P) (inr (G, [0], 1)))
        (fun '(G, _, _) => inr G).

(** The level of a node, and its children: the neighbours one level
    further from the root. *)
Definition level_of (G : TGraph) (n : nat) : nat :=
  match get_level G n with inr l => l | inl _ => 0 end.

Definition children (G : TGraph) (n : nat) : list nat :=
  filter (fun w => level_of G w =? S (level_of G n)) (neighbors G n).

(** The number of children that a node of level [l] is given. *)
Definition expected (k l : nat) : nat := if l =? 0 then k else k - 1.

(** What holds of the graph while the tree grows, with [next] the value of
    [next_node]: the nodes are [0 .. next-1], each has a level, levels differ
    by one along an edge, and every node but the root has exactly one
    neighbour on the level above. *)
Record tinv (G : TGraph) (next : nat) : Prop := {
  t_wf : wf G;
  t_nodes : nodes G = seq 0 next;
  t_next : 1 <= next;
  t_level : forall n, n < next -> get_level G n = inr (level_of G n);
  t_edge : forall u v, adj G u v ->
                       level_of G v = S (level_of G u) \/ level_of G u = S (level_of G v);
  t_parent : forall c, c < next -> c <> 0 ->
                       exists p, adj G c p /\ level_of G c = S (level_of G p);
  t_unique : forall c p p', adj G c p -> adj G c p' ->
                            level_of G c = S (level_of G p) ->
                            level_of G c = S (level_of G p') -> p = p';
  t_root : level_of G 0 = 0;
  t_nonroot : forall n, n < next -> n <> 0 -> 1 <= level_of G n
}.

(** The state of the loops at level [d]: [new_level] lists the nodes of
    level [d], nodes above that level have [have n] children and the nodes
    of level [d] have none yet. *)
Record st_inv (d : nat) (G : TGraph) (next : nat) (new_level : list nat)
       (have : nat -> nat) : Prop := {
  s_tinv : tinv G next;
  s_levels : forall n, n < next -> level_of G n <= d;
  s_new : forall n, In n new_level <-> n < next /\ level_of G n = d;
  s_nodup : NoDup new_level;
  s_have : forall n, n < next -> level_of G n < d -> length (children G n) = have n;
  s_leaf : forall n, n < next -> level_of G n = d -> children G n = []
}.

(** After level [d] is complete: every node above level [d] has the number
    of children its level gives it, the nodes of level [d] have none. *)
Definition shape (k d : nat) (G : TGraph) (next : nat) (cur : list nat) : Prop :=
  st_inv d G next cur (fun n => expected k (level_of G n)).

(** The number of nodes of level [d]: the root alone, its [k] children,
    and [k - 1] nodes for every node of the level above afterwards. *)
Definition level_size (k d : nat) : nat :=
  match d with
  | 0 => 1
  | S d' => k * (k - 1) ^ d'
  end.

(** The number of nodes above level [d], which is the label of the first
    node of level [d]. *)
Fixpoint level_start (k d : nat) : nat :=
  match d with
  | 0 => 0
  | S d' => level_start k d' + level_size k d'
  end.

(** The number of nodes of a tree of depth [P]. *)
Definition tree_size (k P : nat) : nat := level_start k (S P).

(** The neighbours of the [i]-th node of level [d], as lists of labels: the
    parent, if any, and the children in a tree of depth [P]. *)
Definition parent_of (k d i : nat) : list nat :=
  match d with
  | 0 => []
  | S d' => [level_start k d' + i / expected k d']
  end.

Definition children_of (k P d i : nat) : list nat :=
  if d <? P then seq (level_start k (S d) + i * expected k d) (expected k d)
  else [].

(** What holds once level [d] is complete, with the loop variables
    [current_level] and [next_node]: labels are handed out level by level,
    and every adjacency list is known. *)
Record lab_inv (k d : nat) (G : TGraph) (cur : list nat) (next : nat) : Prop := {
  l_wf : wf G;
  l_nodes : nodes G = seq 0 next;
  l_next : next = level_start k (S d);
  l_cur : cur = seq (level_start k d) (level_size k d);
  l_level : forall d' i, d' <= d -> i < level_size k d' ->
                         get_level G (level_start k d' + i) = inr d';
  l_edges : number_of_edges G = next - 1;
  l_done : forall d' i, d' < d -> i < level_size k d' ->
                        neighbors G (level_start k d' + i)
                        = parent_of k d' i
                          ++ seq (level_start k (S d') + i * expected k d')
                                 (expected k d');
  l_leaf : forall i, i < level_size k d ->
                     neighbors G (level_start k d + i) = parent_of k d i
}.

(** Lines 49-51 of [plot_degree_distribution]: the counting loop. *)
Definition count_degrees (degrees : list nat) : dict nat nat :=
  fold_left (fun degree_count d => incr degree_count d) degrees [].

(** [d[k]] on a plain dictionary *)
Definition getitem {V} (d : dict nat V) (k : nat) : result V :=
  match dict_get k d with Some v => inr v | None => inl KeyError end.

(** [plot_degree_distribution(G)] up to the call of [plt.bar(x, y)]: the
    result is the pair of [x] and [y]. *)
Definition plot_degree_distribution {K A} `{Key K} (G : Graph K A)
  : result (list nat * list Q) :=
  let degrees := map snd (degree G) in
  let degree_count := count_degrees degrees in
  let x := sorted (dict_keys degree_count) in
  rbind (rmap (fun d => rbind (getitem degree_count d) (fun c =>
                          truediv c (number_of_nodes G))) x)
        (fun y => inr (x, y)).

(** The fraction that a count [dc[d]] is of [n]. *)
Definition frac (dc : dict nat nat) (n d : nat) : Q :=
  (inject_Z (Z.of_nat (get0 dc d)) / inject_Z (Z.of_nat n))%Q.

Definition Qsum (l : list Q) : Q := fold_right Qplus 0%Q l.

(** What a degree distribution is: the degrees that occur, in strictly
    ascending order, each with the fraction of the nodes that have it; the
    fractions are positive and add up to one. *)
Definition is_degree_distribution (degrees : list nat)
           (xy : list nat * list Q) : Prop :=
  let '(x, y) := xy in
  StronglySorted lt x /\
  (forall d, In d x <-> In d degrees) /\
  Forall2 (fun d f =>
             f == inject_Z (Z.of_nat (count_occ Nat.eq_dec degrees d))
                  / inject_Z (Z.of_nat (length degrees)))%Q x y /\
  Forall (fun f => 0 < f)%Q y /\
  (Qsum y == 1)%Q.

End CayleyTree.

(* ================================================================== *)
(** * Problem 2: the air-traffic network *)
(* ================================================================== *)

Module AirTraffic.

(** Node attributes: [code] and [city], each present or not. *)
Record attrs := mkAttrs {
  code : option string;
  city : option string
}.

Definition override {V} (old new : option V) : option V :=
  match new with Some _ => new | None => old end.

#[export] Instance Attrs_city : Attrs attrs := {|
  attr_empty := mkAttrs None None;
  attr_update old new :=
    mkAttrs (override (code old) (code new)) (override (city old) (city new))
|}.

Definition AGraph := Graph string attrs.

(** ** The world the script runs in

    Files are read, graph objects live on a heap and are passed by
    reference, text goes to standard output and series to the plotting
    library. *)
Record World := mkWorld {
  files : dict string (list string);
  heap : list AGraph;
  stdout : list string;
  figures : list (list nat * list Q)
}.

Definition M (A : Type) := World -> result A * World.

Definition ret {A} (a : A) : M A := fun w => (inr a, w).

Definition bind {A B} (m : M A) (f : A -> M B) : M B :=
  fun w => match m w with
           | (inl e, w') => (inl e, w')
           | (inr a, w') => f a w'
           end.

Definition lift {A} (r : result A) : M A := fun w => (r, w).

Declare Scope m_scope.
Delimit Scope m_scope with M.
Notation "x <- m ;; k" := (bind m (fun x => k))
  (at level 61, m at next level, right associativity) : m_scope.
Notation "m ;; k" := (bind m (fun _ => k))
  (at level 61, right associativity) : m_scope.
Local Open Scope m_scope.

(** [print(s)] *)
Definition print (s : string) : M unit :=
  fun w => (inr tt, mkWorld (files w) (heap w) (stdout w ++ [s]) (figures w)).

(** [plt.plot(x, y, ...)] followed by [plt.show()] *)
Definition plot (x : list nat) (y : list Q) : M unit :=
  fun w => (inr tt, mkWorld (files w) (heap w) (stdout w) (figures w ++ [(x, y)])).

(** [with open(path) as f: for line in f] reads the lines of a file. *)
Definition read_lines (path : string) : M (list string) :=
  fun w => match dict_get path (files w) with
           | Some ls => (inr ls, w)
           | None => (inl FileNotFoundError, w)
           end.

(** A new graph object; the result is the reference to it. *)
Definition alloc (G : AGraph) : M nat :=
  fun w => (inr (length (heap w)),
            mkWorld (files w) (heap w ++ [G]) (stdout w) (figures w)).

(** Reading the object behind a reference. *)
Definition deref (g : nat) : M AGraph :=
  fun w => (inr (nth g (heap w) empty_graph), w).

Fixpoint update_nth {X} (n : nat) (f : X -> X) (l : list X) : list X :=
  match l, n with
  | [], _ => []
  | x :: l', 0 => f x :: l'
  | x :: l', S n' => x :: update_nth n' f l'
  end.

(** A mutating method call on the object behind a reference. *)
Definition mutate (g : nat) (f : AGraph -> AGraph) : M unit :=
  fun w => (inr tt,
            mkWorld (files w) (update_nth g f (heap w)) (stdout w) (figures w)).

(** [for x in xs: body(x)] *)
Fixpoint for_each {X} (xs : list X) (body : X -> M unit) : M unit :=
  match xs with
  | [] => ret tt
  | x :: xs' => body x ;; for_each xs' body
  end.

(** A computation that leaves every existing graph object as it is: all it
    may do to the heap is to add new objects at the end. *)
Definition only_allocates {A} (m : M A) : Prop :=
  forall w, exists extra, heap (snd (m w)) = heap w ++ extra.

(** [m], run in any world where the reference [g] stands for the graph [G],
    ends normally: it leaves the files alone and adds graph objects,
    output lines and plots for which [P] holds. *)
Definition completes_on (g : nat) (G : AGraph) (m : M unit)
           (P : list AGraph -> list string -> list (list nat * list Q) -> Prop)
  : Prop :=
  forall w, g < length (heap w) -> nth g (heap w) empty_graph = G ->
    exists extra out figs,
      m w = (inr tt, mkWorld (files w) (heap w ++ extra) (stdout w ++ out)
                             (figures w ++ figs)) /\
      P extra out figs.

(** ** Loading *)

(** Lines 33-43: the body of the loop over the city file. *)
Definition add_city_line (line : string) (G : AGraph) : AGraph :=
  let line := strip line in
  match line with
  | EmptyString => G
  | _ =>
      match split_on "|" line with
      | [code; node_id; city_name] =>
          add_node node_id (mkAttrs (Some code) (Some city_name)) G
      | _ => G
      end
  end.

(** Lines 47-53: the body of the loop over the edge file. *)
Definition add_net_line (line : string) (G : AGraph) : AGraph :=
  let line := strip line in
  match line with
  | EmptyString => G
  | _ =>
      match split_ws line with
      | [node1; node2] => add_edge node1 node2 G
      | _ => G
      end
  end.

(** [build_graph(cities_file, network_file)]; the result is the reference to
    the new graph. *)
Definition build_graph (cities_file network_file : string) : M nat :=
  G <- alloc empty_graph ;;
  lines <- read_lines cities_file ;;
  for_each lines (fun line => mutate G (add_city_line line)) ;;
  lines <- read_lines network_file ;;
  for_each lines (fun line => mutate G (add_net_line line)) ;;
  ret G.

(** The graph that [build_graph] has constructed once both loops are done,
    as a function of the lines of the two files. *)
Definition load (cities net : list string) : AGraph :=
  fold_left (fun G line => add_net_line line G) net
            (fold_left (fun G line => add_city_line line G) cities empty_graph).

(** The node id of a city-file line that passes the checks of lines 33-37. *)
Definition city_line_id (line : string) : option string :=
  match strip line with
  | EmptyString => None
  | l => match split_on "|" l with
         | [_; node_id; _] => Some node_id
         | _ => None
         end
  end.

(** ** Queries *)

(** [max(nx.connected_components(G), key=len)] followed by [G.subgraph] *)
Definition largest_cc (G : AGraph) : result AGraph :=
  rbind (max_by_len (connected_components G)) (fun largest_cc_nodeset =>
    inr (subgraph G largest_cc_nodeset)).

(** The same two lines, 106 and 108 of Q3, with the order in which the view
    [G_largest] is iterated: [set_iter] is the iteration order of Python's
    sets in the run at hand. *)
Definition largest_cc_view (set_iter : list string -> list string)
           (G : AGraph) : result AGraph :=
  rbind (max_by_len (connected_components G)) (fun largest_cc_nodeset =>
    inr (subgraph_view set_iter G largest_cc_nodeset)).

(** An iteration order that sets of strings can have: a set is a hash
    table, and is iterated slot by slot.  The strings of [slots] are taken
    to hash to slots in that order, ahead of every other string. *)
Definition slot_order (slots : list string) (l : list string) : list string :=
  filter (fun x => mem x l) slots
  ++ nodup string_dec (filter (fun x => negb (mem x slots)) l).

(** [G.nodes[n]['city']] *)
Definition city_of (G : AGraph) (n : string) : result string :=
  match dict_get n (_node G) with
  | Some a => match city a with Some c => inr c | None => inl KeyError end
  | None => inl KeyError
  end.

(** Every node carries a [city]. *)
Definition all_named (G : AGraph) : Prop :=
  forall x, In x (nodes G) -> exists c, city_of G x = inr c.

Definition solve_problem2_q1 (g : nat) : M unit :=
  G <- deref g ;;
  let num_nodes := number_of_nodes G in
  let num_edges := number_of_edges G in
  print "=== Problem2 (Q1) ===" ;;
  print ("Number of nodes (undirected): " ++ str num_nodes) ;;
  print ("Number of edges (undirected): " ++ str num_edges).

Definition solve_problem2_q2 (g : nat) : M unit :=
  G <- deref g ;;
  let num_components := number_connected_components G in
  largest_cc_subgraph <- lift (largest_cc G) ;;
  let largest_cc_num_nodes := number_of_nodes largest_cc_subgraph in
  let largest_cc_num_edges := number_of_edges largest_cc_subgraph in
  print "=== Problem2 (Q2) ===" ;;
  print ("Number of connected components: " ++ str num_components) ;;
  print "Largest connected component:" ;;
  print ("   Nodes: " ++ str largest_cc_num_nodes) ;;
  print ("   Edges: " ++ str largest_cc_num_edges).

(** Lines 112-119: the ten pairs that Q3 prints. *)
Definition q3_top_10 (G_largest : AGraph) : list (string * nat) :=
  let node_degree_pairs := degree G_largest in
  firstn 10 (sort_desc (fun x y => snd x <? snd y) node_degree_pairs).

Definition solve_problem2_q3 (g : nat) : M unit :=
  G <- deref g ;;
  G_largest <- lift (largest_cc G) ;;
  let top_10 := q3_top_10 G_largest in
  print "=== Problem2 (Q3) ===" ;;
  print "Top 10 nodes in the largest component by degree:" ;;
  for_each top_10 (fun '(node_id, deg) =>
    city_name <- lift (city_of G_largest node_id) ;;
    print ("  - City/Airport: " ++ city_name ++ ", Degree: " ++ str deg)).

(** [a > b] on fractions *)
Definition Qgtb (a b : Q) : bool := negb (Qle_bool a b).

(** Lines 146-166: the series that Q4 plots. *)
Definition q4_distribution (G_largest : AGraph) : result (list nat * list Q) :=
  let degrees := map snd (degree G_largest) in
  let degree_counts := Counter degrees in
  let n_nodes := number_of_nodes G_largest in
  fold_left
    (fun acc deg =>
       rbind acc (fun '(x_vals, y_vals) =>
         let count := get0 degree_counts deg in
         rbind (truediv count n_nodes) (fun fraction =>
           if Qgtb fraction 0 then inr (x_vals ++ [deg], y_vals ++ [fraction])
           else inr (x_vals, y_vals))))
    (sorted (dict_keys degree_counts)) (inr ([], [])).

Definition solve_problem2_q4 (g : nat) : M unit :=
  G <- deref g ;;
  G_largest <- lift (largest_cc G) ;;
  xy <- lift (q4_distribution G_largest) ;;
  plot (fst xy) (snd xy) ;;
  plot (fst xy) (snd xy).

(** Lines 214-237 of Q5: the diameter and the path, or [None] when no node
    is found at that distance. *)
Definition q5_path (G_largest : AGraph) : result (option (nat * list string)) :=
  rbind (diameter G_largest) (fun diameter =>
    rbind (periphery G_largest) (fun periphery_nodes =>
      match periphery_nodes with
      | [] => inl IndexError
      | p0 :: _ =>
          rbind (single_source_shortest_path_length G_largest p0)
            (fun dist_from_p0 =>
               let candidates :=
                 dict_keys (filter (fun '(_, dist) => dist =? diameter)
                                   dist_from_p0) in
               match candidates with
               | [] => inr None
               | p1 :: _ =>
                   rbind (shortest_path G_largest p0 p1) (fun path_nodes =>
                     inr (Some (diameter, path_nodes)))
               end)
      end)).

Definition solve_problem2_q5 (g : nat) : M unit :=
  G <- deref g ;;
  view <- lift (largest_cc G) ;;
  gl <- alloc (copy view) ;;
  G_largest <- deref gl ;;
  found <- lift (q5_path G_largest) ;;
  match found with
  | None =>
      print "No node found at distance = diameter. Something unexpected occurred."
  | Some (diameter, path_nodes) =>
      path_cities <- lift (rmap (city_of G_largest) path_nodes) ;;
      print "=== Problem2 (Q5) ===" ;;
      print ("Diameter of the giant component: " ++ str diameter) ;;
      print "One longest shortest path between two cities (by city name):" ;;
      print (join " -> " path_cities)
  end.

Definition code_is (a : attrs) (c : string) : bool :=
  match code a with Some c' => String.eqb c' c | None => false end.

(** Lines 264-271: the scan for the two airports. *)
Definition q6_find (nodes_data : dict string attrs)
  : option string * option string :=
  fold_left (fun '(start_node, end_node) '(node_id, attrs) =>
               if code_is attrs "CBR" then (Some node_id, end_node)
               else if code_is attrs "CPT" then (start_node, Some node_id)
               else (start_node, end_node))
            nodes_data (None, None).

(** The first, and the last, node in iteration order that carries a code. *)
Definition first_with_code (c : string) (nodes_data : dict string attrs)
  : option string :=
  option_map fst (find (fun '(_, a) => code_is a c) nodes_data).

Definition last_with_code (c : string) (nodes_data : dict string attrs)
  : option string :=
  first_with_code c (rev nodes_data).

Definition solve_problem2_q6 (g : nat) : M unit :=
  G <- deref g ;;
  match q6_find (_node G) with
  | (Some start_node, Some end_node) =>
      match shortest_path G start_node end_node with
      | inl NetworkXNoPath =>
          print "No path found between Canberra (CBR) and Cape Town (CPT). They may be in different components."
      | inl e => lift (inl e)
      | inr path_nodes =>
          let num_flights := length path_nodes - 1 in
          path_cities <- lift (rmap (city_of G) path_nodes) ;;
          print "=== Problem2 (Q6) ===" ;;
          print ("Smallest number of flights from Canberra (CBR) to Cape Town (CPT): "
                 ++ str num_flights) ;;
          print "Route (city/airport names only):" ;;
          print (join " -> " path_cities)
      end
  | _ =>
      print "Could not find 'CBR' or 'CPT' in the graph. Check data or code attribute."
  end.

(** Betweenness centrality works on floating-point scores.  The score type,
    its order, [nx.betweenness_centrality] and the [:.6f] format are left
    open: nothing proved below depends on them. *)
Section Betweenness.
Variable Score : Type.
Variable score_ltb : Score -> Score -> bool.
Variable betweenness_centrality : AGraph -> dict string Score.
Variable format_6f : Score -> string.

Definition solve_problem2_q7 (g : nat) : M unit :=
  G <- deref g ;;
  view <- lift (largest_cc G) ;;
  gl <- alloc (copy view) ;;
  G_largest <- deref gl ;;
  let betweenness_dict := betweenness_centrality G_largest in
  let sorted_by_bc :=
    sort_desc (fun x y => score_ltb (snd x) (snd y)) betweenness_dict in
  let top_10 := firstn 10 sorted_by_bc in
  print "=== Problem2 (Q7) ===" ;;
  print "Top 10 airports/cities by betweenness (largest connected component):" ;;
  for_each top_10 (fun '(node_id, bc_value) =>
    city_name <- lift (city_of G_largest node_id) ;;
    print ("  - City : " ++ city_name ++ ", Betweenness: " ++ format_6f bc_value)).

Definition main : M unit :=
  G <- build_graph "global-cities.dat" "global-net.dat" ;;
  solve_problem2_q1 G ;;
  solve_problem2_q2 G ;;
  solve_problem2_q3 G ;;
  solve_problem2_q4 G ;;
  solve_problem2_q5 G ;;
  solve_problem2_q6 G ;;
  solve_problem2_q7 G.
End Betweenness.

End AirTraffic.

(* ================================================================== *)
(** * Facts about the Python built-ins *)
(* ================================================================== *)

Module PyFacts.
Import Py.
Unset Implicit Arguments.

Section Keys.
Context {K : Type} `{Key K}.

Lemma keqb_refl (k : K) : keqb k k = true.
Proof. now apply keqb_eq. Qed.

Lemma keqb_neq (a b : K) : keqb a b = false <-> a <> b.
Proof.
  split; intros E.
  - intros ->. rewrite keqb_refl in E. discriminate.
  - destruct (keqb a b) eqn:E'; [apply keqb_eq in E'; contradiction | reflexivity].
Qed.

Lemma keqb_dec (a b : K) :
  (a = b /\ keqb a b = true) \/ (a <> b /\ keqb a b = false).
Proof.
  destruct (keqb a b) eqn:E.
  - left. split; [now apply keqb_eq | reflexivity].
  - right. split; [now apply keqb_neq | reflexivity].
Qed.

Lemma key_eq_dec (a b : K) : {a = b} + {a <> b}.
Proof.
  destruct (keqb a b) eqn:E.
  - left. now apply keqb_eq.
  - right. now apply keqb_neq.
Qed.

Lemma mem_In (k : K) l : mem k l = true <-> In k l.
Proof.
  induction l as [|x l IH]; simpl.
  - split; [discriminate | contradiction].
  - rewrite orb_true_iff, IH, keqb_eq. split; intros [E|E]; auto.
Qed.

Lemma mem_false (k : K) l : mem k l = false <-> ~ In k l.
Proof.
  rewrite <- mem_In. destruct (mem k l); intuition congruence.
Qed.

Lemma mem_app (k : K) l1 l2 : mem k (l1 ++ l2) = mem k l1 || mem k l2.
Proof.
  induction l1 as [|x l1 IH]; simpl; [reflexivity|].
  now rewrite IH, orb_assoc.
Qed.
End Keys.

Section DictFacts.
Context {K : Type} `{Key K} {V : Type}.
Implicit Types (d : dict K V) (k : K) (v : V).

Lemma dict_get_Some_In k v d : dict_get k d = Some v -> In (k, v) d.
Proof.
  induction d as [|[k' v'] d IH]; simpl; [discriminate|].
  destruct (keqb_dec k k') as [[-> ->]|[_ ->]].
  - intros [= ->]. now left.
  - intros E. right. auto.
Qed.

Lemma dict_get_None k d : dict_get k d = None <-> ~ In k (dict_keys d).
Proof.
  induction d as [|[k' v'] d IH]; simpl; [tauto|].
  destruct (keqb_dec k k') as [[-> ->]|[N ->]].
  - split; [discriminate | intros E; exfalso; auto].
  - rewrite IH. split; intros E; [intros [E'|E']; [congruence | auto] | auto].
Qed.

Lemma dict_get_Some_keys k v d : dict_get k d = Some v -> In k (dict_keys d).
Proof. intros E. apply dict_get_Some_In in E. now apply (in_map fst) in E. Qed.

Lemma dict_keys_get k d : In k (dict_keys d) -> exists v, dict_get k d = Some v.
Proof.
  intros I. destruct (dict_get k d) eqn:E; [eauto|].
  apply dict_get_None in E. contradiction.
Qed.

Lemma dict_mem_In k d : dict_mem k d = true <-> In k (dict_keys d).
Proof.
  unfold dict_mem. split.
  - destruct (dict_get k d) eqn:E; [|discriminate].
    intros _. eapply dict_get_Some_keys; eauto.
  - intros I. apply dict_keys_get in I as [v ->]. reflexivity.
Qed.

Lemma dict_mem_false k d : dict_mem k d = false <-> ~ In k (dict_keys d).
Proof.
  rewrite <- dict_mem_In. destruct (dict_mem k d); intuition congruence.
Qed.

Lemma dict_mem_mem k d : dict_mem k d = mem k (dict_keys d).
Proof.
  destruct (mem k (dict_keys d)) eqn:E.
  - apply dict_mem_In, mem_In, E.
  - apply dict_mem_false. now apply mem_false.
Qed.

Lemma dict_get_set_same k v d : dict_get k (dict_set k v d) = Some v.
Proof.
  induction d as [|[k' v'] d IH]; simpl.
  - now rewrite keqb_refl.
  - destruct (keqb_dec k k') as [[-> E]|[N E]]; rewrite E; simpl; rewrite E; auto.
Qed.

Lemma dict_get_set_other k k' v d :
  k <> k' -> dict_get k' (dict_set k v d) = dict_get k' d.
Proof.
  intros N. induction d as [|[k2 v2] d IH]; simpl.
  - assert (keqb k' k = false) as -> by (apply keqb_neq; congruence). reflexivity.
  - destruct (keqb_dec k k2) as [[<- E]|[N2 E]]; rewrite E; simpl.
    + assert (keqb k' k = false) as -> by (apply keqb_neq; congruence).
      reflexivity.
    + now rewrite IH.
Qed.

Lemma dict_set_in k v d :
  In k (dict_keys d) -> dict_keys (dict_set k v d) = dict_keys d.
Proof.
  induction d as [|[k2 v2] d IH]; simpl; [contradiction|].
  intros I. destruct (keqb_dec k k2) as [[-> E]|[N2 E]]; rewrite E; simpl.
  - reflexivity.
  - f_equal. apply IH. destruct I; congruence.
Qed.

Lemma dict_set_notin k v d :
  ~ In k (dict_keys d) -> dict_set k v d = d ++ [(k, v)].
Proof.
  induction d as [|[k2 v2] d IH]; simpl; [reflexivity|].
  intros I. destruct (keqb_dec k k2) as [[-> E]|[N2 E]]; rewrite E; simpl.
  - exfalso; auto.
  - f_equal. apply IH. auto.
Qed.

Lemma dict_set_same_value k v d : dict_get k d = Some v -> dict_set k v d = d.
Proof.
  induction d as [|[k2 v2] d IH]; simpl; [discriminate|].
  destruct (keqb_dec k k2) as [[-> E]|[N2 E]]; rewrite E.
  - now intros [= ->].
  - intros G. now rewrite IH.
Qed.

Lemma dict_keys_app d1 d2 : dict_keys (d1 ++ d2) = dict_keys d1 ++ dict_keys d2.
Proof. apply map_app. Qed.

Lemma dict_keys_set_incl k v d x :
  In x (dict_keys (dict_set k v d)) <-> x = k \/ In x (dict_keys d).
Proof.
  destruct (in_dec key_eq_dec k (dict_keys d)) as [I|N].
  - rewrite dict_set_in by assumption. split; [auto | intros [->|?]; auto].
  - rewrite dict_set_notin, dict_keys_app, in_app_iff by assumption. simpl.
    intuition (subst; auto).
Qed.

Lemma dict_get_app_l k d1 d2 :
  In k (dict_keys d1) -> dict_get k (d1 ++ d2) = dict_get k d1.
Proof.
  induction d1 as [|[k2 v2] d1 IH]; simpl; [contradiction|].
  intros I. destruct (keqb_dec k k2) as [[-> E]|[N2 E]]; rewrite E; auto.
  apply IH. destruct I; congruence.
Qed.

Lemma dict_get_app_r k d1 d2 :
  ~ In k (dict_keys d1) -> dict_get k (d1 ++ d2) = dict_get k d2.
Proof.
  induction d1 as [|[k2 v2] d1 IH]; simpl; [reflexivity|].
  intros I. destruct (keqb_dec k k2) as [[-> E]|[N2 E]]; rewrite E; auto.
  exfalso; auto.
Qed.

Lemma dict_get_In k v d :
  NoDup (dict_keys d) -> In (k, v) d -> dict_get k d = Some v.
Proof.
  induction d as [|[k2 v2] d IH]; simpl; [contradiction|].
  intros N I. inversion N as [|? ? N1 N2]; subst.
  destruct I as [[= -> ->]|I].
  - now rewrite keqb_refl.
  - destruct (keqb_dec k k2) as [[-> E]|[N3 E]]; rewrite E; auto.
    exfalso. apply N1. now apply (in_map fst) in I.
Qed.
End DictFacts.

Section SortFacts.
Context {X : Type} (ltb : X -> X -> bool).

Lemma insert_desc_perm x l : Permutation (x :: l) (insert_desc ltb x l).
Proof.
  induction l as [|y l IH]; simpl; [reflexivity|].
  destruct (ltb y x); [reflexivity|].
  rewrite perm_swap. now constructor.
Qed.

Lemma sort_desc_fold_perm l : forall acc,
  Permutation (l ++ acc) (fold_left (fun acc x => insert_desc ltb x acc) l acc).
Proof.
  induction l as [|x l IH]; intros acc; simpl; [reflexivity|].
  rewrite <- IH. rewrite <- insert_desc_perm. apply Permutation_middle.
Qed.

Lemma sort_desc_perm l : Permutation l (sort_desc ltb l).
Proof.
  unfold sort_desc. rewrite <- sort_desc_fold_perm. now rewrite app_nil_r.
Qed.
End SortFacts.

(** Sorting by an integer key, largest first. *)
Section SortByKey.
Context {X : Type} (key : X -> nat).

Let ltb (x y : X) : bool := key x <? key y.
Let desc (x y : X) : Prop := key y <= key x.

Lemma insert_desc_In x y l : In y (insert_desc ltb x l) <-> y = x \/ In y l.
Proof.
  split; intros I.
  - apply (Permutation_in _ (Permutation_sym (insert_desc_perm ltb x l))) in I.
    destruct I; auto.
  - apply (Permutation_in _ (insert_desc_perm ltb x l)). destruct I; [now left | now right].
Qed.

Lemma insert_desc_sorted x l :
  StronglySorted desc l -> StronglySorted desc (insert_desc ltb x l).
Proof.
  induction 1 as [|y l S IH F]; simpl.
  - repeat constructor.
  - unfold ltb at 1. destruct (key y <? key x) eqn:E.
    + apply Nat.ltb_lt in E. constructor; [now constructor|].
      constructor; [unfold desc; lia|].
      eapply Forall_impl; [|exact F]. unfold desc. intros; lia.
    + apply Nat.ltb_ge in E. constructor; [assumption|].
      apply Forall_forall. intros z Iz. apply insert_desc_In in Iz as [->|Iz].
      * exact E.
      * rewrite Forall_forall in F. now apply F.
Qed.

Lemma filter_none {Y} (p : Y -> bool) l :
  (forall z, In z l -> p z = false) -> filter p l = [].
Proof.
  induction l as [|y l IH]; simpl; intros N; [reflexivity|].
  rewrite (N y) by now left. apply IH. intros z Iz. apply N. now right.
Qed.

(** Among equal keys the new element goes last. *)
Lemma insert_desc_filter d x l :
  StronglySorted desc l ->
  filter (fun e => key e =? d) (insert_desc ltb x l) =
  filter (fun e => key e =? d) l ++ filter (fun e => key e =? d) [x].
Proof.
  induction 1 as [|y l S IH F]; simpl; [reflexivity|].
  unfold ltb at 1. destruct (key y <? key x) eqn:E.
  - apply Nat.ltb_lt in E. simpl.
    destruct (key x =? d) eqn:Ex.
    + apply Nat.eqb_eq in Ex.
      assert ((key y =? d) = false) as -> by (apply Nat.eqb_neq; lia).
      rewrite filter_none; [reflexivity|].
      intros z Iz. rewrite Forall_forall in F.
      specialize (F z Iz). unfold desc in F.
      apply Nat.eqb_neq. lia.
    + now rewrite app_nil_r.
  - simpl. rewrite IH. simpl. now destruct (key y =? d).
Qed.

Lemma sort_desc_fold l : forall acc,
  StronglySorted desc acc ->
  let r := fold_left (fun acc x => insert_desc ltb x acc) l acc in
  StronglySorted desc r /\
  forall d, filter (fun e => key e =? d) r =
            filter (fun e => key e =? d) acc ++ filter (fun e => key e =? d) l.
Proof.
  induction l as [|x l IH]; intros acc S; simpl.
  - split; [assumption|]. intros d. now rewrite app_nil_r.
  - destruct (IH (insert_desc ltb x acc) (insert_desc_sorted x acc S)) as [S' F'].
    split; [assumption|]. intros d. rewrite F', insert_desc_filter by assumption.
    rewrite <- app_assoc. simpl. now destruct (key x =? d).
Qed.

Lemma sort_desc_sorted l : StronglySorted desc (sort_desc ltb l).
Proof. apply (sort_desc_fold l []). constructor. Qed.

(** Stability: elements with the same key keep their order. *)
Lemma sort_desc_stable l d :
  filter (fun e => key e =? d) (sort_desc ltb l) = filter (fun e => key e =? d) l.
Proof. apply (sort_desc_fold l []). constructor. Qed.
End SortByKey.

Lemma StronglySorted_app_inv {X} (R : X -> X -> Prop) l1 l2 :
  StronglySorted R (l1 ++ l2) ->
  StronglySorted R l1 /\ forall a b, In a l1 -> In b l2 -> R a b.
Proof.
  induction l1 as [|x l1 IH]; simpl; intros S.
  - split; [constructor | intros ? ? []].
  - inversion S as [|? ? S' F]; subst. destruct (IH S') as [S1 C].
    split.
    + constructor; [assumption|]. apply Forall_forall. intros y Iy.
      rewrite Forall_forall in F. apply F. apply in_or_app. now left.
    + intros a b [<-|Ia] Ib; [|auto].
      rewrite Forall_forall in F. apply F. apply in_or_app. now right.
Qed.

End PyFacts.

(* ================================================================== *)
(** * Facts about graphs *)
(* ================================================================== *)

Module NxFacts.
Import Py PyFacts Nx.
Unset Implicit Arguments.

Section GraphFacts.
Context {K : Type} `{Key K} {A : Type} `{Attrs A}.
Implicit Types (G : Graph K A) (u v w n : K).

Lemma nbr_add_In v w l : In w (nbr_add v l) <-> In w l \/ w = v.
Proof.
  unfold nbr_add. destruct (mem v l) eqn:E.
  - apply mem_In in E. split; [auto | intros [?| ->]; auto].
  - rewrite in_app_iff. simpl. intuition.
Qed.

Lemma nbr_add_NoDup v l : NoDup l -> NoDup (nbr_add v l).
Proof.
  unfold nbr_add. destruct (mem v l) eqn:E; [auto|].
  apply mem_false in E. intros N.
  apply NoDup_app; [assumption | repeat constructor; simpl; tauto |].
  intros x I [<-|[]]. contradiction.
Qed.

Lemma nbr_add_present v l : In v l -> nbr_add v l = l.
Proof. unfold nbr_add. intros I. apply mem_In in I. now rewrite I. Qed.

Lemma nbr_add_absent v l : ~ In v l -> nbr_add v l = l ++ [v].
Proof. unfold nbr_add. intros I. apply mem_false in I. now rewrite I. Qed.

Lemma has_node_In G n : has_node G n = true <-> In n (nodes G).
Proof. apply dict_mem_In. Qed.

Lemma has_node_false G n : has_node G n = false <-> ~ In n (nodes G).
Proof. apply dict_mem_false. Qed.

Lemma neighbors_not_node G n :
  keys_ok G -> ~ In n (nodes G) -> neighbors G n = [].
Proof.
  unfold keys_ok, nodes, neighbors. intros E N. rewrite <- E in N.
  apply dict_get_None in N. now rewrite N.
Qed.

Lemma neighbors_In_node G u v :
  keys_ok G -> In v (neighbors G u) -> In u (nodes G).
Proof.
  intros E I. destruct (in_dec key_eq_dec u (nodes G)) as [?|N]; [assumption|].
  rewrite (neighbors_not_node _ _ E N) in I. contradiction.
Qed.

(** *** [add_node] *)

Lemma nodes_add_node n a G :
  nodes (add_node n a G) = if has_node G n then nodes G else nodes G ++ [n].
Proof.
  unfold add_node, has_node, dict_mem, nodes.
  destruct (dict_get n (_node G)) eqn:E; simpl.
  - apply dict_set_in. eapply dict_get_Some_keys; eauto.
  - apply dict_get_None in E. rewrite dict_set_notin by assumption.
    rewrite dict_keys_app. reflexivity.
Qed.

Lemma keys_ok_add_node n a G : keys_ok G -> keys_ok (add_node n a G).
Proof.
  unfold keys_ok. intros E. generalize (nodes_add_node n a G).
  unfold nodes, has_node, dict_mem, add_node.
  destruct (dict_get n (_node G)) eqn:E1; simpl; intros ->; [assumption|].
  apply dict_get_None in E1.
  rewrite dict_set_notin by (rewrite E; assumption).
  rewrite dict_keys_app, E. reflexivity.
Qed.

Lemma neighbors_add_node n a G u :
  keys_ok G -> neighbors (add_node n a G) u = neighbors G u.
Proof.
  intros E. unfold add_node.
  destruct (dict_get n (_node G)) eqn:E1; [reflexivity|].
  apply dict_get_None in E1. unfold neighbors at 1. simpl.
  destruct (key_eq_dec n u) as [->|N].
  - rewrite dict_get_set_same. now rewrite neighbors_not_node.
  - now rewrite dict_get_set_other.
Qed.

Lemma attrs_add_node_same n a G :
  dict_get n (_node (add_node n a G)) =
  Some (attr_update (match dict_get n (_node G) with
                     | Some old => old | None => attr_empty end) a).
Proof.
  unfold add_node. destruct (dict_get n (_node G)); simpl;
    apply dict_get_set_same.
Qed.

Lemma attrs_add_node_other n a G u :
  n <> u -> dict_get u (_node (add_node n a G)) = dict_get u (_node G).
Proof.
  intros N. unfold add_node. destruct (dict_get n (_node G)); simpl;
    now apply dict_get_set_other.
Qed.

(** *** [add_edge] *)

Lemma nodes_touch n G :
  nodes (touch_node n G) = if has_node G n then nodes G else nodes G ++ [n].
Proof.
  unfold touch_node. destruct (has_node G n) eqn:E; [reflexivity|].
  apply has_node_false in E. unfold nodes in *. simpl.
  rewrite dict_set_notin by assumption. now rewrite dict_keys_app.
Qed.

Lemma keys_ok_touch n G : keys_ok G -> keys_ok (touch_node n G).
Proof.
  unfold keys_ok, touch_node. intros E.
  destruct (has_node G n) eqn:E1; [assumption|].
  apply has_node_false in E1. unfold nodes in E1. simpl.
  rewrite !dict_set_notin by (rewrite ?E; assumption).
  rewrite !dict_keys_app, E. reflexivity.
Qed.

Lemma neighbors_touch n G u :
  keys_ok G -> neighbors (touch_node n G) u = neighbors G u.
Proof.
  intros E. unfold touch_node. destruct (has_node G n) eqn:E1; [reflexivity|].
  apply has_node_false in E1. unfold neighbors at 1. simpl.
  destruct (key_eq_dec n u) as [->|N].
  - rewrite dict_get_set_same. now rewrite neighbors_not_node.
  - now rewrite dict_get_set_other.
Qed.

Lemma touch_In n G u : In u (nodes (touch_node n G)) <-> u = n \/ In u (nodes G).
Proof.
  rewrite nodes_touch. destruct (has_node G n) eqn:E.
  - apply has_node_In in E. split; [auto | intros [->|?]; auto].
  - rewrite in_app_iff. simpl. intuition.
Qed.

Lemma attrs_touch_other n G u :
  n <> u -> dict_get u (_node (touch_node n G)) = dict_get u (_node G).
Proof.
  intros N. unfold touch_node. destruct (has_node G n); [reflexivity|].
  simpl. now apply dict_get_set_other.
Qed.

Lemma attrs_touch_old n G u :
  In u (nodes G) -> dict_get u (_node (touch_node n G)) = dict_get u (_node G).
Proof.
  intros I. unfold touch_node. destruct (has_node G n) eqn:E; [reflexivity|].
  apply has_node_false in E. simpl. apply dict_get_set_other. congruence.
Qed.

Lemma attrs_touch_new n G :
  ~ In n (nodes G) -> dict_get n (_node (touch_node n G)) = Some attr_empty.
Proof.
  intros I. unfold touch_node. apply has_node_false in I. rewrite I.
  simpl. apply dict_get_set_same.
Qed.

Lemma node_add_edge u v G : _node (add_edge u v G) = _node (touch_node v (touch_node u G)).
Proof. reflexivity. Qed.

Lemma nodes_add_edge_In u v G n :
  In n (nodes (add_edge u v G)) <-> n = u \/ n = v \/ In n (nodes G).
Proof.
  unfold nodes. rewrite node_add_edge. fold (nodes (touch_node v (touch_node u G))).
  rewrite !touch_In. tauto.
Qed.

Lemma keys_ok_add_edge u v G : keys_ok G -> keys_ok (add_edge u v G).
Proof.
  intros E. pose proof (keys_ok_touch v _ (keys_ok_touch u _ E)) as E2.
  unfold keys_ok in *. rewrite node_add_edge, <- E2. unfold add_edge. simpl.
  assert (Iu : In u (dict_keys (_adj (touch_node v (touch_node u G))))).
  { rewrite E2. apply touch_In. right. apply touch_In. now left. }
  assert (Iv : In v (dict_keys (_adj (touch_node v (touch_node u G))))).
  { rewrite E2. apply touch_In. now left. }
  rewrite dict_set_in; [now apply dict_set_in|].
  apply dict_keys_set_incl. now right.
Qed.

Lemma neighbors_add_edge_l u v G :
  keys_ok G -> u <> v ->
  neighbors (add_edge u v G) u = nbr_add v (neighbors G u).
Proof.
  intros E N. unfold neighbors at 1, add_edge. simpl.
  rewrite dict_get_set_other by congruence. rewrite dict_get_set_same.
  rewrite neighbors_touch by now apply keys_ok_touch.
  now rewrite neighbors_touch.
Qed.

Lemma neighbors_add_edge_r u v G :
  keys_ok G -> u <> v ->
  neighbors (add_edge u v G) v = nbr_add u (neighbors G v).
Proof.
  intros E N. unfold neighbors at 1, add_edge. simpl.
  rewrite dict_get_set_same. rewrite dict_get_set_other by congruence.
  fold (neighbors (touch_node v (touch_node u G)) v).
  rewrite neighbors_touch by now apply keys_ok_touch.
  now rewrite neighbors_touch.
Qed.

Lemma neighbors_add_edge_loop u G :
  keys_ok G -> neighbors (add_edge u u G) u = nbr_add u (neighbors G u).
Proof.
  intros E. unfold neighbors at 1, add_edge. simpl.
  rewrite dict_get_set_same. rewrite dict_get_set_same.
  rewrite neighbors_touch by now apply keys_ok_touch.
  rewrite neighbors_touch by assumption.
  apply nbr_add_present. apply nbr_add_In. now right.
Qed.

Lemma neighbors_add_edge_other u v G n :
  keys_ok G -> n <> u -> n <> v ->
  neighbors (add_edge u v G) n = neighbors G n.
Proof.
  intros E N1 N2. unfold neighbors at 1, add_edge. simpl.
  rewrite !dict_get_set_other by congruence.
  fold (neighbors (touch_node v (touch_node u G)) n).
  rewrite neighbors_touch by now apply keys_ok_touch.
  now rewrite neighbors_touch.
Qed.

Lemma neighbors_add_edge_In u v G n w :
  keys_ok G ->
  In w (neighbors (add_edge u v G) n) <->
  In w (neighbors G n) \/ (n = u /\ w = v) \/ (n = v /\ w = u).
Proof.
  intros E. destruct (key_eq_dec u v) as [<-|N].
  - destruct (key_eq_dec n u) as [->|N1].
    + rewrite neighbors_add_edge_loop, nbr_add_In by assumption. intuition.
    + rewrite neighbors_add_edge_other by assumption. intuition.
  - destruct (key_eq_dec n u) as [->|N1]; [|destruct (key_eq_dec n v) as [->|N2]].
    + rewrite neighbors_add_edge_l, nbr_add_In by assumption.
      intuition congruence.
    + rewrite neighbors_add_edge_r, nbr_add_In by assumption.
      intuition congruence.
    + rewrite neighbors_add_edge_other by assumption. intuition congruence.
Qed.

Lemma neighbors_add_edge_NoDup u v G n :
  keys_ok G -> NoDup (neighbors G n) -> NoDup (neighbors (add_edge u v G) n).
Proof.
  intros E ND. destruct (key_eq_dec u v) as [<-|N].
  - destruct (key_eq_dec n u) as [->|N1].
    + rewrite neighbors_add_edge_loop by assumption. now apply nbr_add_NoDup.
    + now rewrite neighbors_add_edge_other.
  - destruct (key_eq_dec n u) as [->|N1]; [|destruct (key_eq_dec n v) as [->|N2]].
    + rewrite neighbors_add_edge_l by assumption. now apply nbr_add_NoDup.
    + rewrite neighbors_add_edge_r by assumption. now apply nbr_add_NoDup.
    + now rewrite neighbors_add_edge_other.
Qed.

(** *** Well-formedness is preserved *)

Lemma wf_empty : wf (@empty_graph K A).
Proof.
  split; simpl; auto; constructor.
Qed.

Lemma NoDup_snoc {X} (l : list X) x : NoDup l -> ~ In x l -> NoDup (l ++ [x]).
Proof.
  intros N I. apply NoDup_app; [assumption | repeat constructor; simpl; tauto |].
  intros y Iy [<-|[]]. contradiction.
Qed.

Lemma wf_add_node n a G : wf G -> wf (add_node n a G).
Proof.
  intros [E N S D]. split.
  - now apply keys_ok_add_node.
  - fold (nodes (add_node n a G)). rewrite nodes_add_node.
    destruct (has_node G n) eqn:E1; [assumption|].
    apply has_node_false in E1. now apply NoDup_snoc.
  - intros u v. rewrite !neighbors_add_node by assumption. apply S.
  - intros u. rewrite neighbors_add_node by assumption. apply D.
Qed.

Lemma wf_touch n G : wf G -> wf (touch_node n G).
Proof.
  intros [E N S D]. split.
  - now apply keys_ok_touch.
  - fold (nodes (touch_node n G)). rewrite nodes_touch.
    destruct (has_node G n) eqn:E1; [assumption|].
    apply has_node_false in E1. now apply NoDup_snoc.
  - intros u v. rewrite !neighbors_touch by assumption. apply S.
  - intros u. rewrite neighbors_touch by assumption. apply D.
Qed.

Lemma wf_add_edge u v G : wf G -> wf (add_edge u v G).
Proof.
  intros W. pose proof W as [E N S D]. split.
  - now apply keys_ok_add_edge.
  - rewrite node_add_edge. now apply wf_touch, wf_touch.
  - intros a b. rewrite !neighbors_add_edge_In by assumption.
    intros [I|[[-> ->]|[-> ->]]]; auto.
  - intros a. apply neighbors_add_edge_NoDup; auto.
Qed.

(** An edge that is already there changes nothing, whichever way round
    it is given. *)
Lemma add_edge_present u v G :
  wf G -> In v (neighbors G u) -> add_edge u v G = G.
Proof.
  intros W I. pose proof W as [E N S D].
  assert (Iu : In u (nodes G)) by (eapply neighbors_In_node; eauto).
  assert (Iv : In v (nodes G)) by (eapply neighbors_In_node; eauto).
  unfold add_edge, touch_node.
  apply has_node_In in Iu as Hu. apply has_node_In in Iv as Hv.
  rewrite Hu. rewrite Hv. destruct G as [nd ad]. simpl in *. f_equal.
  assert (Gu : dict_get u ad = Some (neighbors (mkGraph nd ad) u)).
  { unfold neighbors. simpl. unfold nodes, keys_ok in *. simpl in *.
    rewrite <- E in Iu. apply dict_keys_get in Iu as [l ->]. reflexivity. }
  assert (Gv : dict_get v ad = Some (neighbors (mkGraph nd ad) v)).
  { unfold neighbors. simpl. unfold nodes, keys_ok in *. simpl in *.
    rewrite <- E in Iv. apply dict_keys_get in Iv as [l ->]. reflexivity. }
  rewrite (nbr_add_present _ _ I).
  rewrite (dict_set_same_value _ _ _ Gu). rewrite Gv.
  rewrite (nbr_add_present _ _ (S _ _ I)).
  now apply dict_set_same_value.
Qed.

(** *** Walks *)

Lemma walk_app G u v w (n m : nat) :
  walk G u v n -> walk G v w m -> walk G u w (n + m).
Proof.
  induction 1 as [u|u x v n Hux Hxv IH]; simpl; intros Hw; [assumption|].
  eapply walk_step; eauto.
Qed.

Lemma walk_snoc G u v w (n : nat) : walk G u v n -> adj G v w -> walk G u w (S n).
Proof.
  intros Huv Hvw. replace (S n) with (n + 1) by lia.
  eapply walk_app; [eassumption|]. eapply walk_step; [eassumption | constructor].
Qed.

Lemma walk_sym G u v (n : nat) :
  (forall a b, adj G a b -> adj G b a) -> walk G u v n -> walk G v u n.
Proof.
  intros S. induction 1 as [u|u x v n Hux Hxv IH]; [constructor|].
  eapply walk_snoc; eauto.
Qed.

Lemma reach_refl G u : reach G u u.
Proof. exists 0. constructor. Qed.

Lemma reach_trans G u v w : reach G u v -> reach G v w -> reach G u w.
Proof. intros [n Hn] [m Hm]. exists (n + m). eapply walk_app; eauto. Qed.

Lemma reach_step G u v w : reach G u v -> adj G v w -> reach G u w.
Proof. intros [n Hn] Hvw. exists (S n). eapply walk_snoc; eauto. Qed.

Lemma reach_sym G u v : wf G -> reach G u v -> reach G v u.
Proof.
  intros W [n Hn]. exists n. apply walk_sym; [|assumption].
  intros a b. apply (wf_sym W).
Qed.

(** A set of nodes that is closed under adjacency contains all that can be
    reached from it. *)
Lemma closed_reach G (S : K -> Prop) u v (n : nat) :
  (forall a b, S a -> adj G a b -> S b) -> walk G u v n -> S u -> S v.
Proof. intros C. induction 1; eauto. Qed.

(** *** Induced subgraphs *)

Lemma keys_filter {V} (p : K -> bool) (d : dict K V) :
  dict_keys (filter (fun '(k, _) => p k) d) = filter p (dict_keys d).
Proof.
  induction d as [|[k x] d IH]; simpl; [reflexivity|].
  destruct (p k); simpl; now rewrite IH.
Qed.

Lemma keys_map_values {V W} (f : K -> V -> W) (d : dict K V) :
  dict_keys (map (fun '(k, x) => (k, f k x)) d) = dict_keys d.
Proof.
  induction d as [|[k x] d IH]; simpl; [reflexivity|]. now rewrite IH.
Qed.

Lemma dict_get_filter {V} (p : K -> bool) (d : dict K V) k :
  dict_get k (filter (fun '(k, _) => p k) d) = if p k then dict_get k d else None.
Proof.
  induction d as [|[k' x] d IH]; simpl; [now destruct (p k)|].
  destruct (p k') eqn:E'; simpl; rewrite ?IH;
    destruct (keqb_dec k k') as [[-> ->]|[N ->]]; try reflexivity.
  - now rewrite E'.
  - now rewrite E'.
Qed.

Lemma dict_get_map_values {V W} (f : K -> V -> W) (d : dict K V) k :
  dict_get k (map (fun '(k, x) => (k, f k x)) d) = option_map (f k) (dict_get k d).
Proof.
  induction d as [|[k' x] d IH]; simpl; [reflexivity|].
  destruct (keqb_dec k k') as [[-> ->]|[N ->]]; [reflexivity | assumption].
Qed.

Lemma nodes_subgraph G ns :
  nodes (subgraph G ns) = filter (fun n => mem n ns) (nodes G).
Proof. unfold nodes, subgraph. simpl. apply keys_filter. Qed.

Lemma keys_ok_subgraph G ns : keys_ok G -> keys_ok (subgraph G ns).
Proof.
  unfold keys_ok, subgraph. simpl. intros E.
  rewrite (keys_map_values (fun _ nbrs => filter (fun w => mem w ns) nbrs)).
  rewrite !keys_filter. now rewrite E.
Qed.

Lemma neighbors_subgraph G ns u :
  neighbors (subgraph G ns) u =
  if mem u ns then filter (fun w => mem w ns) (neighbors G u) else [].
Proof.
  unfold neighbors, subgraph. simpl.
  rewrite (dict_get_map_values (fun _ nbrs => filter (fun w => mem w ns) nbrs)).
  rewrite dict_get_filter. destruct (mem u ns); [|reflexivity].
  now destruct (dict_get u (_adj G)).
Qed.

Lemma neighbors_subgraph_In G ns u v :
  In v (neighbors (subgraph G ns) u) <-> In v (neighbors G u) /\ In u ns /\ In v ns.
Proof.
  rewrite neighbors_subgraph. destruct (mem u ns) eqn:E.
  - apply mem_In in E. rewrite filter_In, mem_In. tauto.
  - apply mem_false in E. simpl. tauto.
Qed.

Lemma attrs_subgraph G ns u :
  dict_get u (_node (subgraph G ns)) = if mem u ns then dict_get u (_node G) else None.
Proof. unfold subgraph. simpl. apply dict_get_filter. Qed.

Lemma wf_subgraph G ns : wf G -> wf (subgraph G ns).
Proof.
  intros [E N S D]. split.
  - now apply keys_ok_subgraph.
  - fold (nodes (subgraph G ns)). rewrite nodes_subgraph. now apply NoDup_filter.
  - intros u v. rewrite !neighbors_subgraph_In. intros (I & Iu & Iv). auto.
  - intros u. rewrite neighbors_subgraph. destruct (mem u ns); [|constructor].
    apply NoDup_filter, D.
Qed.

Lemma degree_keys G : map fst (degree G) = dict_keys (_adj G).
Proof.
  unfold degree. rewrite map_map. apply map_ext. now intros [n nbrs].
Qed.

Lemma degree_nodes G : wf G -> map fst (degree G) = nodes G.
Proof. intros W. rewrite degree_keys. apply (wf_keys W). Qed.

Lemma degree_length G : wf G -> length (degree G) = number_of_nodes G.
Proof.
  intros W. unfold number_of_nodes.
  rewrite <- (length_map fst (degree G)), degree_nodes by assumption.
  apply length_map.
Qed.
End GraphFacts.

(** ** Breadth-first search *)

Section BfsFacts.
Context {K : Type} `{Key K} {A : Type} `{Attrs A}.
Context {P : Type} (ext : P -> nat -> K -> P).
Implicit Types (G : Graph K A) (u v w s : K) (found : dict K P).

(** The visits of the neighbours [ws] of one node append the same new
    entries to the dictionary and to the next frontier. *)
Lemma visit_fold level pv ws : forall found next,
  exists add,
    fold_left (visit ext level pv) ws (found, next) = (found ++ add, next ++ add)
    /\ NoDup (dict_keys add)
    /\ (forall w, In w (dict_keys add) -> In w ws /\ ~ In w (dict_keys found))
    /\ (forall w, In w ws -> In w (dict_keys (found ++ add))).
Proof.
  induction ws as [|w ws IH]; intros found next; simpl.
  - exists []. rewrite !app_nil_r. simpl.
    split; [reflexivity|]. split; [constructor|]. split; intros ? [].
  - destruct (dict_mem w found) eqn:E.
    + destruct (IH found next) as (add & E1 & N & I1 & I2).
      exists add. split; [exact E1|]. split; [exact N|]. split.
      * intros x Ix. apply I1 in Ix. tauto.
      * intros x [<-|Ix]; [|auto]. rewrite dict_keys_app. apply in_or_app.
        left. now apply dict_mem_In.
    + apply dict_mem_false in E.
      destruct (IH (found ++ [(w, ext pv level w)]) (next ++ [(w, ext pv level w)]))
        as (add & E1 & N & I1 & I2).
      exists ((w, ext pv level w) :: add).
      rewrite <- !app_assoc in E1. simpl in E1.
      split; [exact E1|]. split; [|split].
      * simpl. constructor; [|assumption]. intros I. apply I1 in I as [_ I].
        apply I. rewrite dict_keys_app. apply in_or_app. right. now left.
      * intros x [<-|I].
        -- split; [now left | assumption].
        -- apply I1 in I as [I I']. split; [now right|].
           intros I''. apply I'. rewrite dict_keys_app. apply in_or_app. now left.
      * intros x Ix. specialize (I2 x). rewrite <- app_assoc in I2. simpl in I2.
        destruct Ix as [<-|Ix]; [|auto].
        rewrite dict_keys_app. apply in_or_app. right. now left.
Qed.

(** One round of the search over the frontier [this]. *)
Lemma expand_fold G level this : forall found next,
  exists add,
    fold_left (expand ext G level) this (found, next) = (found ++ add, next ++ add)
    /\ NoDup (dict_keys add)
    /\ (forall w, In w (dict_keys add) ->
                  ~ In w (dict_keys found) /\
                  exists v, In v (dict_keys this) /\ In w (neighbors G v))
    /\ (forall v w, In v (dict_keys this) -> In w (neighbors G v) ->
                    In w (dict_keys (found ++ add))).
Proof.
  induction this as [|[v pv] this IH]; intros found next; simpl.
  - exists []. rewrite !app_nil_r. simpl.
    split; [reflexivity|]. split; [constructor|]. split; [intros ? []|].
    intros ? ? [].
  - unfold expand at 2. simpl.
    destruct (visit_fold level pv (neighbors G v) found next)
      as (add1 & E1 & N1 & I1 & J1).
    rewrite E1.
    destruct (IH (found ++ add1) (next ++ add1)) as (add2 & E2 & N2 & I2 & J2).
    exists (add1 ++ add2). rewrite <- !app_assoc in E2.
    split; [exact E2|]. split; [|split].
    + rewrite dict_keys_app. apply NoDup_app; [assumption | assumption |].
      intros x Ix Ix2. apply I2 in Ix2 as [Ix2 _]. apply Ix2.
      rewrite dict_keys_app. apply in_or_app. now right.
    + intros x Ix. rewrite dict_keys_app in Ix. apply in_app_or in Ix as [I|I].
      * apply I1 in I as [I I']. split; [assumption|].
        exists v. split; [now left | assumption].
      * apply I2 in I as [I (y & Iy & Iw)]. split.
        -- intros I'. apply I. rewrite dict_keys_app. apply in_or_app. now left.
        -- exists y. split; [now right | assumption].
    + intros x w [<-|Ix] Iw.
      * apply J1 in Iw. rewrite app_assoc, dict_keys_app. apply in_or_app. now left.
      * specialize (J2 x w Ix Iw). now rewrite <- app_assoc in J2.
Qed.

(** The search only appends to what it has found. *)
Lemma bfs_loop_prefix G fuel : forall found this level,
  exists add, bfs_loop ext fuel G found this level = found ++ add.
Proof.
  induction fuel as [|fuel IH]; intros found this level; simpl.
  - exists []. now rewrite app_nil_r.
  - destruct this as [|vp this]; [exists []; now rewrite app_nil_r|].
    destruct (expand_fold G (S level) (vp :: this) found []) as (add & E & _).
    rewrite E. destruct (IH (found ++ add) ([] ++ add) (S level)) as [add' ->].
    exists (add ++ add'). now rewrite app_assoc.
Qed.

Lemma bfs_head G s p0 : exists rest, bfs ext G s p0 = (s, p0) :: rest.
Proof.
  unfold bfs. destruct (bfs_loop_prefix G (number_of_nodes G) [(s, p0)] [(s, p0)] 0)
    as [add ->]. now exists add.
Qed.

(** Soundness: whatever is found can be reached from the source. *)
Lemma bfs_loop_sound G s fuel : forall found this level,
  (forall w, In w (dict_keys found) -> reach G s w) ->
  (forall w, In w (dict_keys this) -> In w (dict_keys found)) ->
  forall w, In w (dict_keys (bfs_loop ext fuel G found this level)) -> reach G s w.
Proof.
  induction fuel as [|fuel IH]; intros found this level R T; simpl; [assumption|].
  destruct this as [|vp this]; [assumption|].
  destruct (expand_fold G (S level) (vp :: this) found []) as (add & E & N & I & J).
  rewrite E. apply IH.
  - intros w Iw. rewrite dict_keys_app in Iw. apply in_app_or in Iw as [Iw|Iw]; [auto|].
    apply I in Iw as [_ (v & Iv & Ivw)]. eapply reach_step; [|exact Ivw]. auto.
  - intros w Iw. rewrite dict_keys_app. apply in_or_app. now right.
Qed.

Lemma bfs_sound G s p0 w : In w (dict_keys (bfs ext G s p0)) -> reach G s w.
Proof.
  apply bfs_loop_sound.
  - intros x [<-|[]]. apply reach_refl.
  - auto.
Qed.

(** In a well-formed graph the neighbours of a node are nodes. *)
Lemma wf_neighbor_node G u v : wf G -> In v (neighbors G u) -> In v (nodes G).
Proof.
  intros W I. apply (wf_sym W) in I.
  eapply neighbors_In_node; [apply (wf_keys W) | exact I].
Qed.

(** The search, given enough rounds, ends on a set of distinct nodes that is
    closed under adjacency. *)
Lemma bfs_loop_closed G fuel : forall found this level,
  wf G ->
  NoDup (dict_keys found) ->
  incl (dict_keys found) (nodes G) ->
  incl (dict_keys this) (dict_keys found) ->
  (forall u, In u (dict_keys found) -> ~ In u (dict_keys this) ->
             forall v, In v (neighbors G u) -> In v (dict_keys found)) ->
  length (nodes G) + (match this with [] => 0 | _ => 1 end) <= fuel + length found ->
  let r := bfs_loop ext fuel G found this level in
  NoDup (dict_keys r) /\ incl (dict_keys r) (nodes G) /\
  (forall u, In u (dict_keys r) -> forall v, In v (neighbors G u) -> In v (dict_keys r)).
Proof.
  induction fuel as [|fuel IH]; intros found this level W N I T C B.
  - simpl. pose proof (NoDup_incl_length N I) as L.
    unfold dict_keys in L. rewrite length_map in L.
    destruct this as [|vp this]; [|simpl in B; lia].
    split; [assumption|]. split; [assumption|]. intros u Iu. now apply C.
  - simpl. destruct this as [|vp this].
    + split; [assumption|]. split; [assumption|]. intros u Iu. now apply C.
    + destruct (expand_fold G (S level) (vp :: this) found [])
        as (add & E & Na & Ia & Ja).
      rewrite E. simpl app.
      assert (N' : NoDup (dict_keys (found ++ add))).
      { rewrite dict_keys_app. apply NoDup_app; [assumption | assumption |].
        intros x Ix Ix'. apply Ia in Ix' as [Ix' _]. contradiction. }
      assert (I' : incl (dict_keys (found ++ add)) (nodes G)).
      { intros x Ix. rewrite dict_keys_app in Ix. apply in_app_or in Ix as [Ix|Ix].
        - now apply I.
        - apply Ia in Ix as [_ (v & Iv & Ivx)]. eapply wf_neighbor_node; eauto. }
      apply IH; try assumption.
      * intros x Ix. rewrite dict_keys_app. apply in_or_app. now right.
      * intros u Iu Nu v Iv.
        rewrite dict_keys_app in Iu. apply in_app_or in Iu as [Iu|Iu]; [|contradiction].
        destruct (in_dec key_eq_dec u (dict_keys (vp :: this))) as [It|It].
        -- eapply Ja; eauto.
        -- rewrite dict_keys_app. apply in_or_app. left. eapply C; eauto.
      * rewrite length_app. simpl in B.
        pose proof (NoDup_incl_length N' I') as L.
        unfold dict_keys in L. rewrite length_map, length_app in L.
        destruct add; simpl in *; lia.
Qed.

Lemma bfs_closed G s p0 :
  wf G -> In s (nodes G) ->
  let r := bfs ext G s p0 in
  NoDup (dict_keys r) /\ incl (dict_keys r) (nodes G) /\
  (forall u, In u (dict_keys r) -> forall v, In v (neighbors G u) -> In v (dict_keys r)).
Proof.
  intros W I. apply bfs_loop_closed; try assumption.
  - simpl. constructor; [intros [] | constructor].
  - intros x [<-|[]]. assumption.
  - apply incl_refl.
  - intros u Iu Nu. contradiction.
  - unfold number_of_nodes, nodes, dict_keys. rewrite length_map. simpl. lia.
Qed.

Lemma bfs_source G s p0 : In s (dict_keys (bfs ext G s p0)).
Proof. destruct (bfs_head G s p0) as [rest ->]. now left. Qed.

(** Completeness: the search finds every node that can be reached. *)
Lemma bfs_complete G s p0 w :
  wf G -> In s (nodes G) -> reach G s w -> In w (dict_keys (bfs ext G s p0)).
Proof.
  intros W I [n Hn]. destruct (bfs_closed G s p0 W I) as (_ & _ & C).
  eapply (closed_reach G (fun x => In x (dict_keys (bfs ext G s p0)))); eauto.
  apply bfs_source.
Qed.

(** On a connected graph the search returns an entry for every node. *)
Lemma bfs_connected_length G s p0 :
  wf G -> connected G -> In s (nodes G) ->
  length (bfs ext G s p0) = number_of_nodes G.
Proof.
  intros W C I. destruct (bfs_closed G s p0 W I) as (N & Inc & _).
  assert (Inc' : incl (nodes G) (dict_keys (bfs ext G s p0))).
  { intros x Ix. apply bfs_complete; auto. }
  pose proof (NoDup_incl_length N Inc) as L1.
  pose proof (NoDup_incl_length (wf_nodup W) Inc') as L2.
  unfold number_of_nodes, nodes, dict_keys in *. rewrite !length_map in *. lia.
Qed.

(** *** What the search records *)

Lemma visit_fold_entries level pv ws : forall found next e,
  let r := fold_left (visit ext level pv) ws (found, next) in
  (In e (fst r) -> In e found \/ exists w, In w ws /\ e = (w, ext pv level w)) /\
  (In e (snd r) -> In e next \/ exists w, In w ws /\ e = (w, ext pv level w)).
Proof.
  induction ws as [|w ws IH]; intros found next e; cbn [fold_left].
  - simpl. auto.
  - unfold visit at 2 4. destruct (dict_mem w found).
    + destruct (IH found next e) as [I1 I2]. split; intros I.
      * apply I1 in I as [I|(x & Ix & E)]; [now left | right; exists x; split; [now right | assumption]].
      * apply I2 in I as [I|(x & Ix & E)]; [now left | right; exists x; split; [now right | assumption]].
    + destruct (IH (found ++ [(w, ext pv level w)]) (next ++ [(w, ext pv level w)]) e)
        as [I1 I2].
      split; intros I.
      * apply I1 in I as [I|(x & Ix & E)].
        -- apply in_app_or in I as [I|[<-|[]]]; [now left|].
           right. exists w. split; [now left | reflexivity].
        -- right. exists x. split; [now right | assumption].
      * apply I2 in I as [I|(x & Ix & E)].
        -- apply in_app_or in I as [I|[<-|[]]]; [now left|].
           right. exists w. split; [now left | reflexivity].
        -- right. exists x. split; [now right | assumption].
Qed.

Section Entries.
Variable G : Graph K A.
Variable Q : K -> P -> Prop.
Hypothesis Q_ext : forall v pv w level,
  Q v pv -> In w (neighbors G v) -> Q w (ext pv level w).

Lemma expand_fold_entries level this : forall found next,
  (forall e, In e this -> Q (fst e) (snd e)) ->
  (forall e, In e found -> Q (fst e) (snd e)) ->
  (forall e, In e next -> Q (fst e) (snd e)) ->
  let r := fold_left (expand ext G level) this (found, next) in
  (forall e, In e (fst r) -> Q (fst e) (snd e)) /\
  (forall e, In e (snd r) -> Q (fst e) (snd e)).
Proof.
  induction this as [|[v pv] this IH]; intros found next Ht Hf Hn; cbn [fold_left].
  - simpl. auto.
  - change (expand ext G level (found, next) (v, pv))
      with (fold_left (visit ext level pv) (neighbors G v) (found, next)).
    pose proof (visit_fold_entries level pv (neighbors G v) found next) as V.
    destruct (fold_left (visit ext level pv) (neighbors G v) (found, next)) as [f1 n1].
    apply IH.
    + intros e I. apply Ht. now right.
    + intros e I. destruct (V e) as [V1 _]. apply V1 in I as [I|(w & Iw & ->)]; [auto|].
      simpl. apply (Q_ext v pv w level); [|assumption].
      apply (Ht (v, pv)). now left.
    + intros e I. destruct (V e) as [_ V2]. apply V2 in I as [I|(w & Iw & ->)]; [auto|].
      simpl. apply (Q_ext v pv w level); [|assumption].
      apply (Ht (v, pv)). now left.
Qed.

Lemma bfs_loop_entries fuel : forall found this level,
  (forall e, In e this -> Q (fst e) (snd e)) ->
  (forall e, In e found -> Q (fst e) (snd e)) ->
  forall e, In e (bfs_loop ext fuel G found this level) -> Q (fst e) (snd e).
Proof.
  induction fuel as [|fuel IH]; intros found this level Ht Hf; [exact Hf|].
  cbn [bfs_loop]. destruct this as [|vp this]; [exact Hf|].
  pose proof (expand_fold_entries (S level) (vp :: this) found [] Ht Hf) as E.
  destruct (fold_left (expand ext G (S level)) (vp :: this) (found, [])) as [f1 n1].
  destruct E as [E1 E2]; [intros ? []|]. now apply IH.
Qed.

Lemma bfs_entries s p0 :
  Q s p0 -> forall e, In e (bfs ext G s p0) -> Q (fst e) (snd e).
Proof.
  intros Q0. apply bfs_loop_entries; intros e [<-|[]]; exact Q0.
Qed.
End Entries.
End BfsFacts.

(** ** Copies *)

Section CopyFacts.
Context {K : Type} `{Key K} {A : Type} `{Attrs A}.
Implicit Types (G g : Graph K A) (u v w n : K).

Lemma add_nodes_wf (nd : dict K A) : forall g,
  wf g -> wf (fold_left (fun g '(n, a) => add_node n a g) nd g).
Proof.
  induction nd as [|[n a] nd IH]; simpl; intros g W; [assumption|].
  apply IH. now apply wf_add_node.
Qed.

Lemma add_nodes_nodes (nd : dict K A) : forall g,
  NoDup (dict_keys nd) ->
  (forall k, In k (dict_keys nd) -> ~ In k (nodes g)) ->
  nodes (fold_left (fun g '(n, a) => add_node n a g) nd g) = nodes g ++ dict_keys nd.
Proof.
  induction nd as [|[n a] nd IH]; simpl; intros g N D; [now rewrite app_nil_r|].
  inversion N as [|? ? Nn Nd]; subst.
  assert (Hn : has_node g n = false) by (apply has_node_false, D; now left).
  rewrite IH.
  - rewrite nodes_add_node, Hn, <- app_assoc. reflexivity.
  - assumption.
  - intros k Ik. rewrite nodes_add_node, Hn. intros I.
    apply in_app_or in I as [I|[<-|[]]]; [|contradiction].
    apply (D k); [now right | assumption].
Qed.

Lemma add_nodes_neighbors (nd : dict K A) u : forall g,
  keys_ok g ->
  neighbors (fold_left (fun g '(n, a) => add_node n a g) nd g) u = neighbors g u.
Proof.
  induction nd as [|[n a] nd IH]; simpl; intros g E; [reflexivity|].
  rewrite IH by now apply keys_ok_add_node. now apply neighbors_add_node.
Qed.

Lemma add_edge_nodes_present u v g :
  In u (nodes g) -> In v (nodes g) -> _node (add_edge u v g) = _node g.
Proof.
  intros Iu Iv. rewrite node_add_edge. unfold touch_node.
  apply has_node_In in Iu, Iv. rewrite Iu. now rewrite Iv.
Qed.

Lemma add_edges_inner u (nbrs : list K) : forall g,
  wf g -> In u (nodes g) -> (forall v, In v nbrs -> In v (nodes g)) ->
  let g' := fold_left (fun g v => add_edge u v g) nbrs g in
  wf g' /\ _node g' = _node g /\
  forall n w, In w (neighbors g' n) <->
              In w (neighbors g n) \/ (n = u /\ In w nbrs) \/ (w = u /\ In n nbrs).
Proof.
  induction nbrs as [|v nbrs IH]; simpl; intros g W Iu Iv.
  - split; [assumption|]. split; [reflexivity|]. intros n w. tauto.
  - assert (E : _node (add_edge u v g) = _node g)
      by (apply add_edge_nodes_present; auto).
    destruct (IH (add_edge u v g)) as (W' & N' & B').
    + now apply wf_add_edge.
    + unfold nodes. now rewrite E.
    + intros x Ix. unfold nodes. rewrite E. auto.
    + split; [assumption|]. split; [congruence|].
      intros n w. rewrite B', neighbors_add_edge_In by apply (wf_keys W).
      intuition (subst; auto).
Qed.

Lemma add_edges_outer (ad : dict K (list K)) : forall g,
  wf g ->
  (forall u nbrs, In (u, nbrs) ad ->
                  In u (nodes g) /\ forall v, In v nbrs -> In v (nodes g)) ->
  let g' := fold_left (fun g '(u, nbrs) => fold_left (fun g v => add_edge u v g) nbrs g)
                      ad g in
  wf g' /\ _node g' = _node g /\
  forall n w, In w (neighbors g' n) <->
              In w (neighbors g n)
              \/ (exists nbrs, In (n, nbrs) ad /\ In w nbrs)
              \/ (exists nbrs, In (w, nbrs) ad /\ In n nbrs).
Proof.
  induction ad as [|[u nbrs] ad IH]; simpl; intros g W I.
  - split; [assumption|]. split; [reflexivity|]. intros n w.
    split; [auto | intros [?|[(? & [] & _)|(? & [] & _)]]; assumption].
  - destruct (I u nbrs (or_introl eq_refl)) as [Iu Iv].
    destruct (add_edges_inner u nbrs g W Iu Iv) as (W1 & N1 & B1).
    destruct (IH _ W1) as (W' & N' & B').
    + intros u' nbrs' I'. unfold nodes. rewrite N1. apply I. now right.
    + split; [assumption|]. split; [congruence|].
      intros n w. rewrite B', B1. split.
      * intros [[?|[[-> ?]|[-> ?]]]|[(l & ? & ?)|(l & ? & ?)]]; eauto 6.
      * intros [?|[(l & [[= <- <-]|?] & ?)|(l & [[= <- <-]|?] & ?)]]; eauto 8.
Qed.

(** A copy has the nodes of the original, in the same order, and the same
    adjacency. *)
Lemma copy_spec G :
  wf G ->
  wf (copy G) /\ nodes (copy G) = nodes G /\
  forall n w, In w (neighbors (copy G) n) <-> In w (neighbors G n).
Proof.
  intros W. unfold copy.
  set (G1 := fold_left (fun g '(n, a) => add_node n a g) (_node G) empty_graph).
  assert (W1 : wf G1) by apply add_nodes_wf, wf_empty.
  assert (N1 : nodes G1 = nodes G).
  { unfold G1. rewrite add_nodes_nodes; [reflexivity | apply (wf_nodup W) | auto]. }
  assert (B1 : forall u, neighbors G1 u = []).
  { intros u. unfold G1. rewrite add_nodes_neighbors; reflexivity. }
  assert (Hget : forall u nbrs, In (u, nbrs) (_adj G) -> neighbors G u = nbrs).
  { intros u nbrs I. unfold neighbors. rewrite (dict_get_In u nbrs); [reflexivity| |assumption].
    rewrite (wf_keys W). apply (wf_nodup W). }
  destruct (add_edges_outer (_adj G) G1 W1) as (W' & N' & B').
  - intros u nbrs I. rewrite N1. pose proof (Hget u nbrs I) as E. split.
    + unfold nodes. rewrite <- (wf_keys W). apply (in_map fst) in I. exact I.
    + intros v Iv. rewrite <- E in Iv. eapply wf_neighbor_node; eauto.
  - split; [assumption|]. split; [unfold nodes in *; congruence|].
    intros n w. rewrite B', B1. split.
    + intros [[]|[(l & I & Iw)|(l & I & In')]].
      * now rewrite (Hget _ _ I).
      * apply (wf_sym W). now rewrite (Hget _ _ I).
    + intros I. right. left. exists (neighbors G n). split; [|assumption].
      unfold neighbors in *. destruct (dict_get n (_adj G)) as [l|] eqn:E; [|destruct I].
      now apply dict_get_Some_In.
Qed.
End CopyFacts.

(** ** Two searches that record different things visit alike *)

Section BfsSim.
Context {K : Type} `{Key K} {A : Type} `{Attrs A}.
Context {P1 P2 : Type} (ext1 : P1 -> nat -> K -> P1) (ext2 : P2 -> nat -> K -> P2).
Context (R : nat -> P1 -> P2 -> Prop).
Hypothesis R_ext : forall L p1 p2 w,
  R L p1 p2 -> R (S L) (ext1 p1 (S L) w) (ext2 p2 (S L) w).

Let Rany (p1 : P1) (p2 : P2) : Prop := exists L, R L p1 p2.

Lemma sim_keys (Q : P1 -> P2 -> Prop) (d1 : dict K P1) (d2 : dict K P2) : sim Q d1 d2 -> dict_keys d1 = dict_keys d2.
Proof.
  induction 1 as [|[k1 x1] [k2 x2] d1 d2 [E _] F IH]; simpl in *; [reflexivity|].
  now rewrite E, IH.
Qed.

Lemma sim_mem (Q : P1 -> P2 -> Prop) (d1 : dict K P1) (d2 : dict K P2) k :
  sim Q d1 d2 -> dict_mem k d1 = dict_mem k d2.
Proof. intros S. rewrite !dict_mem_mem. now rewrite (sim_keys _ _ _ S). Qed.

Lemma sim_get (Q : P1 -> P2 -> Prop) (d1 : dict K P1) (d2 : dict K P2) k x1 :
  sim Q d1 d2 -> dict_get k d1 = Some x1 ->
  exists x2, dict_get k d2 = Some x2 /\ Q x1 x2.
Proof.
  induction 1 as [|[k1 y1] [k2 y2] d1 d2 [E Hq] F IH]; simpl in *; [discriminate|].
  subst k2. destruct (keqb k k1); [|assumption].
  intros [= ->]. eauto.
Qed.

Lemma sim_length (Q : P1 -> P2 -> Prop) (d1 : dict K P1) (d2 : dict K P2) :
  sim Q d1 d2 -> length d1 = length d2.
Proof. apply Forall2_length. Qed.

Lemma visit_sim L pv1 pv2 f1 f2 n1 n2 w :
  R L pv1 pv2 -> sim Rany f1 f2 -> sim (R (S L)) n1 n2 ->
  sim Rany (fst (visit ext1 (S L) pv1 (f1, n1) w)) (fst (visit ext2 (S L) pv2 (f2, n2) w))
  /\ sim (R (S L)) (snd (visit ext1 (S L) pv1 (f1, n1) w))
                   (snd (visit ext2 (S L) pv2 (f2, n2) w)).
Proof.
  intros Hp Sf Sn. unfold visit. rewrite (sim_mem _ _ _ w Sf).
  destruct (dict_mem w f2); simpl; [now split|].
  specialize (R_ext L pv1 pv2 w Hp).
  split; apply Forall2_app; try assumption; repeat constructor; simpl; auto.
  now exists (S L).
Qed.

Lemma visit_fold_sim L pv1 pv2 ws : forall f1 f2 n1 n2,
  R L pv1 pv2 -> sim Rany f1 f2 -> sim (R (S L)) n1 n2 ->
  let r1 := fold_left (visit ext1 (S L) pv1) ws (f1, n1) in
  let r2 := fold_left (visit ext2 (S L) pv2) ws (f2, n2) in
  sim Rany (fst r1) (fst r2) /\ sim (R (S L)) (snd r1) (snd r2).
Proof.
  induction ws as [|w ws IH]; intros f1 f2 n1 n2 Hp Sf Sn;
    [simpl; now split | cbn [fold_left]].
  destruct (visit_sim L pv1 pv2 f1 f2 n1 n2 w Hp Sf Sn) as [Sf' Sn'].
  destruct (visit ext1 (S L) pv1 (f1, n1) w) as [f1' n1'].
  destruct (visit ext2 (S L) pv2 (f2, n2) w) as [f2' n2'].
  now apply IH.
Qed.

Lemma expand_fold_sim (G : Graph K A) L t1 t2 : forall f1 f2 n1 n2,
  sim (R L) t1 t2 -> sim Rany f1 f2 -> sim (R (S L)) n1 n2 ->
  let r1 := fold_left (expand ext1 G (S L)) t1 (f1, n1) in
  let r2 := fold_left (expand ext2 G (S L)) t2 (f2, n2) in
  sim Rany (fst r1) (fst r2) /\ sim (R (S L)) (snd r1) (snd r2).
Proof.
  intros f1 f2 n1 n2 St. revert f1 f2 n1 n2.
  induction St as [|[v1 p1] [v2 p2] t1 t2 [E Hp] St IH]; intros f1 f2 n1 n2 Sf Sn;
    [simpl; now split | cbn [fold_left]].
  simpl in E, Hp. subst v2.
  change (expand ext1 G (S L) (f1, n1) (v1, p1))
    with (fold_left (visit ext1 (S L) p1) (neighbors G v1) (f1, n1)).
  change (expand ext2 G (S L) (f2, n2) (v1, p2))
    with (fold_left (visit ext2 (S L) p2) (neighbors G v1) (f2, n2)).
  destruct (visit_fold_sim L p1 p2 (neighbors G v1) f1 f2 n1 n2 Hp Sf Sn) as [Sf' Sn'].
  destruct (fold_left (visit ext1 (S L) p1) (neighbors G v1) (f1, n1)) as [f1' n1'].
  destruct (fold_left (visit ext2 (S L) p2) (neighbors G v1) (f2, n2)) as [f2' n2'].
  now apply IH.
Qed.

Lemma bfs_loop_sim (G : Graph K A) fuel : forall f1 f2 t1 t2 L,
  sim Rany f1 f2 -> sim (R L) t1 t2 ->
  sim Rany (bfs_loop ext1 fuel G f1 t1 L) (bfs_loop ext2 fuel G f2 t2 L).
Proof.
  induction fuel as [|fuel IH]; intros f1 f2 t1 t2 L Sf St; [assumption|].
  cbn [bfs_loop]. destruct St as [|a b t1 t2 Hab St]; [assumption|].
  assert (St' : sim (R L) (a :: t1) (b :: t2)) by now constructor.
  destruct (expand_fold_sim G L (a :: t1) (b :: t2) f1 f2 [] [] St' Sf (Forall2_nil _))
    as [Sf' Sn'].
  match goal with
  | |- sim _ (match ?X1 with _ => _ end) (match ?X2 with _ => _ end) =>
      assert (Sf2 : sim Rany (fst X1) (fst X2)) by exact Sf';
      assert (Sn2 : sim (R (S L)) (snd X1) (snd X2)) by exact Sn';
      destruct X1 as [f1' n1'], X2 as [f2' n2']
  end.
  now apply IH.
Qed.

Lemma bfs_sim (G : Graph K A) s p1 p2 :
  R 0 p1 p2 -> sim Rany (bfs ext1 G s p1) (bfs ext2 G s p2).
Proof.
  intros Hp. apply bfs_loop_sim; repeat constructor; simpl; auto. now exists 0.
Qed.
End BfsSim.

(** ** Levels are distances *)

Section BfsDistance.
Context {K : Type} `{Key K} {A : Type} `{Attrs A}.
Variable G : Graph K A.
Variable s : K.

Let lenext : nat -> nat -> K -> nat := fun _ l _ => l.

Lemma walk_snoc_inv (n : nat) : forall u w,
  walk G u w (S n) -> exists v, walk G u v n /\ adj G v w.
Proof.
  induction n as [|n IH]; intros u w Hw.
  - inversion Hw as [|? x ? ? Aux Hx]; subst. inversion Hx; subst.
    exists u. split; [constructor | assumption].
  - inversion Hw as [|? x ? ? Aux Hx]; subst.
    destruct (IH x w Hx) as (v & Hv & Avw).
    exists v. split; [eapply walk_step; eauto | assumption].
Qed.

Lemma walk_zero u w : walk G u w 0 -> u = w.
Proof. now inversion 1. Qed.

Lemma expand_fold_level level this : forall found next e,
  In e (fst (fold_left (expand lenext G level) this (found, next))) ->
  In e found \/ snd e = level.
Proof.
  induction this as [|[v pv] this IH]; intros found next e; cbn [fold_left].
  - simpl. auto.
  - change (expand lenext G level (found, next) (v, pv))
      with (fold_left (visit lenext level pv) (neighbors G v) (found, next)).
    pose proof (visit_fold_entries lenext level pv (neighbors G v) found next) as V.
    destruct (fold_left (visit lenext level pv) (neighbors G v) (found, next)) as [f1 n1].
    intros I. apply IH in I as [I|I]; [|now right].
    destruct (V e) as [V1 _]. apply V1 in I as [I|(w & _ & ->)]; [now left | now right].
Qed.

(** The invariant of the search at level [L]: what is found is found at its
    distance, the frontier is what lies at distance [L], and nothing within
    distance [L] is missing. *)
Lemma bfs_loop_dist fuel : forall found this L,
  (forall w l, In (w, l) found ->
               walk G s w l /\ (forall n, walk G s w n -> l <= n) /\ l <= L) ->
  (forall e, In e this -> In e found /\ snd e = L) ->
  (forall w, In (w, L) found -> In w (dict_keys this)) ->
  (forall w n, walk G s w n -> n <= L -> In w (dict_keys found)) ->
  forall w l, In (w, l) (bfs_loop lenext fuel G found this L) -> dist G s w l.
Proof.
  induction fuel as [|fuel IH]; intros found this L Ha Hb1 Hb2 Hc.
  - simpl. intros w l I. destruct (Ha w l I) as (W1 & W2 & _). now split.
  - cbn [bfs_loop]. destruct this as [|vp this].
    + intros w l I. destruct (Ha w l I) as (W1 & W2 & _). now split.
    + destruct (expand_fold lenext G (S L) (vp :: this) found [])
        as (add & E & Na & Ia & Ja).
      pose proof (expand_fold_level (S L) (vp :: this) found []) as Lv.
      rewrite E in *. simpl app in *. cbn [fst] in Lv.
      assert (Hadd : forall e, In e add -> snd e = S L /\ ~ In (fst e) (dict_keys found)).
      { intros e Ie. assert (Ik : In (fst e) (dict_keys add)) by now apply in_map.
        destruct (Ia _ Ik) as [Nf _]. split; [|assumption].
        destruct (Lv e) as [If|El]; [apply in_or_app; now right | | assumption].
        exfalso. apply Nf. now apply in_map. }
      apply IH.
      * intros w l I. apply in_app_or in I as [I|I].
        -- destruct (Ha w l I) as (W1 & W2 & W3). repeat split; auto.
        -- destruct (Hadd _ I) as [El Nf]. simpl in El, Nf. subst l.
           assert (Ik : In w (dict_keys add)) by (apply (in_map fst) in I; exact I).
           destruct (Ia _ Ik) as [_ (v & Iv & Avw)].
           apply in_map_iff in Iv as ([v' pv] & Ev & Iv). simpl in Ev. subst v'.
           destruct (Hb1 _ Iv) as [If Ep]. simpl in Ep. subst pv.
           destruct (Ha v L If) as (W1 & _ & _).
           split; [eapply walk_snoc; eauto|]. split; [|lia].
           intros n Hn. destruct (le_lt_dec n L) as [Le|Lt]; [|lia].
           exfalso. apply Nf. eapply Hc; eauto.
      * intros e Ie. split; [apply in_or_app; now right | now apply Hadd].
      * intros w I. apply in_app_or in I as [I|I].
        -- destruct (Ha w (S L) I) as (_ & _ & W3). lia.
        -- apply (in_map fst) in I. exact I.
      * intros w n Hn Ln. destruct (le_lt_dec n L) as [Le|Lt].
        -- rewrite dict_keys_app. apply in_or_app. left. eapply Hc; eauto.
        -- assert (n = S L) by lia. subst n.
           destruct (walk_snoc_inv L s w Hn) as (u & Hu & Auw).
           assert (Iu : In u (dict_keys found)) by (eapply Hc; eauto).
           apply in_map_iff in Iu as ([u' lu] & Eu & Iu). simpl in Eu. subst u'.
           destruct (Ha u lu Iu) as (W1 & W2 & W3).
           destruct (Nat.eq_dec lu L) as [->|Nl].
           ++ eapply Ja; [|exact Auw]. now apply Hb2.
           ++ rewrite dict_keys_app. apply in_or_app. left.
              apply (Hc w (S lu)); [eapply walk_snoc; eauto | lia].
Qed.

(** [nx.single_source_shortest_path_length] answers with distances. *)
Lemma bfs_lengths_dist w l : In (w, l) (bfs lenext G s 0) -> dist G s w l.
Proof.
  apply bfs_loop_dist.
  - intros x l' [[= <- <-]|[]]. split; [constructor|]. split; lia.
  - intros e [<-|[]]. split; [now left | reflexivity].
  - intros x [[= <-]|[]]. now left.
  - intros x n Hn Ln. assert (n = 0) by lia. subst n.
    apply walk_zero in Hn. subst x. now left.
Qed.
End BfsDistance.

(** ** Eccentricity *)

Lemma max_fold l : forall x,
  let r := fold_left Nat.max l x in
  (r = x \/ In r l) /\ x <= r /\ forall y, In y l -> y <= r.
Proof.
  induction l as [|a l IH]; intros x; simpl.
  - split; [now left|]. split; [lia | intros ? []].
  - destruct (IH (Nat.max x a)) as (I & L & M).
    split; [|split; [lia|]].
    + destruct I as [I|I]; [|auto]. rewrite I.
      destruct (Nat.max_spec x a) as [[_ ->]|[_ ->]]; auto.
    + intros y [<-|Iy]; [lia | auto].
Qed.

Lemma max_nat_spec l m :
  max_nat l = inr m -> In m l /\ forall y, In y l -> y <= m.
Proof.
  destruct l as [|x l]; [discriminate|]. simpl. intros [= <-].
  destruct (max_fold l x) as (I & L & M). split.
  - destruct I as [-> |I]; auto.
  - intros y [<-|Iy]; auto.
Qed.

Lemma max_nat_nonempty l : l <> [] -> exists m, max_nat l = inr m.
Proof. destruct l; [congruence | simpl; eauto]. Qed.

Lemma rmap_Forall2 {X Y} (f : X -> result Y) l :
  (forall a, In a l -> exists b, f a = inr b) ->
  exists bs, rmap f l = inr bs /\ Forall2 (fun a b => f a = inr b) l bs.
Proof.
  induction l as [|a l IH]; intros E; simpl.
  - exists []. split; [reflexivity | constructor].
  - destruct (E a (or_introl eq_refl)) as [b Eb].
    destruct IH as (bs & -> & F); [intros; apply E; now right|].
    exists (b :: bs). rewrite Eb. simpl. split; [reflexivity | now constructor].
Qed.

Section EccFacts.
Context {K : Type} `{Key K} {A : Type} `{Attrs A}.
Implicit Types (G : Graph K A) (u v w n : K).

(** On a connected graph [nx.eccentricity] raises nothing: every node gets
    the largest of its distances. *)
Lemma eccentricity_connected G :
  wf G -> connected G ->
  exists e,
    eccentricity G = inr e /\
    Forall2 (fun n ne =>
               fst ne = n /\
               max_nat (dict_values (bfs (fun _ l _ => l) G n 0)) = inr (snd ne))
            (nodes G) e.
Proof.
  intros W C. unfold eccentricity.
  destruct (rmap_Forall2
              (fun n => rbind (single_source_shortest_path_length G n) (fun lengths =>
                 if length lengths =? number_of_nodes G then
                   rbind (max_nat (dict_values lengths)) (fun e => inr (n, e))
                 else inl NetworkXError)) (nodes G)) as (e & E & F).
  - intros n I. unfold single_source_shortest_path_length.
    apply has_node_In in I as Hn. rewrite Hn. simpl.
    rewrite (bfs_connected_length _ G n 0 W C I), Nat.eqb_refl.
    destruct (bfs_head (fun _ l _ => l) G n 0) as [rest Er].
    rewrite Er. simpl. eauto.
  - exists e. split; [exact E|].
    eapply Forall2_impl; [|exact F]. intros n [n' ev]. simpl.
    unfold single_source_shortest_path_length.
    destruct (has_node G n); [|discriminate]. simpl.
    destruct (_ =? _); [|discriminate].
    destruct (max_nat _) as [?|m]; [discriminate|]. simpl. now intros [= <- <-].
Qed.

Lemma Forall2_In_r {X Y} (Q : X -> Y -> Prop) l1 l2 y :
  Forall2 Q l1 l2 -> In y l2 -> exists x, In x l1 /\ Q x y.
Proof.
  induction 1 as [|a b l1 l2 Hab F IH]; intros I; [destruct I|].
  destruct I as [<-|I]; [exists a; split; [now left | assumption]|].
  destruct (IH I) as (x & Ix & Hx). exists x. split; [now right | assumption].
Qed.

Lemma Forall2_In_l {X Y} (Q : X -> Y -> Prop) l1 l2 x :
  Forall2 Q l1 l2 -> In x l1 -> exists y, In y l2 /\ Q x y.
Proof.
  induction 1 as [|a b l1 l2 Hab F IH]; intros I; [destruct I|].
  destruct I as [<-|I]; [exists b; split; [now left | assumption]|].
  destruct (IH I) as (y & Iy & Hy). exists y. split; [now right | assumption].
Qed.

Lemma filter_head {X} (p : X -> bool) l x rest :
  filter p l = x :: rest -> In x l /\ p x = true.
Proof.
  intros E. assert (I : In x (filter p l)) by (rewrite E; now left).
  now apply filter_In in I.
Qed.

Lemma filter_nonempty {X} (p : X -> bool) l x :
  In x l -> p x = true -> filter p l <> [].
Proof.
  intros I E F. assert (I' : In x (filter p l)) by (apply filter_In; auto).
  rewrite F in I'. destruct I'.
Qed.

(** The path that the search records for a node has as many edges as the
    level at which the node is found. *)
Lemma bfs_lengths_paths G s :
  sim (fun (l : nat) (p : list K) => length p = S l)
      (bfs (fun _ l _ => l) G s 0) (bfs (fun p _ w => p ++ [w]) G s [s]).
Proof.
  assert (R_ext : forall (L l : nat) (p : list K) (w : K),
             l = L /\ length p = S L ->
             S L = S L /\ length (p ++ [w]) = S (S L)).
  { intros L l p w [_ Lp]. split; [reflexivity|].
    rewrite length_app, Lp. simpl. lia. }
  pose proof (bfs_sim (fun _ l _ => l) (fun p _ w => p ++ [w])
                      (fun L l p => l = L /\ length p = S L) R_ext G s 0 [s]
                      (conj eq_refl eq_refl)) as Sim.
  eapply Forall2_impl; [|exact Sim].
  intros [k1 l] [k2 p] [E (L & -> & Lp)]. simpl in *. auto.
Qed.

Lemma is_path_snoc G (p : list K) d0 v w :
  is_path G p -> p <> [] -> last p d0 = v -> adj G v w -> is_path G (p ++ [w]).
Proof.
  induction p as [|a p IH]; [congruence|]. intros P _ L Avw.
  destruct p as [|b p].
  - simpl in *. subst a. auto.
  - change ((a :: b :: p) ++ [w]) with (a :: (b :: p) ++ [w]).
    destruct P as [Aab P]. split; [exact Aab|].
    apply IH; [assumption | discriminate | exact L | assumption].
Qed.

(** The path that the search records for a node is a path of the graph,
    from the source to that node. *)
Lemma bfs_paths_valid G s w (p : list K) :
  In (w, p) (bfs (fun p _ w => p ++ [w]) G s [s]) ->
  is_path G p /\ hd_error p = Some s /\ last p s = w.
Proof.
  intros I.
  apply (bfs_entries (fun p _ w => p ++ [w]) G
           (fun w p => is_path G p /\ hd_error p = Some s /\ last p s = w))
    with (e := (w, p)) (s := s) (p0 := [s]); [| simpl; auto | exact I].
  clear. intros v pv w _ (P & Hd & L) Avw.
  assert (Ne : pv <> []) by (intros ->; discriminate).
  split; [|split].
  - now apply is_path_snoc with s v.
  - destruct pv; [congruence | exact Hd].
  - apply last_last.
Qed.

(** The diameter is attained: the first periphery node has a node at that
    distance, and the path found to it has that many edges. *)
Lemma diameter_path G :
  wf G -> connected G -> nodes G <> [] ->
  exists d p0 rest lengths p1 rest' path,
    diameter G = inr d /\
    periphery G = inr (p0 :: rest) /\
    single_source_shortest_path_length G p0 = inr lengths /\
    dict_keys (filter (fun '(_, dist) => dist =? d) lengths) = p1 :: rest' /\
    shortest_path G p0 p1 = inr path /\
    length path = S d /\
    is_path G path /\ hd_error path = Some p0 /\ last path p0 = p1 /\
    dist G p0 p1 d /\
    (forall u v l, In u (nodes G) -> In v (nodes G) -> dist G u v l -> l <= d).
Proof.
  intros W C N. destruct (eccentricity_connected G W C) as (e & E & F).
  unfold diameter, periphery. rewrite E. simpl.
  assert (Ne : dict_values e <> []).
  { apply Forall2_length in F. unfold dict_values.
    destruct e; [destruct (nodes G); [congruence | discriminate] | discriminate]. }
  destruct (max_nat_nonempty _ Ne) as [d Ed]. rewrite Ed. simpl.
  destruct (max_nat_spec _ _ Ed) as [Id _].
  apply in_map_iff in Id as ([n0 ev0] & E0 & I0). simpl in E0. subst ev0.
  destruct (filter (fun '(_, ev) => ev =? d) e) as [|[p0 ev] frest] eqn:Ef.
  { exfalso. eapply (filter_nonempty _ e (n0, d)); eauto. simpl. apply Nat.eqb_refl. }
  apply filter_head in Ef as [Ip0 Ev]. apply Nat.eqb_eq in Ev. subst ev.
  destruct (Forall2_In_r _ _ _ _ F Ip0) as (n & In' & En & Em). simpl in En, Em. subst n.
  set (lengths := bfs (fun _ l _ => l) G p0 0) in *.
  assert (Hp0 : has_node G p0 = true) by now apply has_node_In.
  destruct (max_nat_spec _ _ Em) as [Il _].
  apply in_map_iff in Il as ([q dq] & Eq & Iq). simpl in Eq. subst dq.
  destruct (filter (fun '(_, dist) => dist =? d) lengths) as [|[p1 d1] crest] eqn:Ec.
  { exfalso. eapply (filter_nonempty _ lengths (q, d)); eauto. simpl. apply Nat.eqb_refl. }
  pose proof (filter_head _ _ _ _ Ec) as [Ip1 E1]. apply Nat.eqb_eq in E1. subst d1.
  destruct (bfs_closed (fun _ l _ => l) G p0 0 W In') as (Nl & Incl & _).
  fold lengths in Nl, Incl.
  assert (Hp1 : has_node G p1 = true).
  { apply has_node_In, Incl. now apply (in_map fst) in Ip1. }
  assert (G1 : dict_get p1 lengths = Some d) by now apply dict_get_In.
  destruct (sim_get _ _ _ p1 d (bfs_lengths_paths G p0) G1) as (path & Gp & Lp).
  exists d, p0, (dict_keys frest), lengths, p1, (dict_keys crest), path.
  split; [reflexivity|]. split; [reflexivity|].
  unfold single_source_shortest_path_length, shortest_path, single_source_shortest_path.
  rewrite Hp0, Hp1. simpl. rewrite Gp. fold lengths. rewrite Ec.
  destruct (bfs_paths_valid G p0 p1 path (dict_get_Some_In _ _ _ Gp)) as (V1 & V2 & V3).
  split; [reflexivity|]. split; [reflexivity|]. split; [reflexivity|].
  split; [assumption|]. split; [assumption|]. split; [assumption|].
  split; [assumption|]. split; [now apply bfs_lengths_dist|].
  intros u v l Iu Iv [Wl Ml].
  destruct (Forall2_In_l _ _ _ _ F Iu) as ([u' eu] & Ie & Eu & Emu). simpl in Eu, Emu. subst u'.
  assert (Ieu : eu <= d).
  { destruct (max_nat_spec _ _ Ed) as [_ Md]. apply Md.
    apply in_map_iff. exists (u, eu). auto. }
  assert (Iv' : In v (dict_keys (bfs (fun _ l _ => l) G u 0))).
  { apply bfs_complete; [assumption | assumption | now exists l]. }
  apply in_map_iff in Iv' as ([v' l'] & Ev & Iv'). simpl in Ev. subst v'.
  destruct (bfs_lengths_dist G u v l' Iv') as [Wl' Ml'].
  assert (l' <= eu).
  { destruct (max_nat_spec _ _ Emu) as [_ Mu]. apply Mu.
    apply in_map_iff. exists (v, l'). auto. }
  specialize (Ml l' Wl'). lia.
Qed.
End EccFacts.

(** ** Connected components *)

Section ComponentFacts.
Context {K : Type} `{Key K} {A : Type} `{Attrs A}.
Implicit Types (G : Graph K A) (u v w s : K).

Lemma plain_bfs_head G v : exists rest, _plain_bfs G v = v :: rest.
Proof.
  unfold _plain_bfs. destruct (bfs_head (fun _ _ _ => tt) G v tt) as [rest ->].
  now exists (dict_keys rest).
Qed.

Lemma plain_bfs_source G v : In v (_plain_bfs G v).
Proof. destruct (plain_bfs_head G v) as [rest ->]. now left. Qed.

Lemma cc_fold G ns : forall seen comps,
  exists new,
    snd (fold_left
           (fun '(seen, comps) v =>
              if mem v seen then (seen, comps)
              else let c := _plain_bfs G v in (seen ++ c, comps ++ [c]))
           ns (seen, comps)) = comps ++ new
    /\ forall c, In c new -> exists v, In v ns /\ c = _plain_bfs G v.
Proof.
  induction ns as [|v ns IH]; intros seen comps; simpl.
  - exists []. split; [now rewrite app_nil_r | intros ? []].
  - destruct (mem v seen).
    + destruct (IH seen comps) as (new & E & S). exists new. split; [exact E|].
      intros c Ic. destruct (S c Ic) as (x & Ix & ->). eauto.
    + destruct (IH (seen ++ _plain_bfs G v) (comps ++ [_plain_bfs G v]))
        as (new & E & S).
      exists (_plain_bfs G v :: new). rewrite <- app_assoc in E. split; [exact E|].
      intros c [<-|Ic]; [eauto|]. destruct (S c Ic) as (x & Ix & ->). eauto.
Qed.

Lemma components_source G c :
  In c (connected_components G) -> exists v, In v (nodes G) /\ c = _plain_bfs G v.
Proof.
  intros I. destruct (cc_fold G (nodes G) [] []) as (new & E & S).
  apply S. simpl in E. rewrite <- E. exact I.
Qed.

Lemma components_nonempty G : nodes G <> [] -> connected_components G <> [].
Proof.
  unfold connected_components. destruct (nodes G) as [|v ns]; [congruence|].
  intros _ E'. simpl in E'.
  destruct (cc_fold G ns ([] ++ _plain_bfs G v) ([] ++ [_plain_bfs G v])) as (new & E & _).
  simpl in E. assert (E2 : _plain_bfs G v :: new = []) by (rewrite <- E; exact E').
  discriminate.
Qed.

Lemma max_by_len_fold {X} (l : list (list X)) : forall best,
  let r := fold_left (fun best c => if length best <? length c then c else best) l best in
  (r = best \/ In r l) /\ length best <= length r /\
  forall c, In c l -> length c <= length r.
Proof.
  induction l as [|c l IH]; intros best; simpl.
  - split; [now left|]. split; [lia | intros ? []].
  - destruct (length best <? length c) eqn:E.
    + apply Nat.ltb_lt in E. destruct (IH c) as (I & L & M).
      split; [destruct I; auto|]. split; [lia|].
      intros c' [<-|Ic']; auto.
    + apply Nat.ltb_ge in E. destruct (IH best) as (I & L & M).
      split; [destruct I; auto|]. split; [lia|].
      intros c' [<-|Ic']; [lia | auto].
Qed.

Lemma max_by_len_In {X} (l : list (list X)) :
  l <> [] ->
  exists c, max_by_len l = inr c /\ In c l /\ forall c', In c' l -> length c' <= length c.
Proof.
  destruct l as [|x l]; [congruence|]. intros _. simpl.
  destruct (max_by_len_fold l x) as (I & L & M).
  eexists. split; [reflexivity|]. split.
  - destruct I as [-> |I]; auto.
  - intros c' [<-|Ic']; auto.
Qed.
End ComponentFacts.

(** ** Components are connected *)

Section ConnectedFacts.
Context {K : Type} `{Key K} {A : Type} `{Attrs A}.
Implicit Types (G : Graph K A) (u v w x : K).

Lemma walk_transfer G G' u x (n : nat) :
  (forall a b, adj G a b -> adj G' a b) -> walk G u x n -> walk G' u x n.
Proof.
  intros T. induction 1 as [u|u y x n Huy Hyx IH]; [constructor|].
  eapply walk_step; eauto.
Qed.

Lemma component_connected G v :
  wf G -> In v (nodes G) -> connected (subgraph G (_plain_bfs G v)).
Proof.
  intros W I. set (C := _plain_bfs G v). set (S := subgraph G C).
  destruct (bfs_closed (fun _ _ _ => tt) G v tt W I) as (_ & _ & Cl).
  fold (_plain_bfs G v) in Cl. fold C in Cl.
  assert (Wk : forall (n : nat) u x, walk G u x n -> In u C -> walk S u x n).
  { intros n u x Hw. induction Hw as [u|u y x n Huy Hyx IH]; intros Iu; [constructor|].
    assert (Iy : In y C) by (eapply Cl; eauto).
    eapply walk_step; [|now apply IH].
    apply neighbors_subgraph_In. auto. }
  assert (Iv : In v C) by apply plain_bfs_source.
  assert (WS : wf S) by now apply wf_subgraph.
  assert (Rv : forall a, In a (nodes S) -> reach S v a).
  { intros a Ia. unfold S in Ia. rewrite nodes_subgraph in Ia.
    apply filter_In in Ia as [_ Ia]. apply mem_In in Ia.
    destruct (bfs_sound (fun _ _ _ => tt) G v tt a Ia) as [n Hn].
    exists n. now apply Wk. }
  intros a b Ia Ib. eapply reach_trans; [apply reach_sym; [assumption|]|]; eauto.
Qed.

Lemma connected_copy G : wf G -> connected G -> connected (copy G).
Proof.
  intros W C. destruct (copy_spec G W) as (_ & N & B).
  intros a b Ia Ib. rewrite N in Ia, Ib. destruct (C a b Ia Ib) as [n Hn].
  exists n. eapply walk_transfer; [|exact Hn]. intros x y. apply B.
Qed.
End ConnectedFacts.

End NxFacts.

(* ================================================================== *)
(** * The air-traffic network: loading *)
(* ================================================================== *)

Module AirTrafficFacts.
Import Py PyFacts Nx NxFacts AirTraffic.
Unset Implicit Arguments.
Local Open Scope m_scope.

(** ** Running the loader *)

Lemma update_nth_last {X} (f : X -> X) (h : list X) (x : X) :
  update_nth (length h) f (h ++ [x]) = h ++ [f x].
Proof. induction h as [|y h IH]; simpl; [reflexivity | now rewrite IH]. Qed.

Lemma for_each_mutate (g : nat) (f : string -> AGraph -> AGraph) lines :
  forall h G fs out figs,
    g = length h ->
    for_each lines (fun line => mutate g (f line)) (mkWorld fs (h ++ [G]) out figs)
    = (inr tt, mkWorld fs (h ++ [fold_left (fun G line => f line G) lines G]) out figs).
Proof.
  induction lines as [|l lines IH]; intros h G fs out figs ->; simpl.
  - reflexivity.
  - unfold bind, mutate at 1. simpl. rewrite update_nth_last. now apply IH.
Qed.

(** What a call of [build_graph] does: the new object is [load] of the two
    files, and a missing file raises after the object was created. *)
Lemma build_graph_run cities_file network_file w :
  build_graph cities_file network_file w =
  match dict_get cities_file (files w) with
  | None => (inl FileNotFoundError,
             mkWorld (files w) (heap w ++ [empty_graph]) (stdout w) (figures w))
  | Some cities =>
      match dict_get network_file (files w) with
      | None => (inl FileNotFoundError,
                 mkWorld (files w) (heap w ++ [load cities []]) (stdout w) (figures w))
      | Some net => (inr (length (heap w)),
                     mkWorld (files w) (heap w ++ [load cities net])
                             (stdout w) (figures w))
      end
  end.
Proof.
  unfold build_graph, bind, alloc, read_lines, ret. simpl.
  destruct (dict_get cities_file (files w)) as [cities|]; [|reflexivity].
  rewrite for_each_mutate by reflexivity. simpl.
  destruct (dict_get network_file (files w)) as [net|]; [|reflexivity].
  rewrite for_each_mutate by reflexivity. reflexivity.
Qed.

Lemma nth_last {X} (h : list X) (x d : X) : nth (length h) (h ++ [x]) d = x.
Proof. rewrite app_nth2 by lia. now rewrite Nat.sub_diag. Qed.

(** C7: [build_graph] is deterministic.  Two successive calls on the same two
    files either both raise the same exception or return two graph objects
    with identical node counts and identical edge counts. *)
Theorem build_graph_deterministic (cities_file network_file : string) (w : World) :
  let '(r1, w1) := build_graph cities_file network_file w in
  let '(r2, w2) := build_graph cities_file network_file w1 in
  match r1, r2 with
  | inr g1, inr g2 =>
      g1 <> g2 /\
      number_of_nodes (nth g1 (heap w2) empty_graph)
      = number_of_nodes (nth g2 (heap w2) empty_graph) /\
      number_of_edges (nth g1 (heap w2) empty_graph)
      = number_of_edges (nth g2 (heap w2) empty_graph)
  | inl e1, inl e2 => e1 = e2
  | _, _ => False
  end.
Proof.
  rewrite build_graph_run.
  destruct (dict_get cities_file (files w)) as [cities|] eqn:Ec.
  - destruct (dict_get network_file (files w)) as [net|] eqn:En.
    + rewrite build_graph_run. cbn [files heap]. rewrite Ec, En.
      cbn [heap]. rewrite nth_last.
      rewrite app_nth1 by (rewrite length_app; simpl; lia).
      rewrite nth_last. rewrite length_app. simpl. repeat split; lia.
    + rewrite build_graph_run. simpl. rewrite Ec, En. reflexivity.
  - rewrite build_graph_run. simpl. rewrite Ec. reflexivity.
Qed.

(** ** Loaded graphs are well formed *)

Lemma wf_add_city_line line G : wf G -> wf (add_city_line line G).
Proof.
  intros W. unfold add_city_line. destruct (strip line) as [|ch rest]; [assumption|].
  destruct (split_on _ _) as [|t1 [|t2 [|t3 [|? ?]]]]; try assumption.
  now apply wf_add_node.
Qed.

Lemma wf_add_net_line line G : wf G -> wf (add_net_line line G).
Proof.
  intros W. unfold add_net_line. destruct (strip line) as [|ch rest]; [assumption|].
  destruct (split_ws _) as [|t1 [|t2 [|? ?]]]; try assumption.
  now apply wf_add_edge.
Qed.

Lemma wf_fold {X} (f : X -> AGraph -> AGraph) :
  (forall x G, wf G -> wf (f x G)) ->
  forall l G, wf G -> wf (fold_left (fun G x => f x G) l G).
Proof.
  intros Hf l. induction l as [|x l IH]; simpl; intros G W; [assumption|].
  apply IH, Hf, W.
Qed.

Lemma wf_load cities net : wf (load cities net).
Proof.
  unfold load. apply wf_fold; [apply wf_add_net_line|].
  apply wf_fold; [apply wf_add_city_line | apply wf_empty].
Qed.

(** What an edge line does, in terms of its two tokens. *)
Lemma add_net_line_tokens line a b G :
  split_ws (strip line) = [a; b] -> add_net_line line G = add_edge a b G.
Proof.
  unfold add_net_line. intros E. destruct (strip line) eqn:Es.
  - discriminate.
  - now rewrite E.
Qed.

(** C10: edge insertion is idempotent and symmetric.  Once an edge between
    [a] and [b] is loaded, a further edge-file line with the tokens [a b], or
    [b a], leaves the graph as it is, and so its node and edge counts. *)
Theorem add_edge_line_idempotent (cities net : list string) (a b line : string) :
  has_edge (load cities net) a b = true ->
  split_ws (strip line) = [a; b] \/ split_ws (strip line) = [b; a] ->
  load cities (net ++ [line]) = load cities net /\
  number_of_nodes (load cities (net ++ [line])) = number_of_nodes (load cities net) /\
  number_of_edges (load cities (net ++ [line])) = number_of_edges (load cities net).
Proof.
  intros E T.
  assert (L : load cities (net ++ [line]) = load cities net).
  { unfold load at 1. rewrite fold_left_app. simpl. fold (load cities net).
    pose proof (wf_load cities net) as W.
    apply mem_In in E.
    destruct T as [T|T]; rewrite (add_net_line_tokens _ _ _ _ T).
    - now apply add_edge_present.
    - apply add_edge_present; [assumption|]. now apply (wf_sym W). }
  rewrite L. auto.
Qed.

Lemma add_edge_line_idempotent_witness :
  let cities := ["CBR|1|Canberra"; "SYD|2|Sydney"]%string in
  let net := ["1 2"]%string in
  number_of_edges (load cities (net ++ [" 2   1 "%string])) = 1.
Proof.
  intros cities net.
  destruct (add_edge_line_idempotent cities net "1" "2" " 2   1 "
              eq_refl (or_intror eq_refl)) as (_ & _ & ->).
  reflexivity.
Defined.

(** ** Edge lines create their endpoints *)

Lemma load_app cities net1 net2 :
  load cities (net1 ++ net2) =
  fold_left (fun G line => add_net_line line G) net2 (load cities net1).
Proof. unfold load. now rewrite fold_left_app. Qed.

Lemma add_net_line_cases line G :
  add_net_line line G = G \/ exists a b, add_net_line line G = add_edge a b G.
Proof.
  unfold add_net_line. destruct (strip line) as [|ch rest]; [now left|].
  destruct (split_ws _) as [|t1 [|t2 [|? ?]]]; eauto.
Qed.

Lemma add_city_line_cases line G :
  add_city_line line G = G \/
  exists c n name, city_line_id line = Some n /\
                   add_city_line line G = add_node n (mkAttrs (Some c) (Some name)) G.
Proof.
  unfold add_city_line, city_line_id. destruct (strip line) as [|ch rest]; [now left|].
  destruct (split_on _ _) as [|t1 [|t2 [|t3 [|? ?]]]]; eauto 6.
Qed.

Lemma net_fold_wf net : forall G,
  wf G -> wf (fold_left (fun G line => add_net_line line G) net G).
Proof. apply wf_fold, wf_add_net_line. Qed.

Lemma net_fold_edge_mono net u v : forall G,
  wf G -> In v (neighbors G u) ->
  In v (neighbors (fold_left (fun G line => add_net_line line G) net G) u).
Proof.
  induction net as [|line net IH]; simpl; intros G W I; [assumption|].
  apply IH; [now apply wf_add_net_line|].
  destruct (add_net_line_cases line G) as [->|(a & b & ->)]; [assumption|].
  apply neighbors_add_edge_In; [apply (wf_keys W) | now left].
Qed.

(** The nodes that the city file creates are those its lines name. *)
Lemma city_fold_nodes cities x : forall G,
  In x (nodes (fold_left (fun G line => add_city_line line G) cities G)) ->
  In x (nodes G) \/ exists line, In line cities /\ city_line_id line = Some x.
Proof.
  induction cities as [|line cities IH]; simpl; intros G I; [now left|].
  apply IH in I as [I|(l & Il & E)]; [|right; eauto].
  destruct (add_city_line_cases line G) as [E|(c & n & name & E1 & E2)].
  - rewrite E in I. now left.
  - rewrite E2, nodes_add_node in I. destruct (has_node G n); [now left|].
    apply in_app_or in I as [I|[<-|[]]]; [now left|]. right. eauto.
Qed.

Lemma attrs_add_edge u v G x :
  dict_get x (_node (add_edge u v G)) =
  if has_node G x then dict_get x (_node G)
  else if keqb x u || keqb x v then Some attr_empty else None.
Proof.
  rewrite node_add_edge. destruct (has_node G x) eqn:Hx.
  - apply has_node_In in Hx. rewrite attrs_touch_old; [now apply attrs_touch_old|].
    apply touch_In. now right.
  - apply has_node_false in Hx. destruct (keqb_dec x u) as [[-> ->]|[Nu ->]]; cbn [orb].
    + destruct (keqb_dec u v) as [[<- _]|[Nv _]].
      * rewrite attrs_touch_old; [now apply attrs_touch_new|].
        apply touch_In. now left.
      * rewrite attrs_touch_other by congruence. now apply attrs_touch_new.
    + destruct (keqb_dec x v) as [[-> ->]|[Nv ->]].
      * apply attrs_touch_new. rewrite touch_In. intros [?|?]; congruence.
      * rewrite !attrs_touch_other by congruence.
        apply dict_get_None. exact Hx.
Qed.

(** A node that the edge file creates has no attributes. *)
Lemma net_fold_attrs net x : forall G,
  (dict_get x (_node G) = None \/ dict_get x (_node G) = Some attr_empty) ->
  let G' := fold_left (fun G line => add_net_line line G) net G in
  dict_get x (_node G') = None \/ dict_get x (_node G') = Some attr_empty.
Proof.
  induction net as [|line net IH]; simpl; intros G I; [assumption|].
  apply IH.
  destruct (add_net_line_cases line G) as [->|(a & b & ->)]; [assumption|].
  rewrite attrs_add_edge. destruct (has_node G x); [assumption|].
  destruct (keqb x a || keqb x b); auto.
Qed.

Lemma city_of_no_attrs (G : AGraph) x :
  dict_get x (_node G) = Some attr_empty -> city_of G x = inl KeyError.
Proof. unfold city_of. now intros ->. Qed.

(** What a name lookup can raise. *)
Lemma city_of_error (G : AGraph) x e : city_of G x = inl e -> e = KeyError.
Proof.
  unfold city_of. destruct (dict_get x (_node G)) as [a|]; [|congruence].
  destruct (city a); congruence.
Qed.

Lemma rmap_city_KeyError (G : AGraph) path :
  (exists x, In x path /\ city_of G x = inl KeyError) ->
  rmap (city_of G) path = inl KeyError.
Proof.
  induction path as [|y path IH]; intros (x & I & E); [destruct I|]. simpl.
  destruct (city_of G y) as [e|c] eqn:Ey; simpl.
  - now rewrite (city_of_error _ _ _ Ey).
  - destruct I as [->|I]; [congruence|]. rewrite IH; eauto.
Qed.

Lemma for_each_city_KeyError {X} (G : AGraph) (line : string -> X -> string)
      (xs : list (string * X)) :
  (exists x d, In (x, d) xs /\ city_of G x = inl KeyError) ->
  forall w,
    fst (for_each xs (fun '(node_id, d) =>
                        city_name <- lift (city_of G node_id) ;;
                        print (line city_name d)) w) = inl KeyError.
Proof.
  induction xs as [|[y dy] xs IH]; intros (x & d & I & E) w; [destruct I|]. simpl.
  unfold bind at 1. unfold bind at 1. unfold lift at 1.
  destruct (city_of G y) as [e|c] eqn:Ey; simpl.
  - now rewrite (city_of_error _ _ _ Ey).
  - destruct I as [[= -> ->]|I]; [congruence|]. apply IH. eauto.
Qed.

Lemma q7_KeyError Score ltb bc fmt (w : World) (g : nat) (view : AGraph) :
  largest_cc (nth g (heap w) empty_graph) = inr view ->
  (exists x d,
      In (x, d) (firstn 10 (sort_desc (fun a b : string * Score => ltb (snd a) (snd b))
                                      (bc (copy view)))) /\
      city_of (copy view) x = inl KeyError) ->
  fst (@solve_problem2_q7 Score ltb bc fmt g w) = inl KeyError.
Proof.
  intros L C. unfold solve_problem2_q7.
  unfold bind at 1. unfold deref at 1.
  unfold bind at 1. unfold lift at 1. rewrite L.
  unfold bind at 1. unfold alloc at 1.
  unfold bind at 1. unfold deref at 1. cbn [heap]. rewrite nth_last.
  unfold bind at 1. unfold print at 1.
  unfold bind at 1. unfold print at 1.
  now apply for_each_city_KeyError.
Qed.

(** C9: an edge-file line with exactly two tokens adds the edge whether or
    not its endpoints were named in the city file.  An endpoint that no
    well-formed city line names is a node without attributes, and looking up
    its [city] raises [KeyError]; so there are inputs on which the graph has
    more nodes than the city file has well-formed lines, and on which Q3, Q5,
    Q6 and Q7 raise [KeyError]. *)
Theorem edge_lines_create_nodes (cities net : list string) (line a b : string) :
  In line net ->
  split_ws (strip line) = [a; b] ->
  let G := load cities net in
  (has_edge G a b = true /\ has_edge G b a = true /\
   has_node G a = true /\ has_node G b = true) /\
  (forall x, x = a \/ x = b ->
             (forall cl, In cl cities -> city_line_id cl <> Some x) ->
             dict_get x (_node G) = Some (mkAttrs None None) /\
             city_of G x = inl KeyError) /\
  (exists cities' net',
      let G' := load cities' net' in
      let w := mkWorld [] [G'] [] [] in
      length (filter (fun l => match city_line_id l with
                               | Some _ => true | None => false end) cities')
      < number_of_nodes G' /\
      fst (solve_problem2_q3 0 w) = inl KeyError /\
      fst (solve_problem2_q5 0 w) = inl KeyError /\
      fst (solve_problem2_q6 0 w) = inl KeyError /\
      forall Score ltb bc fmt,
        (forall G'' : AGraph, dict_keys (bc G'') = nodes G'') ->
        fst (@solve_problem2_q7 Score ltb bc fmt 0 w) = inl KeyError).
Proof.
  intros I T G.
  apply in_split in I as (net1 & net2 & ->).
  assert (W1 : wf (load cities net1)) by apply wf_load.
  assert (Eab : In b (neighbors G a)).
  { unfold G. rewrite load_app. simpl. rewrite (add_net_line_tokens _ _ _ _ T).
    apply net_fold_edge_mono; [now apply wf_add_edge|].
    apply neighbors_add_edge_In; [apply (wf_keys W1)|]. right. now left. }
  assert (W : wf G) by apply wf_load.
  assert (Eba : In a (neighbors G b)) by now apply (wf_sym W).
  assert (Na : In a (nodes G)) by (eapply neighbors_In_node; [apply (wf_keys W) | eauto]).
  assert (Nb : In b (nodes G)) by (eapply neighbors_In_node; [apply (wf_keys W) | eauto]).
  split; [|split].
  - unfold has_edge.
    repeat split; [apply mem_In | apply mem_In | apply has_node_In | apply has_node_In];
      assumption.
  - intros x Hx Hc.
    assert (Nx : In x (nodes G)) by (destruct Hx as [-> | ->]; assumption).
    assert (A : dict_get x (_node G) = None \/ dict_get x (_node G) = Some attr_empty).
    { unfold G, load. apply net_fold_attrs. left. apply dict_get_None.
      intros Ix. apply city_fold_nodes in Ix as [[]|(cl & Icl & E)].
      now apply (Hc cl). }
    destruct A as [A|A].
    + apply dict_get_None in A. contradiction.
    + split; [exact A | now apply city_of_no_attrs].
  - exists ["CBR|1|Canberra"; "CPT|2|Cape Town"]%string, ["1 9"; "9 2"]%string.
    cbv zeta. split; [vm_compute; lia|]. split; [reflexivity|].
    split; [reflexivity|]. split; [reflexivity|].
    intros Score ltb bc fmt Hbc.
    eapply q7_KeyError; [vm_compute; reflexivity|].
    match goal with |- context [bc ?g] => set (GL := g) end.
    pose proof (sort_desc_perm (fun a b : string * Score => ltb (snd a) (snd b)) (bc GL)) as Pm.
    assert (I9 : In "9"%string (dict_keys (bc GL))).
    { rewrite Hbc. vm_compute. tauto. }
    apply in_map_iff in I9 as ([x d] & Ex & I9). simpl in Ex. subst x.
    exists "9"%string, d. split; [|reflexivity].
    rewrite firstn_all2; [now apply (Permutation_in _ Pm)|].
    rewrite <- (Permutation_length Pm).
    replace (length (bc GL)) with (length (dict_keys (bc GL)))
      by apply length_map.
    rewrite Hbc. vm_compute. lia.
Qed.

Lemma edge_lines_create_nodes_witness :
  let G := load ["CBR|1|Canberra"]%string ["1 9"]%string in
  has_edge G "1"%string "9"%string = true /\ city_of G "9" = inl KeyError.
Proof.
  intros G.
  destruct (edge_lines_create_nodes ["CBR|1|Canberra"]%string ["1 9"]%string
              "1 9" "1" "9" (or_introl eq_refl) eq_refl) as ((E & _) & A & _).
  split; [exact E|].
  apply A; [now right|].
  intros cl [<-|[]]. vm_compute. discriminate.
Defined.

(** The largest component of a non-empty graph exists, is the search from
    one of the nodes, and is not empty. *)
Lemma largest_cc_exists (G : AGraph) :
  wf G -> nodes G <> [] ->
  exists v GL,
    In v (nodes G) /\ largest_cc G = inr GL /\
    GL = subgraph G (_plain_bfs G v) /\ wf GL /\ In v (nodes GL).
Proof.
  intros W N. unfold largest_cc.
  destruct (max_by_len_In (connected_components G) (components_nonempty G N))
    as (c & -> & Ic & _).
  apply components_source in Ic as (v & Iv & ->).
  exists v, (subgraph G (_plain_bfs G v)). simpl.
  split; [assumption|]. split; [reflexivity|]. split; [reflexivity|].
  split; [now apply wf_subgraph|].
  rewrite nodes_subgraph. apply filter_In. split; [assumption|].
  apply mem_In, plain_bfs_source.
Qed.

(** ** Q3: the ten largest degrees *)

Lemma StronglySorted_firstn {X} (R : X -> X -> Prop) n l :
  StronglySorted R l -> StronglySorted R (firstn n l).
Proof.
  intros S. rewrite <- (firstn_skipn n l) in S.
  now apply StronglySorted_app_inv in S.
Qed.

Lemma largest_cc_wf G GL : wf G -> largest_cc G = inr GL -> wf GL.
Proof.
  unfold largest_cc. intros W. destruct (max_by_len _) as [e|ns]; [discriminate|].
  intros [= <-]. now apply wf_subgraph.
Qed.

(** ** The queries do not write to the graph *)

Lemma oa_ret {A} (a : A) : only_allocates (ret a).
Proof. intros w. exists []. simpl. now rewrite app_nil_r. Qed.

Lemma oa_lift {A} (r : result A) : only_allocates (lift r).
Proof. intros w. exists []. simpl. now rewrite app_nil_r. Qed.

Lemma oa_print s : only_allocates (print s).
Proof. intros w. exists []. simpl. now rewrite app_nil_r. Qed.

Lemma oa_plot x y : only_allocates (plot x y).
Proof. intros w. exists []. simpl. now rewrite app_nil_r. Qed.

Lemma oa_deref g : only_allocates (deref g).
Proof. intros w. exists []. simpl. now rewrite app_nil_r. Qed.

Lemma oa_alloc G : only_allocates (alloc G).
Proof. intros w. exists [G]. reflexivity. Qed.

Lemma oa_bind {A B} (m : M A) (f : A -> M B) :
  only_allocates m -> (forall a, only_allocates (f a)) -> only_allocates (bind m f).
Proof.
  intros Hm Hf w. unfold bind. destruct (Hm w) as [e1 E1].
  destruct (m w) as [[e|a] w1]; simpl in *.
  - eauto.
  - destruct (Hf a w1) as [e2 E2]. exists (e1 ++ e2).
    now rewrite E2, E1, app_assoc.
Qed.

Lemma oa_for_each {X} (xs : list X) (body : X -> M unit) :
  (forall x, only_allocates (body x)) -> only_allocates (for_each xs body).
Proof.
  intros Hb. induction xs as [|x xs IH]; simpl.
  - apply oa_ret.
  - apply oa_bind; auto.
Qed.

Create HintDb frame.
#[local] Hint Resolve oa_ret oa_lift oa_print oa_plot oa_deref oa_alloc : frame.

Ltac frame_step :=
  first [ apply oa_bind; [|intros ?]
        | apply oa_for_each; intros [? ?]
        | solve [auto with frame]
        | match goal with
          | |- only_allocates (match ?x with _ => _ end) =>
              destruct x; cbv beta iota
          end ].

Lemma oa_q1 g : only_allocates (solve_problem2_q1 g).
Proof. unfold solve_problem2_q1. repeat frame_step. Qed.

Lemma oa_q2 g : only_allocates (solve_problem2_q2 g).
Proof. unfold solve_problem2_q2. repeat frame_step. Qed.

Lemma oa_q3 g : only_allocates (solve_problem2_q3 g).
Proof. unfold solve_problem2_q3. repeat frame_step. Qed.

Lemma oa_q4 g : only_allocates (solve_problem2_q4 g).
Proof. unfold solve_problem2_q4. repeat frame_step. Qed.

Lemma oa_q5 g : only_allocates (solve_problem2_q5 g).
Proof. unfold solve_problem2_q5. repeat frame_step. Qed.

Lemma oa_q6 g : only_allocates (solve_problem2_q6 g).
Proof. unfold solve_problem2_q6. repeat frame_step. Qed.

Lemma oa_q7 Score ltb bc fmt g :
  only_allocates (@solve_problem2_q7 Score ltb bc fmt g).
Proof. unfold solve_problem2_q7. repeat frame_step. Qed.

Lemma only_allocates_nth {A} (m : M A) w g :
  only_allocates m -> g < length (heap w) ->
  nth g (heap (snd (m w))) empty_graph = nth g (heap w) empty_graph.
Proof. intros Hm L. destruct (Hm w) as [e ->]. now apply app_nth1. Qed.

(** C8: every query leaves the loaded graph unchanged.  Whatever the heap
    holds behind the reference [g] before one of [solve_problem2_q1] ...
    [solve_problem2_q7] runs, it holds the same graph (nodes, attributes and
    adjacency) afterwards: the copies of Q5 and Q7 are new objects. *)
Theorem queries_leave_graph_unchanged
        (Score : Type) (score_ltb : Score -> Score -> bool)
        (betweenness_centrality : AGraph -> dict string Score)
        (format_6f : Score -> string) (w : World) (g : nat) :
  g < length (heap w) ->
  let G := nth g (heap w) empty_graph in
  let after (q : nat -> M unit) := nth g (heap (snd (q g w))) empty_graph in
  after solve_problem2_q1 = G /\ after solve_problem2_q2 = G /\
  after solve_problem2_q3 = G /\ after solve_problem2_q4 = G /\
  after solve_problem2_q5 = G /\ after solve_problem2_q6 = G /\
  after (@solve_problem2_q7 Score score_ltb betweenness_centrality format_6f) = G.
Proof.
  intros L G after. unfold after, G.
  repeat split; apply only_allocates_nth; auto using
    oa_q1, oa_q2, oa_q3, oa_q4, oa_q5, oa_q6, oa_q7.
Qed.

(** ** Q6: the scan for the two airports *)

Lemma code_is_exclusive a : code_is a "CBR" = true -> code_is a "CPT" = false.
Proof.
  unfold code_is. destruct (code a) as [c|]; [|discriminate].
  intros E. apply String.eqb_eq in E. now subst.
Qed.

Lemma last_with_code_snoc c nd n a :
  last_with_code c (nd ++ [(n, a)]) =
  if code_is a c then Some n else last_with_code c nd.
Proof.
  unfold last_with_code, first_with_code. rewrite rev_unit. simpl.
  now destruct (code_is a c).
Qed.

Lemma q6_find_snoc nd n a :
  q6_find (nd ++ [(n, a)]) =
  let '(start_node, end_node) := q6_find nd in
  if code_is a "CBR" then (Some n, end_node)
  else if code_is a "CPT" then (start_node, Some n)
  else (start_node, end_node).
Proof.
  unfold q6_find. rewrite fold_left_app. simpl.
  now destruct (fold_left _ nd _) as [start_node end_node].
Qed.

Lemma first_with_code_None c nd :
  first_with_code c nd = None <-> forall n a, In (n, a) nd -> code_is a c = false.
Proof.
  unfold first_with_code. split.
  - intros E n a I. destruct (find _ nd) as [x|] eqn:F; [discriminate|].
    apply (find_none _ _ F (n, a) I).
  - intros N. destruct (find _ nd) as [[n a]|] eqn:F; [|reflexivity].
    apply find_some in F as [I E]. rewrite (N _ _ I) in E. discriminate.
Qed.

Lemma last_with_code_None c nd :
  last_with_code c nd = None <-> forall n a, In (n, a) nd -> code_is a c = false.
Proof.
  unfold last_with_code. rewrite first_with_code_None.
  split; intros N n a I; apply (N n a); [now apply in_rev in I | now apply in_rev].
Qed.

Lemma last_with_code_Some c nd n :
  last_with_code c nd = Some n ->
  exists l1 a l2, nd = l1 ++ (n, a) :: l2 /\ code_is a c = true /\
                  forall n' a', In (n', a') l2 -> code_is a' c = false.
Proof.
  induction nd as [|[m b] nd IH] using rev_ind; [discriminate|].
  rewrite last_with_code_snoc. destruct (code_is b c) eqn:E.
  - intros [= ->]. exists nd, b, []. repeat split; auto. intros ? ? [].
  - intros L. destruct (IH L) as (l1 & a & l2 & -> & Ea & N).
    exists l1, a, (l2 ++ [(m, b)]). rewrite <- app_assoc. repeat split; auto.
    intros n' a' I. apply in_app_or in I as [I|[[= <- <-]|[]]]; eauto.
Qed.

Lemma q6_find_last (nodes_data : dict string attrs) :
  q6_find nodes_data =
  (last_with_code "CBR" nodes_data, last_with_code "CPT" nodes_data).
Proof.
  induction nodes_data as [|[n a] nd IH] using rev_ind; [reflexivity|].
  rewrite q6_find_snoc, IH, !last_with_code_snoc.
  destruct (code_is a "CBR") eqn:E1.
  - now rewrite (code_is_exclusive _ E1).
  - now destruct (code_is a "CPT").
Qed.

(** C2, as the code has it: the loop of Q6 has no [break], so the start node
    is the last node in iteration order whose [code] is "CBR" and the end node
    the last one whose [code] is "CPT": no node after the one selected
    carries the code, and nothing is selected only if no node carries it. *)
Theorem q6_selects_last_match (nodes_data : dict string attrs) :
  let selected (c : string) (r : option string) :=
    match r with
    | Some n =>
        exists before a after,
          nodes_data = before ++ (n, a) :: after /\ code_is a c = true /\
          forall n' a', In (n', a') after -> code_is a' c = false
    | None => forall n a, In (n, a) nodes_data -> code_is a c = false
    end in
  q6_find nodes_data =
  (last_with_code "CBR" nodes_data, last_with_code "CPT" nodes_data) /\
  selected "CBR"%string (fst (q6_find nodes_data)) /\
  selected "CPT"%string (snd (q6_find nodes_data)).
Proof.
  intros selected. rewrite q6_find_last. split; [reflexivity|]. simpl.
  split.
  - destruct (last_with_code "CBR" nodes_data) as [n|] eqn:E; simpl.
    + now apply last_with_code_Some.
    + now apply last_with_code_None.
  - destruct (last_with_code "CPT" nodes_data) as [n|] eqn:E; simpl.
    + now apply last_with_code_Some.
    + now apply last_with_code_None.
Qed.

(** C2, as stated, fails: with two nodes that carry "CBR" (and two that
    carry "CPT") the scan does not return the first match. *)
Lemma q6_first_match_counterexample :
  let G := load ["CBR|4|Canberra"; "CPT|5|Cape Town"; "CBR|6|Canberra West";
                 "CPT|7|Cape Town East"]%string [] in
  first_with_code "CBR" (_node G) = Some "4"%string /\
  first_with_code "CPT" (_node G) = Some "5"%string /\
  fst (q6_find (_node G)) <> first_with_code "CBR" (_node G) /\
  snd (q6_find (_node G)) <> first_with_code "CPT" (_node G).
Proof. vm_compute. repeat split; discriminate. Qed.

Lemma last_with_code_key c nd n : last_with_code c nd = Some n -> In n (dict_keys nd).
Proof.
  intros L. apply last_with_code_Some in L as (l1 & a & l2 & -> & _).
  rewrite dict_keys_app. apply in_or_app. right. now left.
Qed.

(** C4: Q6 fails gracefully.  If no node carries "CBR", or none carries
    "CPT", or the two nodes found are not connected by any walk, the query
    prints one message and returns normally; files, graph objects and plots
    are what they were. *)
Theorem q6_fails_gracefully (w : World) (g : nat) :
  let G := nth g (heap w) empty_graph in
  (forall n a, In (n, a) (_node G) -> code_is a "CBR" = false) \/
  (forall n a, In (n, a) (_node G) -> code_is a "CPT" = false) \/
  (exists s e, q6_find (_node G) = (Some s, Some e) /\ ~ reach G s e) ->
  exists msg,
    (msg = "Could not find 'CBR' or 'CPT' in the graph. Check data or code attribute."%string
     \/ msg = "No path found between Canberra (CBR) and Cape Town (CPT). They may be in different components."%string)
    /\ solve_problem2_q6 g w
       = (inr tt, mkWorld (files w) (heap w) (stdout w ++ [msg]) (figures w)).
Proof.
  intros G C. unfold solve_problem2_q6, bind, deref. fold G.
  rewrite q6_find_last.
  destruct C as [C|[C|(s & e & F & N)]].
  - apply last_with_code_None in C. rewrite C.
    eexists. split; [left; reflexivity | reflexivity].
  - apply last_with_code_None in C. rewrite C.
    eexists. split; [left; reflexivity|].
    destruct (last_with_code "CBR" (_node G)); reflexivity.
  - rewrite q6_find_last in F. injection F as Fs Fe. rewrite Fs, Fe.
    apply last_with_code_key in Fs, Fe.
    assert (SP : shortest_path G s e = inl NetworkXNoPath).
    { unfold shortest_path, single_source_shortest_path.
      apply (has_node_In G) in Fs, Fe. rewrite Fs, Fe. simpl.
      destruct (dict_get e _) as [p|] eqn:D; [|reflexivity].
      exfalso. apply N. eapply bfs_sound. eapply dict_get_Some_keys. exact D. }
    rewrite SP. eexists. split; [right; reflexivity | reflexivity].
Qed.

Lemma q6_fails_gracefully_witness :
  let w := mkWorld [] [load ["CPT|2|Cape Town"; "SYD|3|Sydney"]%string ["2 3"]%string] [] [] in
  exists msg, solve_problem2_q6 0 w
              = (inr tt, mkWorld (files w) (heap w) (stdout w ++ [msg]) (figures w)).
Proof.
  intros w.
  destruct (q6_fails_gracefully w 0) as (msg & _ & E).
  - left. intros n a I. vm_compute in I. destruct I as [[= <- <-]|[[= <- <-]|[]]]; reflexivity.
  - exists msg. exact E.
Defined.

Lemma queries_leave_graph_unchanged_witness :
  let G := load ["CBR|1|Canberra"; "CPT|2|Cape Town"]%string ["1 2"]%string in
  let w := mkWorld [] [G] [] [] in
  nth 0 (heap (snd (solve_problem2_q5 0 w))) empty_graph = G /\
  nth 0 (heap (snd (@solve_problem2_q7 nat Nat.ltb (fun G => map (fun n => (n, 0)) (nodes G))
                                       str 0 w))) empty_graph = G.
Proof.
  intros G w.
  destruct (queries_leave_graph_unchanged nat Nat.ltb
              (fun G => map (fun n => (n, 0)) (nodes G)) str w 0)
    as (_ & _ & _ & _ & E5 & _ & E7).
  - simpl. lia.
  - split; [exact E5 | exact E7].
Defined.

End AirTrafficFacts.


(* ================================================================== *)
(** * Degree distributions *)
(* ================================================================== *)

Module DistributionFacts.
Import Py PyFacts Nx NxFacts CayleyTree.
Unset Implicit Arguments.

Lemma count_degrees_fold degrees :
  count_degrees degrees = fold_left incr degrees [].
Proof. reflexivity. Qed.

Lemma Counter_count_degrees degrees :
  Counter degrees = count_degrees degrees.
Proof. reflexivity. Qed.

Lemma get0_incr dc d k :
  get0 (incr dc d) k = get0 dc k + (if Nat.eq_dec d k then 1 else 0).
Proof.
  unfold incr, get0 at 1. destruct (Nat.eq_dec d k) as [->|N].
  - rewrite dict_get_set_same. reflexivity.
  - rewrite dict_get_set_other by assumption. fold (get0 dc k). lia.
Qed.

Lemma keys_incr dc d k :
  In k (dict_keys (incr dc d)) <-> k = d \/ In k (dict_keys dc).
Proof. apply dict_keys_set_incl. Qed.

Lemma NoDup_dict_set {V} (dc : dict nat V) k v :
  NoDup (dict_keys dc) -> NoDup (dict_keys (dict_set k v dc)).
Proof.
  intros N. destruct (in_dec Nat.eq_dec k (dict_keys dc)) as [I|I].
  - now rewrite dict_set_in.
  - rewrite dict_set_notin, dict_keys_app by assumption. now apply NoDup_snoc.
Qed.

Lemma list_sum_dict_set dc k v :
  list_sum (dict_values (dict_set k v dc)) + get0 dc k
  = list_sum (dict_values dc) + v.
Proof.
  unfold get0. induction dc as [|[k' v'] dc IH]; simpl.
  - lia.
  - change (keqb k k') with (k =? k'). destruct (k =? k') eqn:E; simpl; lia.
Qed.

(** The counting loop: every degree that occurs gets its number of
    occurrences, and nothing else gets an entry. *)
Lemma count_fold degrees : forall dc,
  NoDup (dict_keys dc) ->
  let r := fold_left incr degrees dc in
  NoDup (dict_keys r) /\
  (forall k, get0 r k = get0 dc k + count_occ Nat.eq_dec degrees k) /\
  (forall k, In k (dict_keys r) <-> In k (dict_keys dc) \/ In k degrees) /\
  list_sum (dict_values r) = list_sum (dict_values dc) + length degrees.
Proof.
  induction degrees as [|d degrees IH]; intros dc N; simpl.
  - repeat split; auto; try lia. tauto.
  - destruct (IH (incr dc d) (NoDup_dict_set _ _ _ N)) as (N' & G' & K' & S').
    repeat split.
    + assumption.
    + intros k. rewrite G', get0_incr. destruct (Nat.eq_dec d k); lia.
    + rewrite K', keys_incr. intuition.
    + rewrite K', keys_incr. intuition.
    + rewrite S'. pose proof (list_sum_dict_set dc d (get0 dc d + 1)).
      unfold incr. lia.
Qed.

Lemma count_degrees_spec degrees :
  let dc := count_degrees degrees in
  NoDup (dict_keys dc) /\
  (forall k, get0 dc k = count_occ Nat.eq_dec degrees k) /\
  (forall k, In k (dict_keys dc) <-> In k degrees) /\
  list_sum (dict_values dc) = length degrees.
Proof.
  destruct (count_fold degrees [] (NoDup_nil _)) as (N & G & K & S).
  split; [exact N|]. split; [exact G|]. split; [|exact S].
  intros k. rewrite count_degrees_fold, K. simpl. tauto.
Qed.

(** *** [sorted] *)

Lemma insert_asc_perm x l : Permutation (x :: l) (insert_asc x l).
Proof.
  induction l as [|y l IH]; simpl; [reflexivity|].
  destruct (x <? y); [reflexivity|]. rewrite perm_swap. now constructor.
Qed.

Lemma sorted_fold_perm l : forall acc,
  Permutation (l ++ acc) (fold_left (fun acc x => insert_asc x acc) l acc).
Proof.
  induction l as [|x l IH]; intros acc; simpl; [reflexivity|].
  rewrite <- IH, <- insert_asc_perm. apply Permutation_middle.
Qed.

Lemma sorted_perm l : Permutation l (sorted l).
Proof. unfold sorted. rewrite <- sorted_fold_perm. now rewrite app_nil_r. Qed.

Lemma insert_asc_sorted x l :
  StronglySorted le l -> StronglySorted le (insert_asc x l).
Proof.
  induction 1 as [|y l S IH F]; simpl.
  - repeat constructor.
  - destruct (x <? y) eqn:E.
    + apply Nat.ltb_lt in E. constructor; [now constructor|].
      constructor; [lia|]. eapply Forall_impl; [|exact F]. intros; simpl in *; lia.
    + apply Nat.ltb_ge in E. constructor; [assumption|].
      apply Forall_forall. intros z Iz.
      apply (Permutation_in _ (Permutation_sym (insert_asc_perm x l))) in Iz.
      destruct Iz as [<-|Iz]; [assumption|].
      rewrite Forall_forall in F. now apply F.
Qed.

Lemma sorted_sorted l : StronglySorted le (sorted l).
Proof.
  unfold sorted. assert (S : StronglySorted le []) by constructor.
  revert S. generalize (@nil nat). induction l as [|x l IH]; simpl; intros acc S.
  - assumption.
  - apply IH. now apply insert_asc_sorted.
Qed.

Lemma sorted_strict l : NoDup l -> StronglySorted lt (sorted l).
Proof.
  intros N. pose proof (sorted_sorted l) as S.
  assert (N' : NoDup (sorted l)) by (eapply Permutation_NoDup; [apply sorted_perm | assumption]).
  induction S as [|x s S IH F]; [constructor|].
  inversion N' as [|? ? Nx Ns]; subst. constructor; [auto|].
  apply Forall_forall. intros y Iy. rewrite Forall_forall in F.
  specialize (F y Iy). assert (x <> y) by (intros ->; contradiction). lia.
Qed.

(** *** Fractions *)

Lemma rmap_inr {X Y} (f : X -> result Y) (g : X -> Y) l :
  (forall a, In a l -> f a = inr (g a)) -> rmap f l = inr (map g l).
Proof.
  induction l as [|a l IH]; intros E; simpl; [reflexivity|].
  rewrite (E a) by now left. simpl. rewrite IH; [reflexivity|].
  intros b Ib. apply E. now right.
Qed.

Lemma list_sum_perm l l' : Permutation l l' -> list_sum l = list_sum l'.
Proof. induction 1; simpl; lia. Qed.

Lemma list_sum_get0_keys dc :
  NoDup (dict_keys dc) -> list_sum (map (get0 dc) (dict_keys dc)) = list_sum (dict_values dc).
Proof.
  induction dc as [|[k v] dc IH]; simpl; intros N; [reflexivity|].
  inversion N as [|? ? Nk Nd]; subst.
  unfold get0 at 1. simpl. change (keqb k k) with (k =? k). rewrite Nat.eqb_refl.
  f_equal. rewrite <- IH by assumption. f_equal. apply map_ext_in.
  intros k' Ik'. unfold get0. simpl. change (keqb k' k) with (k' =? k).
  destruct (k' =? k) eqn:E; [|reflexivity].
  apply Nat.eqb_eq in E. subst. contradiction.
Qed.

Lemma Qsum_frac dc n l :
  (Qsum (map (frac dc n) l)
   == inject_Z (Z.of_nat (list_sum (map (get0 dc) l))) / inject_Z (Z.of_nat n))%Q.
Proof.
  induction l as [|d l IH]; simpl.
  - unfold Qdiv. now rewrite Qmult_0_l.
  - rewrite IH. unfold frac, Qdiv. rewrite Nat2Z.inj_add, inject_Z_plus. ring.
Qed.

Lemma frac_pos dc n d : 0 < get0 dc d -> 0 < n -> (0 < frac dc n d)%Q.
Proof.
  intros Hc Hn. unfold frac. apply Qlt_shift_div_l.
  - change 0%Q with (inject_Z 0). rewrite <- Zlt_Qlt. lia.
  - rewrite Qmult_0_l. change 0%Q with (inject_Z 0). rewrite <- Zlt_Qlt. lia.
Qed.

Lemma Qgtb_pos f : (0 < f)%Q -> AirTraffic.Qgtb f 0 = true.
Proof.
  intros L. unfold AirTraffic.Qgtb. destruct (Qle_bool f 0) eqn:E; [|reflexivity].
  apply Qle_bool_iff in E. exfalso. now apply (Qlt_not_le _ _ L).
Qed.

Section Counts.
Variable degrees : list nat.
Hypothesis nonempty : degrees <> [].

Let dc := count_degrees degrees.
Let n := length degrees.
Let x := sorted (dict_keys dc).

Lemma n_pos : 0 < n.
Proof. unfold n. destruct degrees; [congruence | simpl; lia]. Qed.

Lemma x_keys d : In d x <-> In d degrees.
Proof.
  unfold x. destruct (count_degrees_spec degrees) as (_ & _ & K & _).
  rewrite <- K. split; intros I.
  - eapply Permutation_in; [apply Permutation_sym, sorted_perm | exact I].
  - eapply Permutation_in; [apply sorted_perm | exact I].
Qed.

Lemma x_count d : In d x -> 0 < get0 dc d.
Proof.
  intros I. apply x_keys in I.
  destruct (count_degrees_spec degrees) as (_ & G & _).
  unfold dc. rewrite G. now apply count_occ_In.
Qed.

Lemma getitem_x d : In d x -> getitem dc d = inr (get0 dc d).
Proof.
  intros I. pose proof (x_count d I) as C. unfold getitem, get0 in *.
  destruct (dict_get d dc); [reflexivity | lia].
Qed.

Lemma truediv_n c : truediv c n = inr (inject_Z (Z.of_nat c) / inject_Z (Z.of_nat n))%Q.
Proof.
  unfold truediv. pose proof n_pos.
  destruct (n =? 0) eqn:E; [apply Nat.eqb_eq in E; lia | reflexivity].
Qed.

(** The list comprehension of [plot_degree_distribution]. *)
Lemma fractions_rmap :
  rmap (fun d => rbind (getitem dc d) (fun c => truediv c n)) x
  = inr (map (frac dc n) x).
Proof.
  apply rmap_inr. intros d I. rewrite (getitem_x d I). simpl. apply truediv_n.
Qed.

(** The loop of Q4: no fraction is dropped. *)
Lemma fractions_fold l : forall x_vals y_vals,
  (forall d, In d l -> In d x) ->
  fold_left
    (fun acc deg =>
       rbind acc (fun '(x_vals, y_vals) =>
         let count := get0 dc deg in
         rbind (truediv count n) (fun fraction =>
           if AirTraffic.Qgtb fraction 0
           then inr (x_vals ++ [deg], y_vals ++ [fraction])
           else inr (x_vals, y_vals))))
    l (inr (x_vals, y_vals))
  = inr (x_vals ++ l, y_vals ++ map (frac dc n) l).
Proof.
  induction l as [|d l IH]; intros xs ys I; simpl.
  - now rewrite !app_nil_r.
  - rewrite truediv_n. simpl. fold (frac dc n d).
    rewrite Qgtb_pos by (apply frac_pos; [apply x_count, I; now left | apply n_pos]).
    rewrite IH by (intros; apply I; now right).
    now rewrite <- !app_assoc.
Qed.

Lemma counts_distribution :
  is_degree_distribution degrees (x, map (frac dc n) x).
Proof.
  destruct (count_degrees_spec degrees) as (N & G & K & S).
  unfold is_degree_distribution. split; [|split; [|split; [|split]]].
  - now apply sorted_strict.
  - apply x_keys.
  - clear. induction x as [|d l IH]; simpl; constructor; [|assumption].
    unfold frac, dc, n. destruct (count_degrees_spec degrees) as (_ & G & _).
    rewrite G. reflexivity.
  - apply Forall_forall. intros f I. apply in_map_iff in I as (d & <- & I).
    apply frac_pos; [now apply x_count | apply n_pos].
  - rewrite Qsum_frac.
    rewrite (list_sum_perm _ (map (get0 dc) (dict_keys dc)))
      by (apply Permutation_map, Permutation_sym, sorted_perm).
    rewrite list_sum_get0_keys by assumption. fold dc in S. rewrite S. fold n.
    apply Qmult_inv_r. pose proof n_pos.
    change 0%Q with (inject_Z 0). rewrite inject_Z_injective. lia.
Qed.
End Counts.

Lemma degrees_nonempty {K A} `{Key K} (G : Graph K A) :
  wf G -> nodes G <> [] -> map snd (degree G) <> [].
Proof.
  intros W N E. apply (f_equal (@length _)) in E. rewrite length_map in E.
  rewrite (degree_length G W) in E. unfold number_of_nodes in E.
  unfold nodes, dict_keys in N. destruct (_node G); [now apply N | discriminate].
Qed.

Lemma degrees_length {K A} `{Key K} (G : Graph K A) :
  wf G -> length (map snd (degree G)) = number_of_nodes G.
Proof. intros W. rewrite length_map. now apply degree_length. Qed.

(** C5: the degree distribution of a non-empty graph.  Both
    [plot_degree_distribution] and Q4 (on the largest component) list the
    degrees that occur in strictly ascending order, each with the fraction of
    nodes that have it; every fraction is positive and, in exact rational
    arithmetic, the fractions add up to one. *)
Theorem degree_distribution_sums_to_one :
  (forall (K A : Type) (HK : Key K) (G : Graph K A),
      wf G -> nodes G <> [] ->
      exists xy, plot_degree_distribution G = inr xy /\
                 is_degree_distribution (map snd (degree G)) xy) /\
  (forall G : AirTraffic.AGraph,
      wf G -> nodes G <> [] ->
      exists G_largest xy,
        AirTraffic.largest_cc G = inr G_largest /\
        AirTraffic.q4_distribution G_largest = inr xy /\
        is_degree_distribution (map snd (degree G_largest)) xy).
Proof.
  split.
  - intros K A HK G W N. unfold plot_degree_distribution.
    pose proof (degrees_nonempty G W N) as D.
    rewrite <- (degrees_length G W).
    rewrite (fractions_rmap _ D). simpl. eexists. split; [reflexivity|].
    now apply counts_distribution.
  - intros G W N. destruct (AirTrafficFacts.largest_cc_exists G W N) as (v & GL & Iv & L & _ & WL & IL).
    assert (NL : nodes GL <> []) by (intros E; rewrite E in IL; destruct IL).
    pose proof (degrees_nonempty GL WL NL) as D.
    exists GL. eexists. split; [exact L|].
    unfold AirTraffic.q4_distribution. rewrite Counter_count_degrees.
    rewrite <- (degrees_length GL WL).
    rewrite (fractions_fold _ D) by auto. simpl.
    split; [reflexivity|]. now apply counts_distribution.
Qed.

Lemma degree_distribution_sums_to_one_witness :
  let G := AirTraffic.load ["A|1|CityA"; "B|2|CityB"; "C|3|CityC"]%string
                           ["1 2"; "2 3"; "7 8"]%string in
  (exists xy, plot_degree_distribution G = inr xy /\
              is_degree_distribution (map snd (degree G)) xy) /\
  (exists G_largest xy,
      AirTraffic.largest_cc G = inr G_largest /\
      AirTraffic.q4_distribution G_largest = inr xy /\
      is_degree_distribution (map snd (degree G_largest)) xy).
Proof.
  intros G. destruct degree_distribution_sums_to_one as [P1 P4].
  assert (W : wf G) by apply AirTrafficFacts.wf_load.
  assert (N : nodes G <> []) by (vm_compute; discriminate).
  split; [apply (P1 _ _ _ G W N) | apply (P4 G W N)].
Defined.

End DistributionFacts.


(* ================================================================== *)
(** * Q5: the diameter and a path that attains it *)
(* ================================================================== *)

Module DiameterFacts.
Import Py PyFacts Nx NxFacts AirTraffic AirTrafficFacts.
Unset Implicit Arguments.
Local Open Scope m_scope.

Lemma rmap_city_error (G : AGraph) path e :
  rmap (city_of G) path = inl e -> e = KeyError.
Proof.
  induction path as [|x path IH]; simpl; [discriminate|].
  destruct (city_of G x) as [e'|c] eqn:Ex; simpl.
  - intros [= <-]. eapply city_of_error; eauto.
  - destruct (rmap (city_of G) path); simpl; [|discriminate].
    intros [= <-]. now apply IH.
Qed.

(** The copy of the largest component is well formed, connected and not
    empty. *)
Lemma largest_copy_connected (G : AGraph) :
  wf G -> nodes G <> [] ->
  exists view, largest_cc G = inr view /\
               wf (copy view) /\ connected (copy view) /\ nodes (copy view) <> [].
Proof.
  intros W N. destruct (largest_cc_exists G W N) as (v & view & Iv & L & -> & WV & IV).
  exists (subgraph G (_plain_bfs G v)). split; [assumption|].
  destruct (copy_spec _ WV) as (WC & NC & _).
  split; [assumption|]. split.
  - apply connected_copy; [assumption|]. now apply component_connected.
  - rewrite NC. intros E. rewrite E in IV. destruct IV.
Qed.



End DiameterFacts.


(* ================================================================== *)
(** * The Cayley tree *)
(* ================================================================== *)

Module CayleyFacts.
Import Py PyFacts Nx NxFacts CayleyTree.
Unset Implicit Arguments.

(** ** Attaching a leaf *)

Section Attach.
Variables (G : TGraph) (p c d : nat).
Hypothesis W : wf G.
Hypothesis Hp : In p (nodes G).
Hypothesis Hc : ~ In c (nodes G).

Let G' : TGraph := add_edge p c (add_node c (Some d) G).

Lemma attach_neq : p <> c.
Proof. intros ->. contradiction. Qed.

Lemma attach_wf : wf G'.
Proof. unfold G'. now apply wf_add_edge, wf_add_node. Qed.

Lemma attach_nodes1 : nodes (add_node c (Some d) G) = nodes G ++ [c].
Proof. rewrite nodes_add_node. apply has_node_false in Hc. now rewrite Hc. Qed.

Lemma attach_node_dict : _node G' = _node G ++ [(c, Some d)].
Proof.
  unfold G'. rewrite add_edge_nodes_present.
  - unfold add_node. assert (E : dict_get c (_node G) = None) by now apply dict_get_None.
    rewrite E. simpl. now apply dict_set_notin.
  - rewrite attach_nodes1. apply in_or_app. now left.
  - rewrite attach_nodes1. apply in_or_app. right. now left.
Qed.

Lemma attach_nodes : nodes G' = nodes G ++ [c].
Proof. unfold nodes. rewrite attach_node_dict, dict_keys_app. reflexivity. Qed.

Lemma attach_level_new : get_level G' c = inr d.
Proof.
  unfold get_level. rewrite attach_node_dict, dict_get_app_r by assumption.
  simpl. change (keqb c c) with (c =? c). now rewrite Nat.eqb_refl.
Qed.

Lemma attach_level_old n : In n (nodes G) -> get_level G' n = get_level G n.
Proof.
  intros I. unfold get_level. now rewrite attach_node_dict, dict_get_app_l.
Qed.

Lemma attach_level_of_new : level_of G' c = d.
Proof. unfold level_of. now rewrite attach_level_new. Qed.

Lemma attach_level_of_old n : In n (nodes G) -> level_of G' n = level_of G n.
Proof. intros I. unfold level_of. now rewrite attach_level_old. Qed.

Lemma attach_nbrs_p : neighbors G' p = neighbors G p ++ [c].
Proof.
  unfold G'. rewrite neighbors_add_edge_l.
  - rewrite neighbors_add_node by apply (wf_keys W). apply nbr_add_absent.
    intros I. apply Hc. eapply wf_neighbor_node; eauto.
  - apply keys_ok_add_node, (wf_keys W).
  - apply attach_neq.
Qed.

Lemma attach_nbrs_c : neighbors G' c = [p].
Proof.
  unfold G'. rewrite neighbors_add_edge_r.
  - rewrite neighbors_add_node by apply (wf_keys W).
    rewrite neighbors_not_node; [reflexivity | apply (wf_keys W) | assumption].
  - apply keys_ok_add_node, (wf_keys W).
  - apply attach_neq.
Qed.

Lemma attach_nbrs_other n : n <> p -> n <> c -> neighbors G' n = neighbors G n.
Proof.
  intros Np Nc. unfold G'. rewrite neighbors_add_edge_other; auto.
  - apply neighbors_add_node, (wf_keys W).
  - apply keys_ok_add_node, (wf_keys W).
Qed.

Lemma attach_adj u v :
  adj G' u v <-> adj G u v \/ (u = p /\ v = c) \/ (u = c /\ v = p).
Proof.
  unfold adj, G'. rewrite neighbors_add_edge_In by apply keys_ok_add_node, (wf_keys W).
  rewrite neighbors_add_node by apply (wf_keys W). tauto.
Qed.

Lemma attach_adj_old u v : adj G u v -> In u (nodes G) /\ In v (nodes G).
Proof.
  intros I. split.
  - eapply neighbors_In_node; [apply (wf_keys W) | exact I].
  - eapply wf_neighbor_node; eauto.
Qed.
End Attach.

(** ** One child more *)

Lemma tinv_node G next n : tinv G next -> (In n (nodes G) <-> n < next).
Proof. intros T. rewrite (t_nodes T), in_seq. lia. Qed.

Section AddChild.
Variables (G : TGraph) (next p d : nat).
Hypothesis T : tinv G next.
Hypothesis Hp : p < next.
Hypothesis Hd : d = S (level_of G p).

Let G' : TGraph := add_edge p next (add_node next (Some d) G).

Let W : wf G := t_wf T.

Lemma ac_p : In p (nodes G).
Proof. now apply (tinv_node G next p T). Qed.

Lemma ac_c : ~ In next (nodes G).
Proof. rewrite (tinv_node G next next T). lia. Qed.

Lemma ac_old n : n < next -> In n (nodes G).
Proof. now apply (tinv_node G next n T). Qed.

Lemma ac_level_old n : n < next -> level_of G' n = level_of G n.
Proof. intros L. apply attach_level_of_old; [apply ac_p | apply ac_c | now apply ac_old]. Qed.

Lemma ac_level_new : level_of G' next = d.
Proof. apply attach_level_of_new; [apply ac_p | apply ac_c]. Qed.

Lemma ac_adj u v :
  adj G' u v <-> adj G u v \/ (u = p /\ v = next) \/ (u = next /\ v = p).
Proof. apply attach_adj, W. Qed.

Lemma ac_adj_lt u v : adj G u v -> u < next /\ v < next.
Proof.
  intros I. destruct (attach_adj_old G W u v I) as [Iu Iv].
  split; now apply (tinv_node G next _ T).
Qed.

Lemma add_child_tinv : tinv G' (S next).
Proof.
  pose proof ac_p as Ip. pose proof ac_c as Ic.
  split.
  - now apply attach_wf.
  - unfold G'. rewrite attach_nodes by assumption.
    rewrite (t_nodes T), seq_S. reflexivity.
  - lia.
  - intros n Ln. destruct (Nat.eq_dec n next) as [->|N].
    + rewrite ac_level_new. apply attach_level_new; assumption.
    + rewrite ac_level_old by lia. unfold G'.
      rewrite attach_level_old by (try assumption; apply ac_old; lia).
      apply (t_level T). lia.
  - intros u v A. apply ac_adj in A as [A|[[-> ->]|[-> ->]]].
    + destruct (ac_adj_lt u v A). rewrite !ac_level_old by assumption.
      now apply (t_edge T).
    + left. rewrite ac_level_new, ac_level_old by assumption. exact Hd.
    + right. rewrite ac_level_new, ac_level_old by assumption. exact Hd.
  - intros c Lc Nc. destruct (Nat.eq_dec c next) as [->|N].
    + exists p. split; [apply ac_adj; auto|].
      rewrite ac_level_new, ac_level_old by assumption. exact Hd.
    + destruct (@t_parent _ _ T c) as (q & A & Lq); [lia | assumption|].
      exists q. split; [apply ac_adj; auto|].
      destruct (ac_adj_lt c q A). now rewrite !ac_level_old.
  - assert (Old : forall x q, x < next -> adj G' x q ->
                              level_of G' x = S (level_of G' q) -> adj G x q).
    { intros x q Lx A E. apply ac_adj in A as [A|[[-> ->]|[-> _]]]; [assumption| |lia].
      rewrite ac_level_new, ac_level_old in E by assumption. lia. }
    intros c q q' A A' E E'. destruct (Nat.eq_dec c next) as [->|N].
    + apply ac_adj in A as [A|[[? _]|[_ ->]]]; [apply ac_adj_lt in A; lia | lia |].
      apply ac_adj in A' as [A'|[[? _]|[_ ->]]]; [apply ac_adj_lt in A'; lia | lia |].
      reflexivity.
    + assert (Lc : c < next).
      { apply ac_adj in A as [A|[[-> _]|[? _]]]; [apply ac_adj_lt in A; lia | assumption | contradiction]. }
      pose proof (Old c q Lc A E) as B. pose proof (Old c q' Lc A' E') as B'.
      destruct (ac_adj_lt c q B). destruct (ac_adj_lt c q' B').
      rewrite !ac_level_old in E, E' by assumption.
      eapply (t_unique T); eauto.
  - rewrite ac_level_old by (pose proof (t_next T); lia). apply (t_root T).
  - intros n Ln Nn. destruct (Nat.eq_dec n next) as [->|N].
    + rewrite ac_level_new. lia.
    + rewrite ac_level_old by lia. apply (t_nonroot T); [lia | assumption].
Qed.

Lemma filter_level_old l :
  (forall w, In w l -> w < next) ->
  forall b,
    filter (fun w => level_of G' w =? b) l = filter (fun w => level_of G w =? b) l.
Proof.
  intros I b. apply filter_ext_in. intros w Iw. now rewrite ac_level_old by auto.
Qed.

Lemma nbrs_lt n w : In w (neighbors G n) -> w < next.
Proof. intros I. now apply (ac_adj_lt n w I). Qed.

Lemma children_p : children G' p = children G p ++ [next].
Proof.
  unfold children. unfold G' at 3. rewrite attach_nbrs_p by (try assumption; apply ac_p || apply ac_c).
  rewrite filter_app, ac_level_old by assumption.
  rewrite filter_level_old by (intros w; apply nbrs_lt).
  simpl. rewrite ac_level_new, Hd, Nat.eqb_refl. reflexivity.
Qed.

Lemma children_new : children G' next = [].
Proof.
  unfold children. unfold G' at 3. rewrite attach_nbrs_c by (try assumption; apply ac_p || apply ac_c).
  simpl. rewrite ac_level_new, ac_level_old by assumption.
  destruct (level_of G p =? S d) eqn:E; [|reflexivity].
  apply Nat.eqb_eq in E. lia.
Qed.

Lemma children_other n : n < next -> n <> p -> children G' n = children G n.
Proof.
  intros Ln Np. unfold children. unfold G' at 3.
  rewrite attach_nbrs_other by (try assumption; try apply ac_p; try apply ac_c; lia).
  rewrite ac_level_old by assumption.
  apply filter_level_old. intros w. apply nbrs_lt.
Qed.

Lemma add_child_st_inv new_level have :
  st_inv d G next new_level have ->
  st_inv d G' (S next) (new_level ++ [next])
         (fun n => if n =? p then S (have p) else have n).
Proof.
  intros I. split.
  - apply add_child_tinv.
  - intros n Ln. destruct (Nat.eq_dec n next) as [->|N].
    + rewrite ac_level_new. lia.
    + rewrite ac_level_old by lia. apply (s_levels I). lia.
  - intros n. rewrite in_app_iff, (s_new I). simpl.
    destruct (Nat.eq_dec n next) as [->|N].
    + rewrite ac_level_new. intuition lia.
    + split.
      * intros [[Ln En]|[E|[]]]; [|congruence].
        rewrite ac_level_old by assumption. split; [lia | assumption].
      * intros [Ln En]. left. rewrite ac_level_old in En by lia. split; [lia | assumption].
  - apply NoDup_snoc; [apply (s_nodup I)|].
    intros In'. apply (s_new I) in In'. lia.
  - intros n Ln El. destruct (Nat.eq_dec n next) as [->|N].
    + rewrite ac_level_new in El. lia.
    + assert (Ln' : n < next) by lia. rewrite ac_level_old in El by assumption.
      destruct (n =? p) eqn:E.
      * apply Nat.eqb_eq in E. subst n. rewrite children_p, length_app. simpl.
        rewrite (s_have I) by assumption. lia.
      * apply Nat.eqb_neq in E. rewrite children_other by assumption.
        now apply (s_have I).
  - intros n Ln El. destruct (Nat.eq_dec n next) as [->|N].
    + apply children_new.
    + assert (Ln' : n < next) by lia. rewrite ac_level_old in El by assumption.
      rewrite children_other; [now apply (s_leaf I) | assumption |].
      intros ->. lia.
Qed.
End AddChild.

(** ** The loops *)

Lemma st_inv_ext d G next new_level have have' :
  (forall n, n < next -> level_of G n < d -> have n = have' n) ->
  st_inv d G next new_level have -> st_inv d G next new_level have'.
Proof.
  intros E I. split; try apply I.
  intros n Ln El. rewrite <- E by assumption. now apply (s_have I).
Qed.

(** The innermost loop: [j] children for the node [p] of level [d - 1]. *)
Lemma for_range_add_child d p j : forall G next new_level have,
  st_inv d G next new_level have -> p < next -> d = S (level_of G p) ->
  let s' := for_range j (add_child d p) (mkState G new_level next) in
  st_inv d (st_G s') (st_next_node s') (st_new_level s')
         (fun n => if n =? p then have p + j else have n) /\
  next <= st_next_node s' /\
  (forall n, n < next -> level_of (st_G s') n = level_of G n) /\
  (forall n, next <= n < st_next_node s' -> level_of (st_G s') n = d).
Proof.
  induction j as [|j IH]; intros G next new_level have I Hp Hd; simpl.
  - split; [|split; [lia | split; [auto | intros; lia]]].
    eapply st_inv_ext; [|exact I]. intros n _ _.
    destruct (n =? p) eqn:E; [apply Nat.eqb_eq in E; subst; lia | reflexivity].
  - change (add_child d p (mkState G new_level next))
      with (mkState (add_edge p next (add_node next (Some d) G))
                    (new_level ++ [next]) (S next)).
    pose proof (add_child_st_inv G next p d (s_tinv I) Hp Hd new_level have I) as I1.
    assert (Lo : forall n, n < next ->
                  level_of (add_edge p next (add_node next (Some d) G)) n = level_of G n)
      by (intros n Ln; now apply (ac_level_old G next p d (s_tinv I) Hp)).
    destruct (IH _ _ _ _ I1) as (I2 & L2 & O2 & N2); [lia | now rewrite Lo |].
    split; [|split; [lia | split]].
    + eapply st_inv_ext; [|exact I2]. intros n _ _. simpl.
      destruct (n =? p); [rewrite Nat.eqb_refl; lia | reflexivity].
    + intros n Ln. rewrite O2 by lia. now apply Lo.
    + intros n Ln. destruct (Nat.eq_dec n next) as [->|N].
      * rewrite O2 by lia. now apply (ac_level_new G next p d (s_tinv I) Hp).
      * apply N2. lia.
Qed.

(** The loop over the current level: every node of [todo] gets its
    children. *)
Lemma fold_expand_node k d todo : forall G next new_level have,
  st_inv d G next new_level have -> NoDup todo ->
  (forall n, In n todo -> n < next /\ d = S (level_of G n)) ->
  exists s',
    fold_left (expand_node k d) todo (inr (mkState G new_level next)) = inr s' /\
    st_inv d (st_G s') (st_next_node s') (st_new_level s')
           (fun n => if mem n todo then have n + expected k (d - 1) else have n) /\
    next <= st_next_node s' /\
    (forall n, n < next -> level_of (st_G s') n = level_of G n) /\
    (forall n, next <= n < st_next_node s' -> level_of (st_G s') n = d).
Proof.
  induction todo as [|p todo IH]; intros G next new_level have I N Hall; simpl.
  - eexists. split; [reflexivity|]. simpl.
    split; [assumption|]. split; [lia|]. split; [auto | intros; lia].
  - inversion N as [|? ? Np Nt]; subst.
    destruct (Hall p (or_introl eq_refl)) as [Lp Hd].
    rewrite (t_level (s_tinv I)) by assumption. simpl.
    assert (Ec : (if level_of G p =? 0 then k else k - 1) = expected k (d - 1)).
    { unfold expected. replace (d - 1) with (level_of G p) by lia. reflexivity. }
    rewrite Ec.
    destruct (for_range_add_child d p (expected k (d - 1)) G next new_level have I Lp Hd)
      as (I1 & L1 & O1 & N1).
    destruct (for_range (expected k (d - 1)) (add_child d p) (mkState G new_level next))
      as [G1 new1 next1]. simpl in *.
    destruct (IH G1 next1 new1 _ I1 Nt) as (s' & E & I2 & L2 & O2 & N2).
    { intros n In'. destruct (Hall n (or_intror In')) as [Ln Hn].
      split; [lia|]. now rewrite O1. }
    exists s'. split; [exact E|]. split; [|split; [lia | split]].
    + eapply st_inv_ext; [|exact I2]. intros n _ _. simpl.
      change (keqb n p) with (n =? p).
      destruct (n =? p) eqn:Enp; simpl.
      * apply Nat.eqb_eq in Enp. subst n.
        assert (mem p todo = false) as -> by now apply mem_false. reflexivity.
      * reflexivity.
    + intros n Ln. rewrite O2 by lia. now apply O1.
    + intros n Ln. destruct (Nat.lt_ge_cases n next1) as [Lt|Ge].
      * rewrite O2 by assumption. apply N1. lia.
      * apply N2. lia.
Qed.

Lemma grow_level_shape k d G next cur :
  shape k d G next cur ->
  exists G' cur' next',
    grow_level k (inr (G, cur, next)) (S d) = inr (G', cur', next') /\
    shape k (S d) G' next' cur'.
Proof.
  intros I. unfold grow_level. simpl.
  assert (I0 : st_inv (S d) G next []
                      (fun n => if level_of G n <? d then expected k (level_of G n) else 0)).
  { split.
    - apply (s_tinv I).
    - intros n Ln. pose proof (s_levels I Ln). lia.
    - intros n. split; [intros [] | intros [Ln El]].
      pose proof (s_levels I Ln). lia.
    - constructor.
    - intros n Ln El. destruct (level_of G n <? d) eqn:E.
      + apply Nat.ltb_lt in E. now apply (s_have I).
      + apply Nat.ltb_ge in E. rewrite (s_leaf I Ln); [reflexivity | lia].
    - intros n Ln El. pose proof (s_levels I Ln). lia. }
  destruct (fold_expand_node k (S d) cur G next [] _ I0 (s_nodup I))
    as (s' & E & I1 & L1 & O1 & N1).
  { intros n In'. apply (s_new I) in In' as [Ln El]. split; [assumption | lia]. }
  rewrite E. simpl. exists (st_G s'), (st_new_level s'), (st_next_node s').
  split; [reflexivity|]. unfold shape.
  eapply st_inv_ext; [|exact I1]. intros n Ln El. simpl.
  destruct (Nat.lt_ge_cases n next) as [Lt|Ge].
  - rewrite O1 in * by assumption.
    destruct (mem n cur) eqn:Em.
    + apply mem_In, (s_new I) in Em as [_ Em].
      assert ((level_of G n <? d) = false) as -> by (apply Nat.ltb_ge; lia).
      rewrite Nat.sub_0_r, Em. reflexivity.
    + assert (level_of G n <> d).
      { intros Ed. apply mem_false in Em. apply Em, (s_new I). auto. }
      assert ((level_of G n <? d) = true) as -> by (apply Nat.ltb_lt; lia).
      reflexivity.
  - rewrite N1 in El by lia. lia.
Qed.

Lemma fold_grow_level k P : forall d G next cur,
  shape k d G next cur ->
  exists G' cur' next',
    fold_left (grow_level k) (seq (S d) P) (inr (G, cur, next)) = inr (G', cur', next') /\
    shape k (d + P) G' next' cur'.
Proof.
  induction P as [|P IH]; intros d G next cur I; cbn [seq fold_left].
  - exists G, cur, next. split; [reflexivity|]. now rewrite Nat.add_0_r.
  - destruct (grow_level_shape k d G next cur I) as (G1 & cur1 & next1 & E1 & I1).
    rewrite E1. destruct (IH (S d) G1 next1 cur1 I1) as (G' & cur' & next' & E & I').
    exists G', cur', next'. split; [exact E|].
    replace (d + S P) with (S d + P) by lia. exact I'.
Qed.

(** ** What the invariant says about the graph *)

Section TreeShape.
Variables (G : TGraph) (next : nat).
Hypothesis T : tinv G next.

Lemma adj_sym u v : adj G u v -> adj G v u.
Proof. apply (wf_sym (t_wf T)). Qed.

Lemma adj_lt u v : adj G u v -> u < next /\ v < next.
Proof. apply (ac_adj_lt G next T). Qed.

Lemma level_zero_root n : n < next -> level_of G n = 0 -> n = 0.
Proof.
  intros Ln E. destruct (Nat.eq_dec n 0) as [->|N]; [reflexivity|].
  pose proof (t_nonroot T Ln N). lia.
Qed.

(** Following parents leads to the root in [level] steps. *)
Lemma walk_to_root l : forall n, n < next -> level_of G n = l -> walk G n 0 l.
Proof.
  induction l as [|l IH]; intros n Ln E.
  - rewrite (level_zero_root n Ln E). constructor.
  - assert (N : n <> 0) by (intros ->; rewrite (t_root T) in E; discriminate).
    destruct (@t_parent _ _ T n Ln N) as (q & A & Eq).
    eapply walk_step; [exact A|]. apply IH; [apply (adj_lt n q A) | lia].
Qed.

(** A walk of [n] edges changes the level by at most [n]. *)
Lemma walk_level u v (n : nat) :
  walk G u v n -> level_of G v <= level_of G u + n /\ level_of G u <= level_of G v + n.
Proof.
  induction 1 as [u|u x v n A Hw IH]; [lia|].
  destruct (t_edge T _ _ A); lia.
Qed.

Lemma tree_connected : connected G.
Proof.
  intros u v Iu Iv. apply (tinv_node G next _ T) in Iu, Iv.
  apply reach_trans with 0.
  - exists (level_of G u). now apply walk_to_root.
  - exists (level_of G v). apply walk_sym; [exact adj_sym|]. now apply walk_to_root.
Qed.

Lemma tree_dist n : n < next -> dist G 0 n (level_of G n).
Proof.
  intros Ln. split.
  - apply walk_sym; [exact adj_sym|]. now apply walk_to_root.
  - intros m Hw. apply walk_level in Hw. rewrite (t_root T) in Hw. lia.
Qed.

Lemma tree_no_loop u : ~ adj G u u.
Proof. intros A. destruct (t_edge T _ _ A); lia. Qed.

(** *** No cycles *)

Lemma is_path_mid l1 : forall x y l2, is_path G (l1 ++ x :: y :: l2) -> adj G x y.
Proof.
  induction l1 as [|a l1 IH]; intros x y l2 P.
  - simpl in P. tauto.
  - apply (IH x y l2). simpl in P. destruct (l1 ++ x :: y :: l2) eqn:E.
    + destruct l1; discriminate.
    + tauto.
Qed.

(** On a cycle every node has two distinct neighbours. *)
Lemma cycle_two_neighbours l m :
  cycle G l -> In m l ->
  exists a b, a <> b /\ In a l /\ In b l /\ adj G m a /\ adj G m b.
Proof.
  intros (Len & ND & P & Cl) I. apply in_split in I as (l1 & l2 & ->).
  destruct l1 as [|h l1].
  - destruct l2 as [|x l2]; [simpl in Len; lia|].
    destruct l2 as [|y l2]; [simpl in Len; lia|]. simpl app in *.
    exists x, (last (m :: x :: y :: l2) m).
    assert (Il : In (last (y :: l2) m) (y :: l2)).
    { destruct (exists_last (l := y :: l2)) as (l' & z & E); [discriminate|].
      rewrite E, last_last. apply in_or_app. right. now left. }
    change (last (m :: x :: y :: l2) m) with (last (y :: l2) m) in *.
    inversion ND as [|? ? Nm ND1]; subst. inversion ND1 as [|? ? Nx ND2]; subst.
    repeat split.
    + intros E. apply Nx. now rewrite E.
    + right. now left.
    + right. now right.
    + apply (is_path_mid [] m x (y :: l2) P).
    + now apply adj_sym.
  - destruct (exists_last (l := h :: l1)) as (l1' & a & E1); [discriminate|].
    rewrite E1 in *. clear E1.
    assert (Pa : adj G a m).
    { apply (is_path_mid l1' a m l2). now rewrite <- app_assoc in P. }
    destruct l2 as [|x l2].
    + (* [m] is the last node: its other neighbour is the first one *)
      destruct l1' as [|h' l1'].
      * simpl in Len. lia.
      * assert (Cl' : adj G (last (((h' :: l1') ++ [a]) ++ [m]) h') h') by exact Cl.
        rewrite last_last in Cl'.
        exists a, h'. repeat split.
        -- intros E. subst h'. simpl in ND. inversion ND as [|? ? Na _]; subst.
           apply Na. apply in_or_app. left. apply in_or_app. right. now left.
        -- apply in_or_app. left. apply in_or_app. right. now left.
        -- now left.
        -- now apply adj_sym.
        -- exact Cl'.
    + exists a, x. repeat split.
      * intros E. subst x. rewrite <- app_assoc in ND. simpl in ND.
        apply NoDup_remove_2 in ND. apply ND.
        apply in_or_app. right. right. now left.
      * apply in_or_app. left. apply in_or_app. right. now left.
      * apply in_or_app. right. right. now left.
      * now apply adj_sym.
      * apply (is_path_mid (l1' ++ [a]) m x l2 P).
Qed.

Lemma max_level_elem l :
  l <> [] -> exists m, In m l /\ forall x, In x l -> level_of G x <= level_of G m.
Proof.
  induction l as [|a l IH]; [congruence|]. intros _.
  destruct l as [|b l].
  - exists a. split; [now left|]. intros x [<-|[]]. lia.
  - destruct IH as (m & Im & Hm); [discriminate|].
    destruct (le_lt_dec (level_of G a) (level_of G m)) as [L|L].
    + exists m. split; [now right|]. intros x [<-|Ix]; auto.
    + exists a. split; [now left|]. intros x [<-|Ix]; [lia|].
      specialize (Hm x Ix). lia.
Qed.

Lemma tree_acyclic : acyclic G.
Proof.
  split; [exact tree_no_loop|]. intros l C.
  assert (Ne : l <> []) by (destruct C as (Len & _); destruct l; [simpl in Len; lia | discriminate]).
  destruct (max_level_elem l Ne) as (m & Im & Hm).
  destruct (cycle_two_neighbours l m C Im) as (a & b & Nab & Ia & Ib & Aa & Ab).
  apply Nab. apply (t_unique T _ _ _ Aa Ab).
  - destruct (t_edge T _ _ Aa); [specialize (Hm a Ia); lia | assumption].
  - destruct (t_edge T _ _ Ab); [specialize (Hm b Ib); lia | assumption].
Qed.

Lemma tree_is_tree : is_tree G.
Proof. split; [apply tree_connected | apply tree_acyclic]. Qed.
End TreeShape.

(** ** The generated tree *)

Lemma root_only_neighbors u : neighbors (add_node 0 (Some 0) empty_graph : TGraph) u = [].
Proof.
  unfold neighbors. simpl. change (keqb u 0) with (u =? 0). now destruct (u =? 0).
Qed.

Lemma shape_root k : shape k 0 (add_node 0 (Some 0) empty_graph) 1 [0].
Proof.
  set (G0 := add_node 0 (Some 0) empty_graph : TGraph).
  assert (L0 : forall n, n < 1 -> n = 0) by (intros; lia).
  assert (A0 : forall u v, ~ adj G0 u v).
  { intros u v A. unfold adj, G0 in A. now rewrite root_only_neighbors in A. }
  split.
  - split.
    + apply wf_add_node, wf_empty.
    + reflexivity.
    + lia.
    + intros n Ln. rewrite (L0 n Ln). reflexivity.
    + intros u v A. now apply A0 in A.
    + intros c Lc Nc. specialize (L0 c Lc). lia.
    + intros c q q' A. now apply A0 in A.
    + reflexivity.
    + intros n Ln Nn. specialize (L0 n Ln). lia.
  - intros n Ln. rewrite (L0 n Ln). simpl. reflexivity.
  - intros n. simpl. split.
    + intros [<-|[]]. split; [lia | reflexivity].
    + intros [Ln _]. left. symmetry. now apply L0.
  - repeat constructor. intros [].
  - intros n Ln El. lia.
  - intros n Ln _. unfold children, G0. now rewrite root_only_neighbors.
Qed.

Lemma generate_shape k P :
  exists G next cur, generate_cayley_tree k P = inr G /\ shape k P G next cur.
Proof.
  destruct (fold_grow_level k P 0 _ 1 [0] (shape_root k)) as (G & cur & next & E & I).
  exists G, next, cur. split; [|exact I].
  change (generate_cayley_tree k P)
    with (rbind (fold_left (grow_level k) (seq 1 P)
                           (inr (add_node 0 (Some 0) empty_graph : TGraph, [0], 1)))
                (fun '(G, _, _) => inr G)).
  now rewrite E.
Qed.

(** C1, as the code has it.  For every [k >= 2] and every [P],
    [generate_cayley_tree k P] returns a tree (connected, without cycles).
    Its root has exactly [k] children when [P >= 1] and none when [P = 0];
    the nodes with children are those of a level below [P], and apart from
    the root each of them has exactly [k - 1]; the [level] attribute of a
    node is its distance from the root; no level exceeds [P].  For [k = 3]
    and [P = 2] there are 10 nodes, the root has degree 3 and no other node
    has a larger degree. *)
Theorem cayley_tree_shape (k P : nat) :
  2 <= k ->
  exists G,
    generate_cayley_tree k P = inr G /\
    is_tree G /\
    (1 <= P -> length (children G 0) = k) /\
    (P = 0 -> children G 0 = [] /\ nodes G = [0]) /\
    (forall n, In n (nodes G) -> (children G n <> [] <-> level_of G n < P)) /\
    (forall n, In n (nodes G) -> n <> 0 -> children G n <> [] ->
               length (children G n) = k - 1) /\
    (forall n, In n (nodes G) ->
               exists l, get_level G n = inr l /\ dist G 0 n l /\ l <= P) /\
    (k = 3 -> P = 2 ->
     number_of_nodes G = 10 /\
     Forall (fun '(n, deg) => if n =? 0 then deg = k else deg <= k) (degree G)).
Proof.
  intros Hk. destruct (generate_shape k P) as (G & next & cur & E & I).
  exists G. split; [exact E|].
  pose proof (s_tinv I) as T.
  assert (Hn : forall n, In n (nodes G) <-> n < next) by (intros; now apply tinv_node).
  assert (Hc : forall n, n < next -> level_of G n < P ->
                         length (children G n) = expected k (level_of G n))
    by (intros; now apply (s_have I)).
  split; [now apply (tree_is_tree G next)|].
  split; [|split; [|split; [|split; [|split]]]].
  - intros HP. rewrite Hc; [now rewrite (t_root T) | apply (t_next T) |].
    rewrite (t_root T). lia.
  - intros ->. split.
    + apply (s_leaf I); [apply (t_next T) | apply (t_root T)].
    + assert (next = 1); [|subst next; apply (t_nodes T)].
      destruct (Nat.eq_dec next 1) as [?|N]; [assumption|]. exfalso.
      assert (L1 : 1 < next) by (pose proof (t_next T); lia).
      pose proof (s_levels I L1) as Lv.
      pose proof (t_nonroot T L1). lia.
  - intros n In'. apply Hn in In'. split.
    + intros Nc. pose proof (s_levels I In') as Lv.
      destruct (Nat.eq_dec (level_of G n) P) as [El|Nl]; [|lia].
      exfalso. apply Nc. now apply (s_leaf I).
    + intros Ll Ec. pose proof (Hc n In' Ll) as Len. rewrite Ec in Len.
      unfold expected in Len. simpl in Len. destruct (level_of G n =? 0); lia.
  - intros n In' Nn Nc. apply Hn in In'.
    pose proof (s_levels I In') as Lv.
    destruct (Nat.eq_dec (level_of G n) P) as [El|Nl].
    + exfalso. apply Nc. now apply (s_leaf I).
    + rewrite Hc by (try assumption; lia). unfold expected.
      pose proof (t_nonroot T In' Nn).
      destruct (level_of G n =? 0) eqn:E0; [apply Nat.eqb_eq in E0; lia | reflexivity].
  - intros n In'. apply Hn in In'. exists (level_of G n).
    split; [now apply (t_level T)|]. split; [now apply (tree_dist G next)|].
    now apply (s_levels I).
  - intros -> ->. vm_compute in E. injection E as <-. split; [reflexivity|].
    repeat constructor.
Qed.

Lemma cayley_tree_shape_witness :
  exists G, generate_cayley_tree 3 2 = inr G /\ is_tree G /\ number_of_nodes G = 10.
Proof.
  assert (H32 : 2 <= 3) by lia.
  destruct (cayley_tree_shape 3 2 H32) as (G & E & Tr & _ & _ & _ & _ & _ & N).
  exists G. split; [exact E|]. split; [exact Tr|]. now apply N.
Defined.

(** C1, as stated, fails at depth 0: the loop over the levels does not run,
    the graph is the root alone, and the root has no child at all. *)
Lemma cayley_root_without_children :
  exists G, generate_cayley_tree 2 0 = inr G /\
            children G 0 = [] /\ length (children G 0) <> 2.
Proof. eexists. split; [reflexivity|]. split; [reflexivity | discriminate]. Qed.

End CayleyFacts.


(* ================================================================== *)
(** * Counting edges *)
(* ================================================================== *)

Module EdgeCountFacts.
Import Py PyFacts Nx NxFacts.
Unset Implicit Arguments.

Lemma fold_add_list_sum l : forall a, fold_left Nat.add l a = a + list_sum l.
Proof.
  induction l as [|x l IH]; intros a; simpl; [lia|]. rewrite IH. lia.
Qed.

Section DegreeSum.
Context {K : Type} `{Key K} {A : Type} `{Attrs A}.
Implicit Types (G : Graph K A) (u v w n : K).

(** The sum of the degrees, over an adjacency dictionary. *)
Let sumdeg (ad : dict K (list K)) : nat :=
  list_sum (map (fun '(n, nbrs) => degree_of n nbrs) ad).

Lemma number_of_edges_sumdeg G : number_of_edges G = sumdeg (_adj G) / 2.
Proof.
  unfold number_of_edges, sumdeg, degree. rewrite fold_add_list_sum, map_map, Nat.add_0_l.
  f_equal. f_equal. apply map_ext. now intros [n nbrs].
Qed.

Lemma sumdeg_set k x (d : dict K (list K)) :
  sumdeg (dict_set k x d)
  + match dict_get k d with Some o => degree_of k o | None => 0 end
  = sumdeg d + degree_of k x.
Proof.
  unfold sumdeg. induction d as [|[k' x'] d IH]; simpl; [lia|].
  destruct (keqb_dec k k') as [[-> ->]|[N ->]]; simpl; lia.
Qed.

Lemma adj_get G n :
  keys_ok G -> In n (nodes G) -> dict_get n (_adj G) = Some (neighbors G n).
Proof.
  unfold keys_ok, nodes, neighbors. intros E I. rewrite <- E in I.
  apply dict_keys_get in I as [l ->]. reflexivity.
Qed.

Lemma adj_get_None G n :
  keys_ok G -> ~ In n (nodes G) -> dict_get n (_adj G) = None.
Proof.
  unfold keys_ok, nodes. intros E I. rewrite <- E in I. now apply dict_get_None.
Qed.

Lemma sumdeg_add_node n a G :
  keys_ok G -> sumdeg (_adj (add_node n a G)) = sumdeg (_adj G).
Proof.
  intros E. unfold add_node. destruct (dict_get n (_node G)) eqn:D; [reflexivity|].
  simpl. apply dict_get_None in D.
  pose proof (sumdeg_set n [] (_adj G)) as S.
  rewrite (adj_get_None G n E D) in S. unfold degree_of in S at 1. simpl in S. lia.
Qed.

Lemma sumdeg_touch n G :
  keys_ok G -> sumdeg (_adj (touch_node n G)) = sumdeg (_adj G).
Proof.
  intros E. unfold touch_node. destruct (has_node G n) eqn:D; [reflexivity|].
  simpl. apply has_node_false in D.
  pose proof (sumdeg_set n [] (_adj G)) as S.
  rewrite (adj_get_None G n E D) in S. unfold degree_of in S at 1. simpl in S. lia.
Qed.

Lemma degree_of_snoc n v l :
  degree_of n (l ++ [v]) = degree_of n l + 1 + (if keqb n v then (if mem n l then 0 else 1) else 0).
Proof.
  unfold degree_of. rewrite length_app, mem_app. simpl. rewrite orb_false_r.
  destruct (mem n l), (keqb n v); simpl; lia.
Qed.

(** A new edge adds two to the sum of the degrees, a loop included. *)
Lemma sumdeg_add_edge u v G :
  wf G -> ~ In v (neighbors G u) ->
  sumdeg (_adj (add_edge u v G)) = sumdeg (_adj G) + 2.
Proof.
  intros W I. pose proof (wf_keys W) as E.
  set (G2 := touch_node v (touch_node u G)).
  assert (E2 : keys_ok G2) by now apply keys_ok_touch, keys_ok_touch.
  assert (N2 : forall n, neighbors G2 n = neighbors G n).
  { intros n. unfold G2. rewrite neighbors_touch by now apply keys_ok_touch.
    now apply neighbors_touch. }
  assert (Iu : In u (nodes G2)) by (apply touch_In; right; apply touch_In; now left).
  assert (Iv : In v (nodes G2)) by (apply touch_In; now left).
  assert (S2 : sumdeg (_adj G2) = sumdeg (_adj G)).
  { unfold G2. rewrite sumdeg_touch by now apply keys_ok_touch. now apply sumdeg_touch. }
  unfold add_edge. fold G2. cbv zeta. cbn [_adj].
  set (adj1 := dict_set u (nbr_add v (neighbors G2 u)) (_adj G2)).
  pose proof (sumdeg_set u (nbr_add v (neighbors G2 u)) (_adj G2)) as S1.
  fold adj1 in S1. rewrite (adj_get G2 u E2 Iu), N2 in S1.
  rewrite nbr_add_absent in S1 by assumption.
  rewrite degree_of_snoc in S1.
  destruct (keqb_dec u v) as [[<- Euv]|[Nuv Euv]]; rewrite Euv in S1.
  - assert (Mu : mem u (neighbors G u) = false) by now apply mem_false.
    rewrite Mu in S1.
    assert (D1 : dict_get u adj1 = Some (neighbors G u ++ [u])).
    { unfold adj1. rewrite dict_get_set_same, N2. now rewrite nbr_add_absent. }
    rewrite D1. rewrite nbr_add_present by (apply in_or_app; right; now left).
    rewrite dict_set_same_value by exact D1. lia.
  - assert (D1 : dict_get v adj1 = Some (neighbors G v)).
    { unfold adj1. rewrite dict_get_set_other by assumption.
      now rewrite (adj_get G2 v E2 Iv), N2. }
    rewrite D1.
    pose proof (sumdeg_set v (nbr_add u (neighbors G v)) adj1) as S3.
    rewrite D1 in S3.
    assert (Iu' : ~ In u (neighbors G v)) by (intros J; apply I; now apply (wf_sym W)).
    rewrite nbr_add_absent in S3 |- * by assumption.
    rewrite degree_of_snoc in S3.
    assert (Evu : keqb v u = false) by (apply keqb_neq; congruence).
    rewrite Evu in S3. lia.
Qed.

Lemma number_of_edges_add_node n a G :
  keys_ok G -> number_of_edges (add_node n a G) = number_of_edges G.
Proof. intros E. now rewrite !number_of_edges_sumdeg, sumdeg_add_node. Qed.

Lemma number_of_edges_add_edge u v G :
  wf G -> ~ In v (neighbors G u) ->
  number_of_edges (add_edge u v G) = S (number_of_edges G).
Proof.
  intros W I. rewrite !number_of_edges_sumdeg, sumdeg_add_edge by assumption.
  replace (sumdeg (_adj G) + 2) with (sumdeg (_adj G) + 1 * 2) by lia.
  rewrite Nat.div_add by lia. lia.
Qed.

Lemma number_of_nodes_length G : number_of_nodes G = length (nodes G).
Proof. unfold number_of_nodes, nodes, dict_keys. now rewrite length_map. Qed.

(** The degrees, node by node. *)
Lemma degree_by_keys (d : dict K (list K)) :
  NoDup (dict_keys d) ->
  map (fun '(n, nbrs) => (n, degree_of n nbrs)) d
  = map (fun n => (n, degree_of n (match dict_get n d with
                                   | Some l => l | None => [] end)))
        (dict_keys d).
Proof.
  induction d as [|[k x] d IH]; simpl; intros N; [reflexivity|].
  inversion N as [|? ? Nk Nd]; subst. rewrite keqb_refl. f_equal.
  rewrite IH by assumption. apply map_ext_in. intros n In'.
  destruct (keqb_dec n k) as [[-> _]|[_ ->]]; [contradiction | reflexivity].
Qed.

Lemma degree_by_nodes G :
  wf G -> degree G = map (fun n => (n, degree_of n (neighbors G n))) (nodes G).
Proof.
  intros W. pose proof (wf_keys W) as E. pose proof (wf_nodup W) as N.
  unfold nodes. rewrite <- E in N |- *. now apply degree_by_keys.
Qed.
End DegreeSum.

End EdgeCountFacts.

(* ================================================================== *)
(** * The Cayley tree, label by label *)
(* ================================================================== *)

Module CayleyLabels.
Import Py PyFacts Nx NxFacts CayleyTree CayleyFacts EdgeCountFacts.
Unset Implicit Arguments.

(** ** Sizes *)

Lemma level_size_S k d : level_size k (S d) = level_size k d * expected k d.
Proof.
  destruct d as [|d]; simpl.
  - unfold expected. simpl. lia.
  - unfold expected. simpl. lia.
Qed.

Lemma level_start_le k d d' : d <= d' -> level_start k d <= level_start k d'.
Proof. induction 1; simpl; lia. Qed.

Lemma level_start_lt k d d' i :
  d < d' -> i < level_size k d -> level_start k d + i < level_start k d'.
Proof.
  intros L I. pose proof (level_start_le k (S d) d' L) as M. simpl in M. lia.
Qed.

(** Every label below [level_start k (S P)] is the [i]-th of some level. *)
Lemma label_level k P n :
  n < level_start k (S P) ->
  exists d i, d <= P /\ i < level_size k d /\ n = level_start k d + i.
Proof.
  induction P as [|P IH]; intros L.
  - exists 0, n. simpl in *. lia.
  - destruct (Nat.lt_ge_cases n (level_start k (S P))) as [Lt|Ge].
    + destruct (IH Lt) as (d & i & Hd & Hi & E). exists d, i. repeat split; auto.
    + exists (S P), (n - level_start k (S P)). change (level_start k (S (S P)))
        with (level_start k (S P) + level_size k (S P)) in L. repeat split; lia.
Qed.

(** The levels of two labels that coincide. *)
Lemma label_unique k d d' i i' :
  i < level_size k d -> i' < level_size k d' ->
  level_start k d + i = level_start k d' + i' -> d = d' /\ i = i'.
Proof.
  intros I I' E. destruct (Nat.lt_trichotomy d d') as [L|[->|L]].
  - pose proof (level_start_lt k d d' i L I). lia.
  - split; [reflexivity | lia].
  - pose proof (level_start_lt k d' d i' L I'). lia.
Qed.

Lemma tree_size_closed k P : 2 <= k -> (k - 2) * tree_size k P + 2 = k * (k - 1) ^ P.
Proof.
  intros Hk. unfold tree_size. induction P as [|P IH].
  - simpl. lia.
  - change (level_start k (S (S P))) with (level_start k (S P) + level_size k (S P)).
    cbn [level_size]. rewrite Nat.pow_succ_r'.
    set (x := (k - 1) ^ P) in *. set (t := level_start k (S P)) in *.
    clearbody x t. destruct k as [|[|j]]; [lia | lia |].
    replace (S (S j) - 2) with j in * by lia.
    replace (S (S j) - 1) with (S j) in * by lia.
    rewrite Nat.mul_add_distr_l.
    replace (S (S j) * (S j * x)) with (S (S j) * x + j * (S (S j) * x)) by ring.
    lia.
Qed.

(** ** Attaching a leaf adds one edge *)

Lemma attach_edges (G : TGraph) p c d :
  wf G -> In p (nodes G) -> ~ In c (nodes G) ->
  number_of_edges (add_edge p c (add_node c (Some d) G)) = S (number_of_edges G).
Proof.
  intros W Ip Ic. rewrite number_of_edges_add_edge.
  - now rewrite number_of_edges_add_node by apply (wf_keys W).
  - now apply wf_add_node.
  - rewrite neighbors_add_node by apply (wf_keys W).
    intros I. apply Ic. eapply wf_neighbor_node; eauto.
Qed.

(** ** The innermost loop *)

Lemma for_range_explicit D p j : forall (G : TGraph) next nl,
  wf G -> nodes G = seq 0 next -> p < next ->
  let s' := for_range j (add_child D p) (mkState G nl next) in
  wf (st_G s') /\ nodes (st_G s') = seq 0 (next + j) /\
  st_next_node s' = next + j /\
  st_new_level s' = nl ++ seq next j /\
  number_of_edges (st_G s') = number_of_edges G + j /\
  (forall n, n < next -> get_level (st_G s') n = get_level G n) /\
  (forall c, next <= c < next + j ->
             get_level (st_G s') c = inr D /\ neighbors (st_G s') c = [p]) /\
  neighbors (st_G s') p = neighbors G p ++ seq next j /\
  (forall n, n < next -> n <> p -> neighbors (st_G s') n = neighbors G n).
Proof.
  induction j as [|j IH]; intros G next nl W N Lp; cbn [for_range].
  - cbn [st_G st_next_node st_new_level]. rewrite !Nat.add_0_r, !app_nil_r.
    split; [assumption|]. split; [assumption|]. split; [reflexivity|].
    split; [reflexivity|]. split; [reflexivity|]. split; [auto|].
    split; [intros; lia|]. split; [reflexivity | auto].
  - change (add_child D p (mkState G nl next))
      with (mkState (add_edge p next (add_node next (Some D) G))
                    (nl ++ [next]) (S next)).
    set (G1 := add_edge p next (add_node next (Some D) G)).
    assert (Ip : In p (nodes G)) by (rewrite N; apply in_seq; lia).
    assert (Ic : ~ In next (nodes G)) by (rewrite N, in_seq; lia).
    assert (Old : forall n, n < next -> In n (nodes G)) by (intros; rewrite N; apply in_seq; lia).
    assert (W1 : wf G1) by now apply attach_wf.
    assert (N1 : nodes G1 = seq 0 (S next)).
    { unfold G1. rewrite attach_nodes by assumption. now rewrite N, seq_S. }
    destruct (IH G1 (S next) (nl ++ [next]) W1 N1 ltac:(lia))
      as (W' & N' & X' & L' & E' & O' & C' & P' & R').
    set (s' := for_range j (add_child D p) (mkState G1 (nl ++ [next]) (S next))) in *.
    split; [assumption|]. split; [now rewrite N', Nat.add_succ_r|].
    split; [lia|]. split; [now rewrite L', <- app_assoc|].
    split; [rewrite E'; unfold G1; rewrite attach_edges by assumption; lia|].
    split; [|split; [|split]].
    + intros n Ln. rewrite O' by lia. unfold G1. apply attach_level_old; auto.
    + intros c Lc. destruct (Nat.eq_dec c next) as [->|Nc].
      * split.
        -- rewrite O' by lia. unfold G1. now apply attach_level_new.
        -- rewrite R' by lia. unfold G1. now apply attach_nbrs_c.
      * apply C'. lia.
    + rewrite P'. unfold G1. rewrite attach_nbrs_p by assumption.
      now rewrite <- app_assoc.
    + intros n Ln Np. rewrite R' by lia. unfold G1. apply attach_nbrs_other; auto. lia.
Qed.

(** ** The loop over one level *)

Lemma fold_expand_explicit k D e todo : forall (G : TGraph) next nl,
  wf G -> nodes G = seq 0 next -> NoDup todo ->
  (forall p, In p todo ->
             p < next /\ exists l, get_level G p = inr l /\ expected k l = e) ->
  exists s',
    fold_left (expand_node k D) todo (inr (mkState G nl next)) = inr s' /\
    wf (st_G s') /\ nodes (st_G s') = seq 0 (st_next_node s') /\
    st_next_node s' = next + length todo * e /\
    st_new_level s' = nl ++ seq next (length todo * e) /\
    number_of_edges (st_G s') = number_of_edges G + length todo * e /\
    (forall n, n < next -> get_level (st_G s') n = get_level G n) /\
    (forall c, next <= c < next + length todo * e -> get_level (st_G s') c = inr D) /\
    (forall t, t < length todo ->
               neighbors (st_G s') (nth t todo 0)
               = neighbors G (nth t todo 0) ++ seq (next + t * e) e) /\
    (forall n, n < next -> ~ In n todo -> neighbors (st_G s') n = neighbors G n) /\
    (forall q, q < length todo * e ->
               neighbors (st_G s') (next + q) = [nth (q / e) todo 0]).
Proof.
  induction todo as [|p todo IH]; intros G next nl W N ND Hall.
  - exists (mkState G nl next). cbn [fold_left length st_G st_next_node st_new_level].
    rewrite Nat.mul_0_l, !Nat.add_0_r, app_nil_r.
    split; [reflexivity|]. split; [assumption|]. split; [assumption|].
    split; [reflexivity|]. split; [reflexivity|]. split; [reflexivity|].
    split; [auto|]. split; [intros; lia|]. split; [intros; lia|].
    split; [auto | intros; lia].
  - inversion ND as [|? ? Np Nt]; subst.
    destruct (Hall p (or_introl eq_refl)) as (Lp & l & El & Ee).
    cbn [fold_left].
    assert (Step : expand_node k D (inr (mkState G nl next)) p
                   = inr (for_range e (add_child D p) (mkState G nl next))).
    { unfold expand_node. cbn [rbind st_G]. rewrite El. cbn [rbind].
      unfold expected in Ee. now rewrite Ee. }
    rewrite Step. clear Step.
    destruct (for_range_explicit D p e G next nl W N Lp)
      as (W1 & N1 & X1 & L1 & E1 & O1 & C1 & P1 & R1).
    destruct (for_range e (add_child D p) (mkState G nl next)) as [G1 nl1 next1] eqn:Es.
    cbn [st_G st_next_node st_new_level] in *. subst next1 nl1.
    destruct (IH G1 (next + e) (nl ++ seq next e) W1 N1 Nt)
      as (s' & F & W' & N' & X' & L' & E' & O' & C' & T' & R' & Q').
    { intros q Iq. destruct (Hall q (or_intror Iq)) as (Lq & l' & El' & Ee').
      split; [lia|]. exists l'. split; [|assumption]. now rewrite O1. }
    exists s'. split; [exact F|]. cbn [length].
    assert (Len : S (length todo) * e = e + length todo * e) by lia.
    split; [assumption|]. split; [assumption|]. split; [lia|].
    split; [rewrite L', <- app_assoc, <- seq_app; f_equal; f_equal; lia|].
    split; [lia|]. split; [|split; [|split; [|split]]].
    + intros n Ln. rewrite O' by lia. now apply O1.
    + intros c Lc. destruct (Nat.lt_ge_cases c (next + e)) as [Lt|Ge].
      * rewrite O' by assumption. apply C1. lia.
      * apply C'. lia.
    + intros [|t] Lt; cbn [nth].
      * rewrite R'; [|lia|assumption]. now rewrite P1, Nat.mul_0_l, Nat.add_0_r.
      * assert (Lt' : t < length todo) by lia.
        rewrite (T' t Lt').
        assert (It : In (nth t todo 0) todo) by now apply nth_In.
        destruct (Hall _ (or_intror It)) as (Lq & _).
        rewrite R1; [|assumption | intros <-; contradiction].
        f_equal. f_equal. lia.
    + intros n Ln Nn. rewrite R'; [|lia | intros J; apply Nn; now right].
      apply R1; [assumption | intros ->; apply Nn; now left].
    + intros q Lq. destruct (Nat.lt_ge_cases q e) as [Lt|Ge].
      * rewrite Nat.div_small by assumption. cbn [nth].
        rewrite R'; [|lia|].
        -- apply C1. lia.
        -- intros I. destruct (Hall _ (or_intror I)). lia.
      * assert (He : 0 < e) by lia.
        replace (next + q) with (next + e + (q - e)) by lia.
        rewrite Q' by lia.
        replace q with ((q - e) + 1 * e) at 2 by lia.
        rewrite Nat.div_add by lia. now rewrite Nat.add_1_r.
Qed.

(** ** One level, and all of them *)

Lemma lab_inv_root k : lab_inv k 0 (add_node 0 (Some 0) empty_graph) [0] 1.
Proof.
  split; try reflexivity.
  - apply wf_add_node, wf_empty.
  - intros d' i Hd Hi. assert (d' = 0) as -> by lia. simpl in Hi.
    assert (i = 0) as -> by lia. reflexivity.
  - intros d' i Hd. lia.
  - intros i Hi. simpl in Hi. assert (i = 0) as -> by lia. reflexivity.
Qed.

Lemma grow_level_lab k d G cur next :
  lab_inv k d G cur next ->
  exists G' cur' next',
    grow_level k (inr (G, cur, next)) (S d) = inr (G', cur', next') /\
    lab_inv k (S d) G' cur' next'.
Proof.
  intros I. pose proof (l_next I) as En. pose proof (l_cur I) as Ec.
  set (e := expected k d). set (m := level_size k d).
  assert (Lc : length cur = m) by (rewrite Ec; apply length_seq).
  assert (Nth : forall t, t < m -> nth t cur 0 = level_start k d + t).
  { intros t Lt. rewrite Ec. now apply seq_nth. }
  assert (Es : next = level_start k d + m) by (rewrite En; reflexivity).
  destruct (fold_expand_explicit k (S d) e cur G next [] (l_wf I) (l_nodes I))
    as (s' & F & W' & N' & X' & L' & E' & O' & C' & T' & R' & Q').
  { rewrite Ec. apply seq_NoDup. }
  { intros p Ip. rewrite Ec in Ip. apply in_seq in Ip. split; [fold m in Ip; lia|].
    exists d. split; [|reflexivity].
    replace p with (level_start k d + (p - level_start k d)) by lia.
    apply (l_level I); [lia | fold m in Ip |- *; lia]. }
  unfold grow_level. cbn [rbind]. rewrite F. cbn [rbind].
  exists (st_G s'), (st_new_level s'), (st_next_node s'). split; [reflexivity|].
  rewrite Lc in *.
  assert (Sz : level_size k (S d) = m * e) by apply level_size_S.
  split.
  - assumption.
  - assumption.
  - rewrite X'. change (level_start k (S (S d)))
      with (level_start k (S d) + level_size k (S d)). rewrite Sz. lia.
  - rewrite L'. cbn [app]. rewrite Sz. f_equal. lia.
  - intros d' i Hd Hi. destruct (Nat.eq_dec d' (S d)) as [->|Nd].
    + apply C'. rewrite Sz in Hi. rewrite <- En. lia.
    + rewrite O'.
      * apply (l_level I); [lia | assumption].
      * rewrite En. apply level_start_lt; [lia | assumption].
  - rewrite E', (l_edges I), X'. pose proof (l_next I). 
    pose proof (level_start_le k 1 (S d) ltac:(lia)) as M.
    change (level_start k 1) with 1 in M. lia.
  - intros d' i Hd Hi. destruct (Nat.eq_dec d' d) as [->|Nd].
    + fold m in Hi. rewrite <- (Nth i Hi), (T' i Hi), (Nth i Hi).
      rewrite (l_leaf I) by assumption. rewrite <- En. reflexivity.
    + rewrite R'.
      * apply (l_done I); [lia | assumption].
      * rewrite En. apply level_start_lt; [lia | assumption].
      * rewrite Ec, in_seq. pose proof (level_start_lt k d' d i ltac:(lia) Hi). lia.
  - intros i Hi. rewrite Sz in Hi. rewrite <- En, (Q' i Hi).
    cbn [parent_of]. fold e. f_equal. apply Nth.
    apply Nat.Div0.div_lt_upper_bound. lia.
Qed.

Lemma fold_grow_lab k P : forall d G cur next,
  lab_inv k d G cur next ->
  exists G' cur' next',
    fold_left (grow_level k) (seq (S d) P) (inr (G, cur, next)) = inr (G', cur', next') /\
    lab_inv k (d + P) G' cur' next'.
Proof.
  induction P as [|P IH]; intros d G cur next I; cbn [seq fold_left].
  - exists G, cur, next. split; [reflexivity|]. now rewrite Nat.add_0_r.
  - destruct (grow_level_lab k d G cur next I) as (G1 & cur1 & next1 & E1 & I1).
    rewrite E1. destruct (IH (S d) G1 cur1 next1 I1) as (G' & cur' & next' & E & I').
    exists G', cur', next'. split; [exact E|].
    replace (d + S P) with (S d + P) by lia. exact I'.
Qed.

Lemma generate_lab k P :
  exists G cur, generate_cayley_tree k P = inr G /\ lab_inv k P G cur (tree_size k P).
Proof.
  destruct (fold_grow_lab k P 0 _ [0] 1 (lab_inv_root k)) as (G & cur & next & E & I).
  exists G, cur. 
  change (generate_cayley_tree k P)
    with (rbind (fold_left (grow_level k) (seq 1 P)
                           (inr (add_node 0 (Some 0) empty_graph : TGraph, [0], 1)))
                (fun '(G, _, _) => inr G)).
  rewrite E. split; [reflexivity|]. simpl in I.
  pose proof (l_next I) as En. unfold tree_size. now rewrite <- En.
Qed.

End CayleyLabels.

Module CayleyCounts.
Import Py PyFacts Nx NxFacts CayleyTree CayleyFacts EdgeCountFacts CayleyLabels.
Import DistributionFacts.
Unset Implicit Arguments.

Lemma generate_lab_of k P G :
  generate_cayley_tree k P = inr G ->
  exists cur, lab_inv k P G cur (tree_size k P).
Proof.
  intros E. destruct (generate_lab k P) as (G' & cur & E' & I).
  rewrite E in E'. injection E' as <-. now exists cur.
Qed.

Lemma generate_tinv_of k P G :
  generate_cayley_tree k P = inr G -> exists next, tinv G next.
Proof.
  intros E. destruct (generate_shape k P) as (G' & next & cur & E' & I).
  rewrite E in E'. injection E' as <-. exists next. apply (s_tinv I).
Qed.

(** X1: the size of the tree.  For every [k] and [P] the generator returns
    a graph (it never raises) whose nodes are the labels [0 .. n-1] in this
    order, with [n = 1 + k + k(k-1) + ... + k(k-1)^(P-1)]; it has [n - 1]
    edges; and for [k >= 2] the count has the closed form
    [(k - 2) n + 2 = k (k-1)^P]. *)
Theorem cayley_tree_size (k P : nat) :
  exists G,
    generate_cayley_tree k P = inr G /\
    nodes G = seq 0 (tree_size k P) /\
    number_of_nodes G = tree_size k P /\
    number_of_edges G = tree_size k P - 1 /\
    tree_size k P = list_sum (map (level_size k) (seq 0 (S P))) /\
    (2 <= k -> (k - 2) * number_of_nodes G + 2 = k * (k - 1) ^ P).
Proof.
  destruct (generate_lab k P) as (G & cur & E & I). exists G.
  assert (N : number_of_nodes G = tree_size k P).
  { rewrite number_of_nodes_length, (l_nodes I). apply length_seq. }
  split; [exact E|]. split; [apply (l_nodes I)|]. split; [exact N|].
  split; [apply (l_edges I)|]. split.
  - unfold tree_size. generalize (S P). intros d. induction d as [|d IH].
    + reflexivity.
    + rewrite seq_S, map_app, list_sum_app. simpl. rewrite <- IH. lia.
  - intros Hk. rewrite N. now apply tree_size_closed.
Qed.

(** X2: labels are handed out level by level.  In the generated tree the
    nodes whose [level] attribute is [d] are exactly the [level_size k d]
    consecutive labels from [level_start k d] on, for every [d <= P]; no
    other level occurs. *)
Theorem cayley_levels_by_label (k P : nat) (G : TGraph) :
  generate_cayley_tree k P = inr G ->
  forall n d,
    (In n (nodes G) /\ get_level G n = inr d) <->
    (d <= P /\ level_start k d <= n < level_start k (S d)).
Proof.
  intros E n d. destruct (generate_lab_of k P G E) as (cur & I).
  rewrite (l_nodes I), in_seq. unfold tree_size. split.
  - intros [Ln El]. destruct (label_level k P n) as (d' & i & Hd & Hi & ->); [lia|].
    rewrite (l_level I) in El by assumption. injection El as <-.
    split; [assumption|]. simpl. lia.
  - intros [Hd Hn]. simpl in Hn. split.
    + pose proof (level_start_le k (S d) (S P) ltac:(lia)). simpl in *. lia.
    + replace n with (level_start k d + (n - level_start k d)) by lia.
      apply (l_level I); [assumption | lia].
Qed.

Lemma cayley_levels_by_label_witness :
  exists G, generate_cayley_tree 3 2 = inr G /\ get_level G 7 = inr 2.
Proof.
  destruct (generate_cayley_tree 3 2) as [e|G] eqn:E.
  - vm_compute in E. discriminate.
  - exists G. split; [reflexivity|].
    apply (cayley_levels_by_label 3 2 G E 7 2). simpl. lia.
Defined.

(** X3: the adjacency lists of the generated tree.  The [i]-th node of
    level [d] has as neighbours, in this order, its parent (the node number
    [i / (k-1)] of the level above, or the root for level 1; none for the
    root itself) and then its children, which are consecutive labels; a
    node of level [P] has no children. *)
Theorem cayley_adjacency (k P : nat) (G : TGraph) :
  generate_cayley_tree k P = inr G ->
  forall d i, d <= P -> i < level_size k d ->
    neighbors G (level_start k d + i) = parent_of k d i ++ children_of k P d i.
Proof.
  intros E d i Hd Hi. destruct (generate_lab_of k P G E) as (cur & I).
  unfold children_of. destruct (d <? P) eqn:L.
  - apply Nat.ltb_lt in L. now apply (l_done I).
  - apply Nat.ltb_ge in L. assert (d = P) as -> by lia.
    rewrite app_nil_r. now apply (l_leaf I).
Qed.

Lemma cayley_adjacency_witness :
  exists G, generate_cayley_tree 3 2 = inr G /\ neighbors G 2 = [0; 6; 7].
Proof.
  destruct (generate_cayley_tree 3 2) as [e|G] eqn:E.
  - vm_compute in E. discriminate.
  - exists G. split; [reflexivity|].
    apply (cayley_adjacency 3 2 G E 1 1); simpl; lia.
Defined.

(** ** Degrees *)

Lemma map_const {X Y} (f : X -> Y) c l :
  (forall x, In x l -> f x = c) -> map f l = repeat c (length l).
Proof.
  induction l as [|x l IH]; intros E; simpl; [reflexivity|].
  rewrite (E x) by now left. rewrite IH; [reflexivity|]. intros y Iy. apply E. now right.
Qed.

Lemma sorted_pair (x : list nat) a b :
  StronglySorted lt x -> (forall d, In d x <-> d = a \/ d = b) -> a < b -> x = [a; b].
Proof.
  intros S M L.
  assert (Ia : In a x) by (apply M; now left).
  assert (Ib : In b x) by (apply M; now right).
  destruct x as [|h1 x]; [destruct Ia|].
  inversion S as [|? ? S1 F1]; subst. rewrite Forall_forall in F1.
  assert (h1 = a) as ->.
  { destruct (proj1 (M h1) (or_introl eq_refl)) as [->| ->]; [reflexivity|].
    destruct Ia as [->|Ia]; [reflexivity|]. specialize (F1 a Ia). lia. }
  destruct Ib as [->|Ib]; [lia|].
  destruct x as [|h2 x]; [destruct Ib|].
  inversion S1 as [|? ? S2 F2]; subst. rewrite Forall_forall in F2.
  assert (h2 = b) as ->.
  { destruct (proj1 (M h2) (or_intror (or_introl eq_refl))) as [->| ->]; [|reflexivity].
    specialize (F1 a (or_introl eq_refl)). lia. }
  destruct x as [|h3 x]; [reflexivity|]. exfalso.
  pose proof (F2 h3 (or_introl eq_refl)).
  pose proof (F1 h3 (or_intror (or_introl eq_refl))).
  destruct (proj1 (M h3) (or_intror (or_intror (or_introl eq_refl)))); lia.
Qed.

(** The degree of every node of the generated tree, for [P >= 1]. *)
Lemma cayley_degree_of k P G n :
  1 <= P -> generate_cayley_tree k P = inr G -> n < tree_size k P ->
  degree_of n (neighbors G n) = (if n <? level_start k P then k else 1) /\
  (level_of G n <? P) = (n <? level_start k P).
Proof.
  intros HP E Ln. destruct (generate_lab_of k P G E) as (cur & I).
  destruct (generate_tinv_of k P G E) as (next & T).
  destruct (label_level k P n Ln) as (d & i & Hd & Hi & ->).
  assert (Lv : level_of G (level_start k d + i) = d).
  { unfold level_of. now rewrite (l_level I). }
  assert (M : mem (level_start k d + i) (neighbors G (level_start k d + i)) = false).
  { apply mem_false. apply (tree_no_loop G next T). }
  unfold degree_of. rewrite M, Nat.add_0_r, Lv.
  destruct (Nat.eq_dec d P) as [->|Nd].
  - assert ((level_start k P + i <? level_start k P) = false) as -> by (apply Nat.ltb_ge; lia).
    rewrite Nat.ltb_irrefl. split; [|reflexivity].
    rewrite (l_leaf I) by assumption. destruct P; [lia | reflexivity].
  - assert (Ld : d < P) by lia.
    pose proof (level_start_lt k d P i Ld Hi).
    assert ((level_start k d + i <? level_start k P) = true) as -> by now apply Nat.ltb_lt.
    assert ((d <? P) = true) as -> by now apply Nat.ltb_lt.
    split; [|reflexivity].
    rewrite (l_done I) by assumption. rewrite length_app, length_seq.
    destruct d as [|d]; [reflexivity|]. cbn [parent_of length expected Nat.eqb].
    destruct k; [simpl in Hi; lia | lia].
Qed.

(** X4: the degree distribution of the generated tree.  For [k >= 2] and
    [P >= 1] every node above level [P] has degree [k] and every node of
    level [P] has degree 1, so that [plot_degree_distribution] produces
    exactly two bars: at 1 the fraction of leaves, at [k] the fraction of
    all other nodes. *)
Theorem cayley_degree_histogram (k P : nat) (G : TGraph) :
  2 <= k -> 1 <= P -> generate_cayley_tree k P = inr G ->
  (forall n deg, In (n, deg) (degree G) ->
                 deg = if level_of G n <? P then k else 1) /\
  exists a b,
    plot_degree_distribution G = inr ([1; k], [a; b]) /\
    (a == inject_Z (Z.of_nat (level_size k P)) / inject_Z (Z.of_nat (tree_size k P)))%Q /\
    (b == inject_Z (Z.of_nat (level_start k P)) / inject_Z (Z.of_nat (tree_size k P)))%Q.
Proof.
  intros Hk HP E. destruct (generate_lab_of k P G E) as (cur & I).
  pose proof (l_wf I) as W. pose proof (l_nodes I) as N.
  assert (Dg : degree G = map (fun n => (n, if n <? level_start k P then k else 1))
                              (seq 0 (tree_size k P))).
  { rewrite degree_by_nodes, N by assumption. apply map_ext_in. intros n In'.
    apply in_seq in In'. f_equal. apply (cayley_degree_of k P G n HP E). lia. }
  split.
  - intros n deg In'. rewrite Dg in In'. apply in_map_iff in In' as (n' & [= <- <-] & In').
    apply in_seq in In'.
    destruct (cayley_degree_of k P G n' HP E ltac:(lia)) as [_ ->]. reflexivity.
  - set (A := level_start k P). set (B := level_size k P).
    assert (TS : tree_size k P = A + B) by reflexivity.
    assert (HA : 1 <= A).
    { pose proof (level_start_le k 1 P HP) as M. exact M. }
    assert (HB : 1 <= B).
    { unfold B. destruct P as [|P']; [lia|]. simpl.
      assert (0 < (k - 1) ^ P') by (apply Nat.neq_0_lt_0, Nat.pow_nonzero; lia). nia. }
    assert (Ds : map snd (degree G) = repeat k A ++ repeat 1 B).
    { rewrite Dg, map_map. cbn [snd]. rewrite TS, seq_app, map_app. f_equal.
      - rewrite (map_const _ k); [now rewrite length_seq|].
        intros x Ix. apply in_seq in Ix.
        assert ((x <? level_start k P) = true) as -> by (apply Nat.ltb_lt; fold A; lia).
        reflexivity.
      - rewrite (map_const _ 1); [now rewrite length_seq|].
        intros x Ix. apply in_seq in Ix.
        assert ((x <? level_start k P) = false) as -> by (apply Nat.ltb_ge; fold A; lia).
        reflexivity. }
    set (degrees := map snd (degree G)) in *.
    assert (D : degrees <> []).
    { rewrite Ds. destruct A; [lia | discriminate]. }
    assert (Mem : forall d, In d degrees <-> d = 1 \/ d = k).
    { intros d. rewrite Ds, in_app_iff. split.
      - intros [J|J]; apply repeat_spec in J; auto.
      - intros [-> | ->].
        + right. destruct B; [lia | now left].
        + left. destruct A; [lia | now left]. }
    destruct (count_degrees_spec degrees) as (ND & G0 & K0 & S0).
    assert (X : sorted (dict_keys (count_degrees degrees)) = [1; k]).
    { apply sorted_pair; [now apply sorted_strict | | lia].
      intros d. rewrite <- Mem. apply (x_keys degrees). }
    assert (Len : length degrees = tree_size k P).
    { rewrite Ds, length_app, !repeat_length. lia. }
    unfold plot_degree_distribution. fold degrees.
    rewrite <- (degrees_length G W). fold degrees.
    rewrite (fractions_rmap _ D). cbn [rbind]. rewrite X. cbn [map].
    eexists. eexists. split; [reflexivity|].
    unfold frac. rewrite !G0, Len, Ds, !count_occ_app.
    rewrite (count_occ_repeat_neq Nat.eq_dec) by lia.
    rewrite !(count_occ_repeat_eq Nat.eq_dec) by reflexivity.
    rewrite (count_occ_repeat_neq Nat.eq_dec) by lia.
    rewrite Nat.add_0_l, Nat.add_0_r. split; reflexivity.
Qed.

Lemma cayley_degree_histogram_witness :
  exists G a b,
    generate_cayley_tree 3 2 = inr G /\
    plot_degree_distribution G = inr ([1; 3], [a; b]).
Proof.
  assert (H3 : 2 <= 3) by lia. assert (H2 : 1 <= 2) by lia.
  destruct (generate_cayley_tree 3 2) as [e|G] eqn:E.
  - vm_compute in E. discriminate.
  - destruct (cayley_degree_histogram 3 2 G H3 H2 E) as (_ & a & b & Ep & _).
    exists G, a, b. split; [reflexivity | exact Ep].
Defined.

End CayleyCounts.

(* ================================================================== *)
(** * Reading the data files *)
(* ================================================================== *)

Module ParseFacts.
Import Py PyFacts.
Unset Implicit Arguments.
Local Open Scope string_scope.

Lemma append_nil_r s : s ++ "" = s.
Proof. induction s as [|c s IH]; simpl; [reflexivity | now rewrite IH]. Qed.

Lemma append_assoc a b c : (a ++ b) ++ c = a ++ b ++ c.
Proof. induction a as [|x a IH]; simpl; [reflexivity | now rewrite IH]. Qed.

(** ** [strip] *)

Lemma lstrip_blank_app pre s : blank pre = true -> lstrip (pre ++ s) = lstrip s.
Proof.
  induction pre as [|c pre IH]; simpl; intros B; [reflexivity|].
  apply andb_true_iff in B as [Bc B]. rewrite Bc. now apply IH.
Qed.

Lemma lstrip_length s : String.length (lstrip s) <= String.length s.
Proof.
  induction s as [|c s IH]; simpl; [lia|].
  destruct (is_space c); simpl; lia.
Qed.

(** A string that [lstrip] leaves alone does not start with a blank. *)
Lemma lstrip_fixed_head c r : lstrip (String c r) = String c r -> is_space c = false.
Proof.
  simpl. destruct (is_space c); [|reflexivity]. intros E.
  pose proof (lstrip_length r) as L. rewrite E in L. simpl in L. lia.
Qed.

Lemma lstrip_app_fixed a b :
  lstrip a = a -> (a = "" -> lstrip b = b) -> lstrip (a ++ b) = a ++ b.
Proof.
  destruct a as [|c r]; intros Ea Eb; simpl; [now apply Eb|].
  now rewrite (lstrip_fixed_head c r Ea).
Qed.

Lemma rstrip_blank s : blank s = true -> rstrip s = "".
Proof.
  induction s as [|c s IH]; simpl; intros B; [reflexivity|].
  apply andb_true_iff in B as [Bc B]. now rewrite IH, Bc.
Qed.

Lemma rstrip_app_blank s post : blank post = true -> rstrip (s ++ post) = rstrip s.
Proof.
  intros B. induction s as [|c s IH]; simpl.
  - now apply rstrip_blank.
  - now rewrite IH.
Qed.

Lemma rstrip_app_nonempty a b : rstrip b <> "" -> rstrip (a ++ b) = a ++ rstrip b.
Proof.
  intros N. induction a as [|c a IH]; simpl; [reflexivity|].
  rewrite IH. destruct (a ++ rstrip b) eqn:E; [|reflexivity].
  destruct a; simpl in E; [contradiction | discriminate].
Qed.

Lemma rstrip_cons c s : is_space c = false -> rstrip (String c s) = String c (rstrip s).
Proof. intros E. simpl. rewrite E. now destruct (rstrip s). Qed.

Lemma blank_app a b : blank (a ++ b) = blank a && blank b.
Proof.
  unfold blank. induction a as [|c a IH]; simpl; [reflexivity|].
  now rewrite IH, andb_assoc.
Qed.

(** Blanks around a text that neither starts nor ends with one are all
    that [strip] removes. *)
Lemma strip_padded pre s post :
  blank pre = true -> blank post = true ->
  lstrip s = s -> rstrip s = s -> strip (pre ++ s ++ post) = s.
Proof.
  intros Bpre Bpost L R. unfold strip. rewrite lstrip_blank_app by assumption.
  destruct s as [|c s].
  - simpl. apply rstrip_blank. 
    assert (E : lstrip post = "").
    { clear -Bpost. induction post as [|c p IH]; simpl in *; [reflexivity|].
      apply andb_true_iff in Bpost as [-> B]. now apply IH. }
    now rewrite E.
  - rewrite lstrip_app_fixed by (assumption || discriminate).
    rewrite rstrip_app_blank by assumption. exact R.
Qed.

(** ** [split] on a separator *)

Lemma split_on_nonempty sep s : split_on sep s <> [].
Proof.
  destruct s as [|c s]; simpl; [discriminate|].
  destruct (Ascii.eqb c sep); [discriminate|].
  destruct (split_on sep s); discriminate.
Qed.

Lemma split_on_without sep s : without sep s = true -> split_on sep s = [s].
Proof.
  unfold without. induction s as [|c s IH]; simpl; intros W; [reflexivity|].
  apply andb_true_iff in W as [Wc W]. apply negb_true_iff in Wc. rewrite Wc.
  now rewrite IH.
Qed.

Lemma split_on_app sep a b :
  without sep a = true ->
  split_on sep (a ++ String sep b) = a :: split_on sep b.
Proof.
  unfold without. induction a as [|c a IH]; simpl; intros W.
  - now rewrite Ascii.eqb_refl.
  - apply andb_true_iff in W as [Wc W]. apply negb_true_iff in Wc. rewrite Wc.
    now rewrite IH.
Qed.

Lemma split_on_length sep s : length (split_on sep s) = S (str_count sep s).
Proof.
  induction s as [|c s IH]; simpl; [reflexivity|].
  destruct (Ascii.eqb c sep); simpl; [now rewrite IH|].
  destruct (split_on sep s) eqn:E; simpl in *; [discriminate | assumption].
Qed.

Lemma split_on_parts sep s : Forall (fun t => without sep t = true) (split_on sep s).
Proof.
  unfold without. induction s as [|c s IH]; simpl; [repeat constructor|].
  destruct (Ascii.eqb c sep) eqn:E.
  - constructor; [reflexivity | assumption].
  - destruct (split_on sep s) as [|t ts]; [repeat constructor; simpl; now rewrite E|].
    inversion IH as [|? ? Ht Hts]; subst. constructor; [|assumption].
    simpl. now rewrite E, Ht.
Qed.

(** Joining the parts with the separator gives the text back. *)
Lemma join_split_on sep s : join (String sep "") (split_on sep s) = s.
Proof.
  induction s as [|c s IH]; simpl; [reflexivity|].
  destruct (Ascii.eqb c sep) eqn:E.
  - apply Ascii.eqb_eq in E. subst c.
    pose proof (split_on_nonempty sep s) as N.
    destruct (split_on sep s) as [|t ts]; [congruence|].
    cbn [join append] in *. now rewrite IH.
  - destruct (split_on sep s) as [|t ts] eqn:Es.
    + now apply split_on_nonempty in Es.
    + destruct ts as [|t' ts]; cbn [join append] in *; now rewrite IH.
Qed.

(** ** [split] on blanks *)

Lemma split_ws_aux_blank s : blank s = true -> split_ws_aux s = ("", []).
Proof.
  induction s as [|c s IH]; simpl; intros B; [reflexivity|].
  apply andb_true_iff in B as [Bc B]. now rewrite IH, Bc.
Qed.

Lemma split_ws_aux_word a s :
  no_blank a = true ->
  split_ws_aux (a ++ s) = let '(w, ts) := split_ws_aux s in (a ++ w, ts).
Proof.
  unfold no_blank. induction a as [|c a IH]; simpl; intros B.
  - now destruct (split_ws_aux s).
  - apply andb_true_iff in B as [Bc B]. apply negb_true_iff in Bc.
    rewrite IH by assumption. destruct (split_ws_aux s) as [w ts]. now rewrite Bc.
Qed.

Lemma push_word_idem w ts : push_word "" (push_word w ts) = push_word w ts.
Proof. reflexivity. Qed.

Lemma split_ws_aux_gap sp s :
  blank sp = true -> sp <> "" ->
  split_ws_aux (sp ++ s) = let '(w, ts) := split_ws_aux s in ("", push_word w ts).
Proof.
  induction sp as [|c sp IH]; simpl; intros B N; [congruence|].
  apply andb_true_iff in B as [Bc B]. rewrite Bc.
  destruct sp as [|c' sp'].
  - simpl. now destruct (split_ws_aux s).
  - rewrite IH by (assumption || discriminate).
    now destruct (split_ws_aux s).
Qed.

Lemma split_ws_lstrip s : split_ws (lstrip s) = split_ws s.
Proof.
  induction s as [|c s IH]; simpl; [reflexivity|].
  destruct (is_space c) eqn:E; [|reflexivity].
  rewrite IH. unfold split_ws. simpl. rewrite E.
  now destruct (split_ws_aux s).
Qed.

Lemma split_ws_aux_rstrip s : split_ws_aux (rstrip s) = split_ws_aux s.
Proof.
  induction s as [|c s IH]; simpl; [reflexivity|].
  destruct (rstrip s) as [|c' r'] eqn:E.
  - rewrite <- IH. simpl. destruct (is_space c) eqn:Ec; simpl; rewrite ?Ec; reflexivity.
  - rewrite <- IH. reflexivity.
Qed.

(** Blanks at either end do not change the tokens. *)
Lemma split_ws_strip s : split_ws (strip s) = split_ws s.
Proof.
  unfold strip. rewrite <- (split_ws_lstrip s).
  unfold split_ws. now rewrite split_ws_aux_rstrip.
Qed.

(** Tokens are not empty and hold no blank. *)
Lemma split_ws_aux_tokens s :
  let '(w, ts) := split_ws_aux s in
  no_blank w = true /\ Forall (fun t => t <> "" /\ no_blank t = true) ts.
Proof.
  induction s as [|c s IH]; simpl; [split; [reflexivity | constructor]|].
  destruct (split_ws_aux s) as [w ts]. destruct IH as [Bw F].
  destruct (is_space c) eqn:E.
  - split; [reflexivity|]. destruct w; simpl; [assumption|].
    constructor; [split; [discriminate | assumption] | assumption].
  - split; [|assumption]. unfold no_blank in *. simpl. now rewrite E, Bw.
Qed.

Lemma split_ws_tokens s : Forall (fun t => t <> "" /\ no_blank t = true) (split_ws s).
Proof.
  unfold split_ws. pose proof (split_ws_aux_tokens s) as T.
  destruct (split_ws_aux s) as [w ts]. destruct T as [Bw F].
  destruct w; simpl; [assumption|].
  constructor; [split; [discriminate | assumption] | assumption].
Qed.

Lemma split_ws_two pre a mid b post :
  blank pre = true -> blank mid = true -> mid <> "" -> blank post = true ->
  no_blank a = true -> a <> "" -> no_blank b = true -> b <> "" ->
  split_ws (pre ++ a ++ mid ++ b ++ post) = [a; b].
Proof.
  intros Bpre Bmid Nmid Bpost Ba Na Bb Nb.
  assert (E1 : split_ws_aux (b ++ post) = (b, [])).
  { rewrite split_ws_aux_word by assumption.
    rewrite split_ws_aux_blank by assumption. now rewrite append_nil_r. }
  assert (E2 : split_ws_aux (mid ++ b ++ post) = ("", [b])).
  { rewrite split_ws_aux_gap by assumption. rewrite E1. destruct b; [congruence | reflexivity]. }
  assert (E3 : split_ws_aux (a ++ mid ++ b ++ post) = (a, [b])).
  { rewrite split_ws_aux_word by assumption. rewrite E2. now rewrite append_nil_r. }
  destruct pre as [|c pre].
  - simpl. unfold split_ws. rewrite E3. destruct a; [congruence | reflexivity].
  - unfold split_ws. rewrite split_ws_aux_gap by (assumption || discriminate).
    rewrite E3. destruct a; [congruence | reflexivity].
Qed.

End ParseFacts.

Module LoadFacts.
Import Py PyFacts Nx NxFacts AirTraffic AirTrafficFacts ParseFacts EdgeCountFacts.
Unset Implicit Arguments.
Local Open Scope string_scope.

(** ** City lines *)

Lemma add_city_line_fields line code node_id city_name G :
  split_on "|" (strip line) = [code; node_id; city_name] ->
  add_city_line line G = add_node node_id (mkAttrs (Some code) (Some city_name)) G.
Proof.
  unfold add_city_line. intros E. destruct (strip line) eqn:Es.
  - discriminate.
  - now rewrite E.
Qed.

Lemma split_on_three code node_id city_name :
  without "|" code = true -> without "|" node_id = true ->
  without "|" city_name = true ->
  split_on "|" (code ++ "|" ++ node_id ++ "|" ++ city_name)
  = [code; node_id; city_name].
Proof.
  intros Wc Wn Wy. change ("|" ++ node_id ++ "|" ++ city_name)
    with (String "|" (node_id ++ String "|" city_name)).
  rewrite split_on_app by assumption. rewrite split_on_app by assumption.
  now rewrite split_on_without.
Qed.

(** X5: a well-formed city line.  Whatever blanks surround it (the line
    end included), a line [code|id|name] whose fields hold no bar, whose
    code does not start and whose name does not end with a blank, adds or
    updates the node [id] with exactly these [code] and [city]; blanks
    inside the line stay part of the fields. *)
Theorem city_line_round_trip (pre code node_id city_name post : string) (G : AGraph) :
  blank pre = true -> blank post = true ->
  without "|" code = true -> without "|" node_id = true ->
  without "|" city_name = true ->
  lstrip code = code -> rstrip city_name = city_name ->
  let line := pre ++ (code ++ "|" ++ node_id ++ "|" ++ city_name) ++ post in
  add_city_line line G = add_node node_id (mkAttrs (Some code) (Some city_name)) G /\
  dict_get node_id (_node (add_city_line line G))
  = Some (mkAttrs (Some code) (Some city_name)).
Proof.
  intros Bpre Bpost Wc Wn Wy Lc Ry line.
  assert (S : strip line = code ++ "|" ++ node_id ++ "|" ++ city_name).
  { unfold line. apply strip_padded; try assumption.
    - apply lstrip_app_fixed; [assumption | reflexivity].
    - rewrite <- (append_assoc code "|" (node_id ++ "|" ++ city_name)).
      rewrite <- (append_assoc (code ++ "|") node_id ("|" ++ city_name)).
      rewrite rstrip_app_nonempty.
      + change ("|" ++ city_name) with (String "|" city_name).
        rewrite rstrip_cons by reflexivity. now rewrite Ry.
      + change ("|" ++ city_name) with (String "|" city_name).
        rewrite rstrip_cons by reflexivity. discriminate. }
  assert (E : add_city_line line G
              = add_node node_id (mkAttrs (Some code) (Some city_name)) G).
  { apply add_city_line_fields. rewrite S. now apply split_on_three. }
  split; [exact E|]. rewrite E, attrs_add_node_same. reflexivity.
Qed.

Lemma city_line_round_trip_witness :
  add_city_line "  CBR|12|Canberra " empty_graph
  = add_node "12" (mkAttrs (Some "CBR") (Some "Canberra")) empty_graph.
Proof.
  apply (city_line_round_trip "  " "CBR" "12" "Canberra" " " empty_graph);
    reflexivity.
Defined.

(** X6: which city lines count.  A line of the city file changes the graph
    only if, once stripped, it holds exactly two bars; it then splits into
    three bar-free fields (any of them may be empty) and the middle one
    names the node.  Every other line, a blank one included, is skipped
    without any error. *)
Theorem city_line_needs_two_bars (line : string) (G : AGraph) :
  (str_count "|" (strip line) <> 2 -> add_city_line line G = G) /\
  (str_count "|" (strip line) = 2 ->
   exists code node_id city_name,
     strip line = code ++ "|" ++ node_id ++ "|" ++ city_name /\
     without "|" code = true /\ without "|" node_id = true /\
     without "|" city_name = true /\
     add_city_line line G
     = add_node node_id (mkAttrs (Some code) (Some city_name)) G).
Proof.
  pose proof (split_on_length "|" (strip line)) as L.
  pose proof (split_on_parts "|" (strip line)) as F.
  pose proof (join_split_on "|" (strip line)) as J.
  split; intros C.
  - unfold add_city_line. destruct (strip line) as [|ch rest] eqn:Es; [reflexivity|].
    destruct (split_on "|" (String ch rest)) as [|t1 [|t2 [|t3 [|? ?]]]]; try reflexivity.
    cbn [length] in L. lia.
  - rewrite C in L.
    destruct (split_on "|" (strip line)) as [|t1 [|t2 [|t3 [|? ?]]]] eqn:E;
      try discriminate.
    exists t1, t2, t3. inversion F as [|? ? F1 F']; subst.
    inversion F' as [|? ? F2 F'']; subst. inversion F'' as [|? ? F3 _]; subst.
    split; [symmetry; exact J|]. repeat split; try assumption.
    now apply add_city_line_fields.
Qed.

(** ** Edge lines *)

Lemma add_net_line_by_tokens line (G : AGraph) :
  add_net_line line G
  = match split_ws line with
    | [node1; node2] => add_edge node1 node2 G
    | _ => G
    end.
Proof.
  unfold add_net_line. rewrite <- (split_ws_strip line).
  destruct (strip line) eqn:Es; reflexivity.
Qed.

(** X7: what an edge line is.  The [strip] and the test for an empty line
    change nothing: a line of the edge file adds an edge exactly when it
    holds two blank-separated tokens, and a token is never empty and never
    holds a blank. *)
Theorem net_line_by_tokens (line : string) (G : AGraph) :
  add_net_line line G
  = match split_ws line with
    | [node1; node2] => add_edge node1 node2 G
    | _ => G
    end /\
  Forall (fun t => t <> "" /\ no_blank t = true) (split_ws line).
Proof. split; [apply add_net_line_by_tokens | apply split_ws_tokens]. Qed.

(** X8: the edge file is read token by token.  Two blank-free tokens
    separated by any non-empty run of blanks (spaces, tabs, ...) and
    surrounded by any blanks add the edge between them. *)
Theorem net_line_round_trip (pre a mid b post : string) (G : AGraph) :
  blank pre = true -> blank mid = true -> mid <> "" -> blank post = true ->
  no_blank a = true -> a <> "" -> no_blank b = true -> b <> "" ->
  add_net_line (pre ++ a ++ mid ++ b ++ post) G = add_edge a b G.
Proof.
  intros Bpre Bmid Nmid Bpost Ba Na Bb Nb.
  rewrite add_net_line_by_tokens. now rewrite split_ws_two.
Qed.

Lemma net_line_round_trip_witness :
  add_net_line (String "009" "12  345 ") empty_graph = add_edge "12" "345" empty_graph.
Proof.
  apply (net_line_round_trip (String "009" "") "12" "  " "345" " " empty_graph);
    solve [reflexivity | discriminate].
Defined.

Lemma add_net_line_token_cases line (G : AGraph) :
  add_net_line line G = G \/
  exists a b, a <> "" /\ no_blank a = true /\ b <> "" /\ no_blank b = true /\
              add_net_line line G = add_edge a b G.
Proof.
  rewrite add_net_line_by_tokens. pose proof (split_ws_tokens line) as F.
  destruct (split_ws line) as [|a [|b [|? ?]]]; auto.
  right. exists a, b. inversion F as [|? ? [Na Ba] F']; subst.
  inversion F' as [|? ? [Nb Bb] _]; subst. auto 6.
Qed.

(** ** Nodes that no edge can reach *)

Lemma city_fold_neighbors cities u : forall G : AGraph,
  wf G ->
  neighbors (fold_left (fun G line => add_city_line line G) cities G) u = neighbors G u.
Proof.
  induction cities as [|line cities IH]; simpl; intros G W; [reflexivity|].
  rewrite IH by now apply wf_add_city_line.
  destruct (add_city_line_cases line G) as [->|(c & n & name & _ & ->)]; [reflexivity|].
  apply neighbors_add_node, (wf_keys W).
Qed.

Lemma net_fold_isolated net x : forall G : AGraph,
  wf G -> (x = "" \/ no_blank x = false) -> neighbors G x = [] ->
  neighbors (fold_left (fun G line => add_net_line line G) net G) x = [].
Proof.
  induction net as [|line net IH]; simpl; intros G W Hx N; [assumption|].
  apply IH; [now apply wf_add_net_line | assumption|].
  destruct (add_net_line_token_cases line G)
    as [->|(a & b & Na & Ba & Nb & Bb & ->)]; [assumption|].
  rewrite neighbors_add_edge_other; [assumption | apply (wf_keys W) | |].
  - intros ->. destruct Hx; congruence.
  - intros ->. destruct Hx; congruence.
Qed.

(** X9: an id that no edge line can name.  A node whose id, as the city
    file gives it, is empty or holds a blank (for instance because the
    fields were written with spaces around the bars) stays without
    neighbours whatever the edge file says: its degree is 0. *)
Theorem blank_ids_stay_isolated (cities net : list string) (node_id : string) :
  node_id = "" \/ no_blank node_id = false ->
  let G := load cities net in
  neighbors G node_id = [] /\
  (forall u, ~ In node_id (neighbors G u)) /\
  (forall d, In (node_id, d) (degree G) -> d = 0).
Proof.
  intros Hx G.
  assert (N : neighbors G node_id = []).
  { unfold G, load. apply net_fold_isolated; [|assumption|].
    - apply wf_fold; [apply wf_add_city_line | apply wf_empty].
    - rewrite city_fold_neighbors by apply wf_empty. reflexivity. }
  pose proof (wf_load cities net) as W. fold G in W.
  split; [exact N|]. split.
  - intros u I. apply (wf_sym W) in I. rewrite N in I. destruct I.
  - intros d I. rewrite degree_by_nodes in I by assumption.
    apply in_map_iff in I as (n & [= -> <-] & _). now rewrite N.
Qed.

Lemma blank_ids_stay_isolated_witness :
  let G := load ["CBR| 1 |Canberra"; "SYD|2|Sydney"] ["1 2"] in
  neighbors G " 1 " = [] /\ has_node G " 1 " = true.
Proof.
  intros G. split; [|reflexivity].
  apply (blank_ids_stay_isolated ["CBR| 1 |Canberra"; "SYD|2|Sydney"] ["1 2"] " 1 ").
  right. reflexivity.
Defined.

(** ** Attributes *)

Lemma net_fold_attrs_old net x : forall G : AGraph,
  In x (nodes G) ->
  dict_get x (_node (fold_left (fun G line => add_net_line line G) net G))
  = dict_get x (_node G).
Proof.
  induction net as [|line net IH]; simpl; intros G I; [reflexivity|].
  destruct (add_net_line_cases line G) as [E|(a & b & E)]; rewrite E.
  - now apply IH.
  - rewrite IH by (apply nodes_add_edge_In; auto).
    rewrite attrs_add_edge. apply has_node_In in I. now rewrite I.
Qed.

Lemma city_fold_attrs_other cities x : forall G : AGraph,
  (forall l, In l cities -> city_line_id l <> Some x) ->
  dict_get x (_node (fold_left (fun G line => add_city_line line G) cities G))
  = dict_get x (_node G).
Proof.
  induction cities as [|line cities IH]; simpl; intros G N; [reflexivity|].
  rewrite IH by (intros l Il; apply N; now right).
  destruct (add_city_line_cases line G) as [->|(c & n & name & E1 & ->)]; [reflexivity|].
  apply attrs_add_node_other. intros ->. apply (N line); [now left | assumption].
Qed.

Lemma load_city_attrs (cities1 cities2 net : list string)
      (line code node_id city_name : string) :
  split_on "|" (strip line) = [code; node_id; city_name] ->
  (forall l, In l cities2 -> city_line_id l <> Some node_id) ->
  dict_get node_id (_node (load (cities1 ++ line :: cities2) net))
  = Some (mkAttrs (Some code) (Some city_name)).
Proof.
  intros E N. unfold load. rewrite fold_left_app. cbn [fold_left].
  set (G1 := fold_left (fun G line => add_city_line line G) cities1 empty_graph).
  rewrite (add_city_line_fields line code node_id city_name G1 E).
  set (G2 := add_node node_id (mkAttrs (Some code) (Some city_name)) G1).
  assert (A2 : dict_get node_id (_node G2)
               = Some (mkAttrs (Some code) (Some city_name))).
  { unfold G2. rewrite attrs_add_node_same. reflexivity. }
  rewrite net_fold_attrs_old.
  - now rewrite city_fold_attrs_other.
  - unfold nodes. eapply dict_get_Some_keys.
    rewrite city_fold_attrs_other by assumption. exact A2.
Qed.

(** X10: a node id that occurs twice in the city file.  The code and the
    city of a node are those of the last well-formed line that names it,
    whatever earlier lines said and whatever the edge file holds. *)
Theorem city_last_line_wins (cities1 cities2 net : list string)
        (line code node_id city_name : string) :
  split_on "|" (strip line) = [code; node_id; city_name] ->
  (forall l, In l cities2 -> city_line_id l <> Some node_id) ->
  let G := load (cities1 ++ line :: cities2) net in
  dict_get node_id (_node G) = Some (mkAttrs (Some code) (Some city_name)) /\
  city_of G node_id = inr city_name.
Proof.
  intros E N G.
  pose proof (load_city_attrs cities1 cities2 net line code node_id city_name E N) as A.
  fold G in A. split; [exact A|]. unfold city_of. now rewrite A.
Qed.

Lemma city_last_line_wins_witness :
  let G := load ["XXX|1|Old name"; "CBR|1|Canberra"; "SYD|2|Sydney"] ["1 2"] in
  city_of G "1" = inr "Canberra".
Proof.
  intros G.
  apply (city_last_line_wins ["XXX|1|Old name"] ["SYD|2|Sydney"] ["1 2"]
                             "CBR|1|Canberra" "CBR" "1" "Canberra" eq_refl).
  intros l [<-|[]]. vm_compute. discriminate.
Defined.

Lemma city_line_id_fields l x :
  city_line_id l = Some x ->
  exists code name, split_on "|" (strip l) = [code; x; name].
Proof.
  unfold city_line_id. destruct (strip l) as [|ch rest]; [discriminate|].
  destruct (split_on "|" (String ch rest)) as [|t1 [|t2 [|t3 [|? ?]]]]; try discriminate.
  intros [= ->]. eauto.
Qed.

Lemma last_line_naming cities x :
  (exists l, In l cities /\ city_line_id l = Some x) ->
  exists c1 l c2,
    cities = (c1 ++ l :: c2)%list /\ city_line_id l = Some x /\
    forall l', In l' c2 -> city_line_id l' <> Some x.
Proof.
  induction cities as [|a cities IH] using rev_ind; intros (l & I & E); [destruct I|].
  assert (D : {city_line_id a = Some x} + {city_line_id a <> Some x}).
  { destruct (city_line_id a) as [y|]; [|right; discriminate].
    destruct (string_dec y x) as [->|Nx]; [now left | right; congruence]. }
  destruct D as [Ea|Na].
  - exists cities, a, []. repeat split; auto; intros l' [].
  - apply in_app_or in I as [I|[<-|[]]]; [|contradiction].
    destruct IH as (c1 & l0 & c2 & -> & E0 & N0); [eauto|].
    exists c1, l0, (c2 ++ [a])%list. rewrite <- app_assoc. repeat split; auto.
    intros l' I'. apply in_app_or in I' as [I'|[<-|[]]]; auto.
Qed.

(** X11: which nodes have a name.  After loading, a node carries a [city]
    exactly when some well-formed line of the city file names it; every
    other node, which then comes from the edge file alone, raises
    [KeyError] when its city is looked up. *)
Theorem city_iff_city_line (cities net : list string) (x : string) :
  let G := load cities net in
  ((exists c, city_of G x = inr c) <->
   (exists l, In l cities /\ city_line_id l = Some x)) /\
  ((forall c, city_of G x <> inr c) -> city_of G x = inl KeyError).
Proof.
  intros G. split; [split|].
  - intros [c E].
    assert (D : (exists l, In l cities /\ city_line_id l = Some x) \/
                (forall l, In l cities -> city_line_id l <> Some x)).
    { clear. induction cities as [|a cities IH]; [right; intros l []|].
      destruct IH as [(l & I & E)|N]; [left; exists l; split; [now right | assumption]|].
      destruct (city_line_id a) as [y|] eqn:Ea.
      - destruct (string_dec y x) as [->|Nx].
        + left. exists a. split; [now left | assumption].
        + right. intros l [<-|I]; [congruence | now apply N].
      - right. intros l [<-|I]; [congruence | now apply N]. }
    destruct D as [D|D]; [assumption|]. exfalso.
    assert (A : dict_get x (_node G) = None \/ dict_get x (_node G) = Some attr_empty).
    { unfold G, load. apply net_fold_attrs. left. apply dict_get_None.
      intros Ix. apply city_fold_nodes in Ix as [[]|(cl & Icl & Ecl)].
      now apply (D cl). }
    unfold city_of in E. destruct A as [A|A]; rewrite A in E; discriminate.
  - intros Hl. destruct (last_line_naming cities x Hl) as (c1 & l & c2 & -> & El & N).
    destruct (city_line_id_fields l x El) as (code & name & Ef).
    exists name. unfold city_of, G.
    now rewrite (load_city_attrs c1 c2 net l code x name Ef N).
  - intros N. destruct (city_of G x) as [e|c] eqn:E.
    + now rewrite (city_of_error _ _ _ E).
    + now destruct (N c).
Qed.

(** ** Nodes and edges, line by line *)

Lemma nodes_add_edge_ext u v (G : AGraph) :
  exists extra,
    nodes (add_edge u v G) = (nodes G ++ extra)%list /\
    forall x, In x extra ->
              ~ In x (nodes G) /\
              dict_get x (_node (add_edge u v G)) = Some (mkAttrs None None).
Proof.
  unfold nodes at 1. rewrite node_add_edge.
  fold (nodes (touch_node v (touch_node u G))). rewrite !nodes_touch.
  assert (A : forall x, ~ In x (nodes G) -> x = u \/ x = v ->
                        dict_get x (_node (add_edge u v G)) = Some (mkAttrs None None)).
  { intros x Nx Hx. rewrite attrs_add_edge. apply has_node_false in Nx. rewrite Nx.
    destruct Hx as [-> | ->]; rewrite keqb_refl; [reflexivity|].
    now rewrite orb_true_r. }
  destruct (has_node G u) eqn:Hu.
  - destruct (has_node (touch_node u G) v) eqn:Hv.
    + exists []. rewrite app_nil_r. split; [reflexivity | intros x []].
    + exists [v]. split; [reflexivity|]. intros x [<-|[]].
      apply has_node_false in Hv. rewrite touch_In in Hv. split; [tauto|].
      apply A; tauto.
  - apply has_node_false in Hu.
    destruct (has_node (touch_node u G) v) eqn:Hv.
    + exists [u]. split; [reflexivity|]. intros x [<-|[]]. split; [assumption|].
      apply A; tauto.
    + exists [u; v]. split; [now rewrite <- app_assoc|].
      apply has_node_false in Hv. rewrite touch_In in Hv.
      intros x [<-|[<-|[]]]; (split; [tauto | apply A; tauto]).
Qed.

Lemma net_fold_nodes net : forall G : AGraph,
  let G' := fold_left (fun G line => add_net_line line G) net G in
  exists extra,
    nodes G' = (nodes G ++ extra)%list /\
    forall x, In x extra ->
              ~ In x (nodes G) /\ dict_get x (_node G') = Some (mkAttrs None None).
Proof.
  induction net as [|line net IH]; simpl; intros G.
  - exists []. rewrite app_nil_r. split; [reflexivity | intros x []].
  - destruct (IH (add_net_line line G)) as (ex2 & E2 & A2).
    destruct (add_net_line_cases line G) as [E|(a & b & E)]; rewrite E in *.
    + exists ex2. split; assumption.
    + destruct (nodes_add_edge_ext a b G) as (ex1 & E1 & A1).
      exists (ex1 ++ ex2)%list. split; [now rewrite E2, E1, app_assoc|].
      intros x Ix. apply in_app_or in Ix as [Ix|Ix].
      * destruct (A1 x Ix) as [Nx Ax]. split; [assumption|].
        rewrite net_fold_attrs_old; [assumption|].
        rewrite E1. apply in_or_app. now right.
      * destruct (A2 x Ix) as [Nx Ax]. split; [|assumption].
        intros J. apply Nx. rewrite E1. apply in_or_app. now left.
Qed.

(** X12: the edge file only adds.  After loading, the nodes of the city
    file come first, in the order and with the attributes the city file
    gave them; the nodes that only the edge file names follow, without any
    attribute. *)
Theorem edges_keep_city_nodes (cities net : list string) :
  exists extra,
    nodes (load cities net) = (nodes (load cities []) ++ extra)%list /\
    (forall x, In x (nodes (load cities [])) ->
               dict_get x (_node (load cities net))
               = dict_get x (_node (load cities []))) /\
    (forall x, In x extra ->
               ~ In x (nodes (load cities [])) /\
               dict_get x (_node (load cities net)) = Some (mkAttrs None None) /\
               city_of (load cities net) x = inl KeyError).
Proof.
  unfold load. cbn [fold_left].
  set (G0 := fold_left (fun G line => add_city_line line G) cities empty_graph).
  destruct (net_fold_nodes net G0) as (extra & E & A). exists extra.
  split; [exact E|]. split.
  - intros x Ix. now apply net_fold_attrs_old.
  - intros x Ix. destruct (A x Ix) as [Nx Ax]. split; [assumption|].
    split; [assumption|]. now apply city_of_no_attrs.
Qed.

Lemma number_of_nodes_touch n (G : AGraph) :
  number_of_nodes (touch_node n G)
  = number_of_nodes G + (if has_node G n then 0 else 1).
Proof.
  rewrite !number_of_nodes_length, nodes_touch.
  destruct (has_node G n); [lia|]. rewrite length_app. reflexivity.
Qed.

(** X13: what a new edge costs.  An edge line whose two tokens are not
    joined yet adds exactly one edge, a loop included, and one node for
    each endpoint that the graph does not hold. *)
Theorem new_edge_line_counts (cities net : list string) (line a b : string) :
  split_ws (strip line) = [a; b] ->
  has_edge (load cities net) a b = false ->
  let G := load cities net in
  let G' := load cities (net ++ [line])%list in
  number_of_edges G' = S (number_of_edges G) /\
  number_of_nodes G'
  = number_of_nodes G + (if has_node G a then 0 else 1)
    + (if has_node G b || (a =? b) then 0 else 1) /\
  has_edge G' a b = true /\ has_edge G' b a = true.
Proof.
  intros T E G G'. pose proof (wf_load cities net) as W. fold G in W.
  assert (L : G' = add_edge a b G).
  { unfold G'. rewrite load_app. simpl. now apply add_net_line_tokens. }
  apply mem_false in E. fold G in E.
  split; [rewrite L; now apply number_of_edges_add_edge|].
  split.
  - rewrite L. unfold number_of_nodes at 1. rewrite node_add_edge.
    fold (number_of_nodes (touch_node b (touch_node a G))).
    rewrite !number_of_nodes_touch. f_equal.
    destruct (has_node G b) eqn:Hb.
    + assert (has_node (touch_node a G) b = true) as ->; [|reflexivity].
      apply has_node_In, touch_In. right. now apply has_node_In.
    + destruct (String.eqb_spec a b) as [->|Nab].
      * destruct (has_node (touch_node b G) b) eqn:Hb'; [reflexivity|].
        apply has_node_false in Hb'. exfalso. apply Hb', touch_In. now left.
      * destruct (has_node (touch_node a G) b) eqn:Hb'; [|reflexivity].
        apply has_node_In, touch_In in Hb' as [?|Hb']; [congruence|].
        apply has_node_In in Hb'. congruence.
  - rewrite L. unfold has_edge. split; apply mem_In;
      apply neighbors_add_edge_In; try apply (wf_keys W); auto.
Qed.

Lemma new_edge_line_counts_witness :
  let cities := ["CBR|1|Canberra"; "SYD|2|Sydney"] in
  number_of_edges (load cities (["1 2"] ++ ["2 7"])%list) = 2 /\
  number_of_nodes (load cities (["1 2"] ++ ["2 7"])%list) = 3.
Proof.
  intros cities.
  destruct (new_edge_line_counts cities ["1 2"] "2 7" "2" "7" eq_refl eq_refl)
    as (E & N & _).
  split; [exact E | exact N].
Defined.

(** ** Sizes *)

Lemma city_line_sizes line (G : AGraph) :
  wf G ->
  number_of_nodes (add_city_line line G) <= S (number_of_nodes G) /\
  number_of_edges (add_city_line line G) = number_of_edges G.
Proof.
  intros W. destruct (add_city_line_cases line G) as [->|(c & n & name & _ & ->)].
  - split; [lia | reflexivity].
  - split; [|apply number_of_edges_add_node, (wf_keys W)].
    rewrite !number_of_nodes_length, nodes_add_node.
    destruct (has_node G n); [lia|]. rewrite length_app. simpl. lia.
Qed.

Lemma net_line_sizes line (G : AGraph) :
  wf G ->
  number_of_nodes (add_net_line line G) <= number_of_nodes G + 2 /\
  number_of_edges (add_net_line line G) <= S (number_of_edges G).
Proof.
  intros W. destruct (add_net_line_cases line G) as [->|(a & b & ->)].
  - split; lia.
  - split.
    + destruct (nodes_add_edge_ext a b G) as (extra & E & _).
      unfold number_of_nodes at 1. rewrite node_add_edge.
      fold (number_of_nodes (touch_node b (touch_node a G))).
      rewrite !number_of_nodes_touch.
      destruct (has_node (touch_node a G) b), (has_node G a); lia.
    + destruct (in_dec string_dec b (neighbors G a)) as [I|I].
      * rewrite add_edge_present by assumption. lia.
      * rewrite number_of_edges_add_edge by assumption. lia.
Qed.

(** X14: the counts of Q1 against the size of the files.  The loader
    creates at most one node for each line of the city file and two for
    each line of the edge file, and at most one edge for each line of the
    edge file; the city file alone gives no edge. *)
Theorem load_size_bounds (cities net : list string) :
  number_of_nodes (load cities net) <= length cities + 2 * length net /\
  number_of_edges (load cities net) <= length net /\
  number_of_edges (load cities []) = 0.
Proof.
  assert (C : forall cs (G : AGraph), wf G ->
            let G' := fold_left (fun G line => add_city_line line G) cs G in
            number_of_nodes G' <= number_of_nodes G + length cs /\
            number_of_edges G' = number_of_edges G).
  { induction cs as [|l cs IH]; intros G W; simpl; [split; [lia | reflexivity]|].
    destruct (city_line_sizes l G W) as [Hn He].
    destruct (IH _ (wf_add_city_line l G W)) as [Hn' He']. split; [lia | congruence]. }
  assert (E : forall ns (G : AGraph), wf G ->
            let G' := fold_left (fun G line => add_net_line line G) ns G in
            number_of_nodes G' <= number_of_nodes G + 2 * length ns /\
            number_of_edges G' <= number_of_edges G + length ns).
  { induction ns as [|l ns IH]; intros G W; simpl; [split; lia|].
    destruct (net_line_sizes l G W) as [Hn He].
    destruct (IH _ (wf_add_net_line l G W)) as [Hn' He']. split; lia. }
  destruct (C cities empty_graph wf_empty) as [Cn Ce].
  set (G0 := fold_left (fun G line => add_city_line line G) cities empty_graph) in *.
  assert (W0 : wf G0) by (apply wf_fold; [apply wf_add_city_line | apply wf_empty]).
  destruct (E net G0 W0) as [En Ee].
  change (number_of_nodes (@empty_graph string attrs)) with 0 in Cn.
  change (number_of_edges (@empty_graph string attrs)) with 0 in Ce.
  unfold load. fold G0. cbn [fold_left]. repeat split; lia.
Qed.

End LoadFacts.

(* ================================================================== *)
(** * Components and shortest paths *)
(* ================================================================== *)

Module SearchFacts.
Import Py PyFacts Nx NxFacts EdgeCountFacts.
Unset Implicit Arguments.

Section Search.
Context {K : Type} `{Key K} {A : Type} `{Attrs A}.
Implicit Types (G : Graph K A) (u v w n s t : K).

(** [nx.shortest_path] between two nodes joined by some walk returns a
    path between them whose number of edges is their distance. *)
Lemma shortest_path_spec G s t :
  wf G -> In s (nodes G) -> In t (nodes G) -> reach G s t ->
  exists path d,
    shortest_path G s t = inr path /\
    is_path G path /\ hd_error path = Some s /\ last path s = t /\
    length path = S d /\ dist G s t d.
Proof.
  intros W Is It R.
  pose proof (bfs_complete (fun _ l _ => l) G s 0 t W Is R) as Il.
  apply dict_keys_get in Il as [d Gd].
  destruct (sim_get _ _ _ t d (bfs_lengths_paths G s) Gd) as (path & Gp & Lp).
  exists path, d.
  unfold shortest_path, single_source_shortest_path.
  apply has_node_In in Is as Hs. apply has_node_In in It as Ht.
  rewrite Hs, Ht. cbn [andb rbind]. rewrite Gp.
  destruct (bfs_paths_valid G s t path (dict_get_Some_In _ _ _ Gp)) as (V1 & V2 & V3).
  repeat split; try assumption.
  - apply (bfs_lengths_dist G s t d (dict_get_Some_In _ _ _ Gd)).
  - apply (bfs_lengths_dist G s t d (dict_get_Some_In _ _ _ Gd)).
Qed.

Lemma shortest_path_unreachable G s t :
  In s (nodes G) -> In t (nodes G) -> ~ reach G s t ->
  shortest_path G s t = inl NetworkXNoPath.
Proof.
  intros Is It N. unfold shortest_path, single_source_shortest_path.
  apply has_node_In in Is as Hs. apply has_node_In in It as Ht.
  rewrite Hs, Ht. cbn [andb rbind].
  destruct (dict_get t _) as [p|] eqn:D; [|reflexivity].
  exfalso. apply N. eapply bfs_sound. eapply dict_get_Some_keys. exact D.
Qed.

Lemma dist_zero G s t : dist G s t 0 -> s = t.
Proof. intros [Wk _]. inversion Wk. reflexivity. Qed.

(** ** The components partition the nodes *)

Let step G := fun '(seen, comps) v =>
  if mem v seen then (seen, comps)
  else let c := _plain_bfs G v in (seen ++ c, comps ++ [c]).

Lemma plain_bfs_closed G v :
  wf G -> In v (nodes G) ->
  NoDup (_plain_bfs G v) /\ incl (_plain_bfs G v) (nodes G) /\
  (forall u w, In u (_plain_bfs G v) -> adj G u w -> In w (_plain_bfs G v)) /\
  (forall w, In w (_plain_bfs G v) <-> reach G v w).
Proof.
  intros W I. unfold _plain_bfs.
  destruct (bfs_closed (fun _ _ _ => tt) G v tt W I) as (N & In' & C).
  split; [assumption|]. split; [assumption|]. split.
  - intros u w Iu Auw. now apply (C u Iu w).
  - intros w. split; [apply bfs_sound | now apply bfs_complete].
Qed.

Lemma cc_step_inv G seen comps v :
  wf G -> In v (nodes G) -> cc_inv G seen comps ->
  let '(seen', comps') := step G (seen, comps) v in
  cc_inv G seen' comps' /\ In v seen' /\ incl seen seen'.
Proof.
  intros W Iv I. unfold step. destruct (mem v seen) eqn:M.
  - apply mem_In in M. split; [assumption|]. split; [assumption | apply incl_refl].
  - apply mem_false in M. cbv zeta.
    destruct (plain_bfs_closed G v W Iv) as (Nc & Ic & Cc & Rc).
    split; [|split].
    + split.
      * rewrite concat_app, (c_concat I). simpl. now rewrite app_nil_r.
      * apply NoDup_app; [apply (c_nodup I) | assumption|].
        intros x Ix Jx. apply M. apply Rc in Jx. apply (reach_sym G v x W) in Jx.
        destruct Jx as [n Wn].
        apply (closed_reach G (fun y => In y seen) x v n); [|assumption|assumption].
        intros a b. apply (c_closed I).
      * intros x Ix. apply in_app_or in Ix as [Ix|Ix]; [now apply (c_incl I) | now apply Ic].
      * intros u w Iu Auw. apply in_or_app. apply in_app_or in Iu as [Iu|Iu].
        -- left. eapply (c_closed I); eauto.
        -- right. eapply Cc; eauto.
      * intros c Jc. apply in_app_or in Jc as [Jc|[<-|[]]]; [now apply (c_source I)|].
        now exists v.
    + apply in_or_app. right. apply Rc, reach_refl.
    + intros x Ix. apply in_or_app. now left.
Qed.

Lemma cc_fold_inv G ns : forall seen comps,
  wf G -> incl ns (nodes G) -> cc_inv G seen comps ->
  let '(seen', comps') := fold_left (step G) ns (seen, comps) in
  cc_inv G seen' comps' /\ incl ns seen' /\ incl seen seen'.
Proof.
  induction ns as [|v ns IH]; intros seen comps W In' I; cbn [fold_left].
  - split; [assumption|]. split; [intros x [] | apply incl_refl].
  - pose proof (cc_step_inv G seen comps v W (In' v (or_introl eq_refl)) I) as S.
    destruct (step G (seen, comps) v) as [seen1 comps1]. destruct S as (I1 & Iv & Inc1).
    pose proof (IH seen1 comps1 W (fun x Ix => In' x (or_intror Ix)) I1) as F.
    destruct (fold_left (step G) ns (seen1, comps1)) as [seen2 comps2].
    destruct F as (I2 & In2 & Inc2). split; [assumption|]. split.
    + intros x [<-|Ix]; [now apply Inc2 | now apply In2].
    + intros x Ix. now apply Inc2, Inc1.
Qed.

Lemma components_partition G :
  wf G ->
  Permutation (concat (connected_components G)) (nodes G) /\
  (forall c, In c (connected_components G) ->
             exists v, In v (nodes G) /\ c = _plain_bfs G v).
Proof.
  intros W.
  assert (I0 : cc_inv G [] []).
  { split; [reflexivity | constructor | intros x [] | intros u v [] | intros c []]. }
  pose proof (cc_fold_inv G (nodes G) [] [] W (incl_refl _) I0) as F.
  unfold connected_components. fold (step G).
  destruct (fold_left (step G) (nodes G) ([], [])) as [seen comps].
  destruct F as (I & In' & _). cbn [snd]. split; [|apply (c_source I)].
  rewrite <- (c_concat I). apply NoDup_Permutation.
  - apply (c_nodup I).
  - apply (wf_nodup W).
  - intros x. split; [apply (c_incl I) | apply In'].
Qed.

(** On a connected graph there is one component. *)
Lemma fold_step_seen G ns : forall seen comps,
  (forall v, In v ns -> In v seen) ->
  fold_left (step G) ns (seen, comps) = (seen, comps).
Proof.
  induction ns as [|v ns IH]; intros seen comps I; cbn [fold_left]; [reflexivity|].
  unfold step at 2. assert (mem v seen = true) as -> by (apply mem_In, I; now left).
  apply IH. intros x Ix. apply I. now right.
Qed.

Lemma components_connected G v rest :
  wf G -> connected G -> nodes G = v :: rest ->
  connected_components G = [_plain_bfs G v].
Proof.
  intros W C E. unfold connected_components. fold (step G). rewrite E.
  cbn [fold_left]. unfold step at 2. cbn [mem app].
  rewrite fold_step_seen; [reflexivity|].
  intros x Ix. assert (Iv : In v (nodes G)) by (rewrite E; now left).
  apply (plain_bfs_closed G v W Iv). apply C; [assumption|].
  rewrite E. now right.
Qed.

(** ** Induced subgraphs on closed sets *)

Lemma filter_all {X} (p : X -> bool) l :
  (forall x, In x l -> p x = true) -> filter p l = l.
Proof.
  induction l as [|x l IH]; intros E; simpl; [reflexivity|].
  rewrite (E x) by now left. f_equal. apply IH. intros y Iy. apply E. now right.
Qed.

Lemma neighbors_subgraph_closed G ns n :
  In n ns -> (forall w, In w (neighbors G n) -> In w ns) ->
  neighbors (subgraph G ns) n = neighbors G n.
Proof.
  intros I C. rewrite neighbors_subgraph. apply mem_In in I. rewrite I.
  apply filter_all. intros w Iw. apply mem_In. now apply C.
Qed.

Lemma subgraph_all G ns :
  wf G -> incl (nodes G) ns -> subgraph G ns = G.
Proof.
  intros W I. unfold subgraph. destruct G as [nd ad] eqn:EG. cbn [_node _adj]. f_equal.
  - apply filter_all. intros [n a] In'. apply mem_In, I.
    unfold nodes. cbn [_node]. now apply (in_map fst) in In'.
  - rewrite filter_all.
    + rewrite <- (map_id ad) at 2. apply map_ext_in. intros [n nbrs] In'. f_equal.
      apply filter_all. intros x Ix. apply mem_In, I.
      apply (wf_neighbor_node _ n x W). unfold neighbors. cbn [_adj].
      rewrite (dict_get_In n nbrs ad); [assumption | | assumption].
      pose proof (wf_keys W) as E. pose proof (wf_nodup W) as N. cbn [_node _adj] in *.
      now rewrite E.
    + intros [n nbrs] In'. apply mem_In, I. unfold nodes. cbn [_node].
      pose proof (wf_keys W) as E. cbn [_node _adj] in E. rewrite <- E.
      now apply (in_map fst) in In'.
Qed.

Lemma filter_mem_length (l ns : list K) :
  NoDup l -> NoDup ns -> incl ns l ->
  length (filter (fun n => mem n ns) l) = length ns.
Proof.
  intros Nl Nn I. apply Permutation_length, NoDup_Permutation.
  - now apply NoDup_filter.
  - assumption.
  - intros x. rewrite filter_In, mem_In. split; [tauto | auto].
Qed.

Lemma list_sum_filter_le {X} (f : X -> nat) (p : X -> bool) l :
  list_sum (map f (filter p l)) <= list_sum (map f l).
Proof.
  induction l as [|x l IH]; simpl; [lia|]. destruct (p x); simpl; lia.
Qed.

Lemma list_sum_bound (l : list nat) m :
  (forall x, In x l -> x <= m) -> list_sum l <= length l * m.
Proof.
  induction l as [|x l IH]; intros B; simpl; [lia|].
  pose proof (B x (or_introl eq_refl)). pose proof (IH (fun y Iy => B y (or_intror Iy))). lia.
Qed.

Lemma list_sum_lower (l : list nat) :
  (forall x, In x l -> 1 <= x) -> length l <= list_sum l.
Proof.
  induction l as [|x l IH]; intros B; simpl; [lia|].
  pose proof (B x (or_introl eq_refl)). pose proof (IH (fun y Iy => B y (or_intror Iy))). lia.
Qed.

Lemma length_concat_sum {X} (ls : list (list X)) :
  length (concat ls) = list_sum (map (@length X) ls).
Proof.
  induction ls as [|l ls IH]; simpl; [reflexivity|]. now rewrite length_app, IH.
Qed.

(** The subgraph on a closed set of nodes keeps the degrees, and has no
    more edges than the graph. *)
Lemma subgraph_closed_degrees G ns :
  wf G -> (forall u w, In u ns -> adj G u w -> In w ns) ->
  degree (subgraph G ns)
  = filter (fun '(n, _) => mem n ns) (degree G) /\
  number_of_edges (subgraph G ns) <= number_of_edges G.
Proof.
  intros W C. pose proof (wf_subgraph G ns W) as WS.
  assert (D : degree (subgraph G ns) = filter (fun '(n, _) => mem n ns) (degree G)).
  { rewrite (degree_by_nodes _ WS), (degree_by_nodes _ W), nodes_subgraph.
    generalize (nodes G). intros l. induction l as [|n l IH]; simpl; [reflexivity|].
    destruct (mem n ns) eqn:M; simpl; [|assumption]. rewrite IH. f_equal. f_equal. f_equal.
    apply mem_In in M. apply neighbors_subgraph_closed; [assumption|].
    intros w Iw. eapply C; eauto. }
  split; [exact D|].
  unfold number_of_edges. rewrite !fold_add_list_sum, !Nat.add_0_l, D.
  apply Nat.Div0.div_le_mono.
  assert (E : forall l : list (K * nat),
             map snd (filter (fun '(n, _) => mem n ns) l)
             = map snd (filter (fun x => mem (fst x) ns) l)).
  { intros l. f_equal. apply filter_ext. now intros [n d]. }
  rewrite E. apply list_sum_filter_le.
Qed.
End Search.

End SearchFacts.

(* ================================================================== *)
(** * The queries, run *)
(* ================================================================== *)

Module RunFacts.
Import Py PyFacts Nx NxFacts AirTraffic AirTrafficFacts.
Import EdgeCountFacts SearchFacts DiameterFacts.
Unset Implicit Arguments.
Local Open Scope m_scope.
Local Open Scope string_scope.

(** A graph without nodes is the empty graph. *)
Lemma no_nodes_empty (G : AGraph) : wf G -> nodes G = [] -> G = empty_graph.
Proof.
  intros W N. pose proof (wf_keys W) as E. destruct G as [nd ad].
  unfold nodes, dict_keys in *. cbn [_node _adj] in *. rewrite N in E.
  apply map_eq_nil in N, E. now subst.
Qed.

(** ** The entry point without data *)

(** X15: a data file that is missing.  If either of the two files does not
    exist, [main] ends with [FileNotFoundError] before any query has run:
    nothing is printed and nothing is plotted. *)
Theorem main_missing_file
        (Score : Type) (score_ltb : Score -> Score -> bool)
        (betweenness_centrality : AGraph -> dict string Score)
        (format_6f : Score -> string) (w : World) :
  dict_get "global-cities.dat" (files w) = None \/
  dict_get "global-net.dat" (files w) = None ->
  let r := @main Score score_ltb betweenness_centrality format_6f w in
  fst r = inl FileNotFoundError /\
  stdout (snd r) = stdout w /\ figures (snd r) = figures w /\ files (snd r) = files w.
Proof.
  intros Hf r.
  assert (Run : exists G0,
             r = (inl FileNotFoundError,
                  mkWorld (files w) (heap w ++ [G0])%list (stdout w) (figures w))).
  { unfold r, main. unfold bind at 1. rewrite build_graph_run.
    destruct (dict_get "global-cities.dat" (files w)) as [cities|] eqn:Ec.
    - destruct Hf as [Hf|Hf]; [discriminate|]. rewrite Hf. eauto.
    - eauto. }
  destruct Run as [G0 ->]. repeat split.
Qed.

Lemma main_missing_file_witness :
  fst (@main nat Nat.ltb (fun G => map (fun n => (n, 0)) (nodes G)) str
             (mkWorld [("global-cities.dat", ["CBR|1|Canberra"])] [] [] []))
  = inl FileNotFoundError.
Proof.
  apply (main_missing_file nat Nat.ltb (fun G => map (fun n => (n, 0)) (nodes G)) str
           (mkWorld [("global-cities.dat", ["CBR|1|Canberra"])] [] [] [])).
  right. reflexivity.
Defined.

(** X16: the queries on a graph without nodes.  Q1 prints two zeros; Q6
    reports that it cannot find the airports; Q2, Q3, Q4, Q5 and Q7 take
    the maximum of no components at all and raise [ValueError] before they
    print or plot anything. *)
Theorem queries_on_empty_graph
        (Score : Type) (score_ltb : Score -> Score -> bool)
        (betweenness_centrality : AGraph -> dict string Score)
        (format_6f : Score -> string) (w : World) (g : nat) :
  let G := nth g (heap w) empty_graph in
  wf G -> nodes G = [] ->
  solve_problem2_q1 g w
  = (inr tt, mkWorld (files w) (heap w)
               (stdout w ++ ["=== Problem2 (Q1) ===";
                             "Number of nodes (undirected): 0";
                             "Number of edges (undirected): 0"])%list (figures w)) /\
  solve_problem2_q2 g w = (inl ValueError, w) /\
  solve_problem2_q3 g w = (inl ValueError, w) /\
  solve_problem2_q4 g w = (inl ValueError, w) /\
  solve_problem2_q5 g w = (inl ValueError, w) /\
  solve_problem2_q6 g w
  = (inr tt, mkWorld (files w) (heap w)
               (stdout w ++ ["Could not find 'CBR' or 'CPT' in the graph. Check data or code attribute."])%list
               (figures w)) /\
  @solve_problem2_q7 Score score_ltb betweenness_centrality format_6f g w
  = (inl ValueError, w).
Proof.
  intros G W N. pose proof (no_nodes_empty G W N) as E. unfold G in E.
  unfold solve_problem2_q1, solve_problem2_q2, solve_problem2_q3, solve_problem2_q4,
    solve_problem2_q5, solve_problem2_q6, solve_problem2_q7, bind, deref, print, lift.
  rewrite E. cbn. repeat split; rewrite <- ?app_assoc; reflexivity.
Qed.

Lemma queries_on_empty_graph_witness :
  solve_problem2_q2 0 (mkWorld [] [load ["no bars here"] ["1"]] [] [])
  = (inl ValueError, mkWorld [] [load ["no bars here"] ["1"]] [] []).
Proof.
  apply (queries_on_empty_graph nat Nat.ltb (fun G => map (fun n => (n, 0)) (nodes G)) str
           (mkWorld [] [load ["no bars here"] ["1"]] [] []) 0).
  - apply wf_load.
  - reflexivity.
Defined.

(** X17: data files without a single usable line.  [main] builds a graph
    without nodes, Q1 prints its three lines with two zeros, and Q2 ends
    the run with [ValueError]; Q3 to Q7 never start. *)
Theorem main_on_empty_data
        (Score : Type) (score_ltb : Score -> Score -> bool)
        (betweenness_centrality : AGraph -> dict string Score)
        (format_6f : Score -> string) (w : World) (cities net : list string) :
  dict_get "global-cities.dat" (files w) = Some cities ->
  dict_get "global-net.dat" (files w) = Some net ->
  nodes (load cities net) = [] ->
  @main Score score_ltb betweenness_centrality format_6f w
  = (inl ValueError,
     mkWorld (files w) (heap w ++ [load cities net])%list
             (stdout w ++ ["=== Problem2 (Q1) ===";
                           "Number of nodes (undirected): 0";
                           "Number of edges (undirected): 0"])%list (figures w)).
Proof.
  intros Ec En N. pose proof (no_nodes_empty _ (wf_load cities net) N) as E.
  unfold main. unfold bind at 1. rewrite build_graph_run, Ec, En.
  unfold solve_problem2_q1, solve_problem2_q2, bind, deref, print, lift. cbn [heap].
  rewrite nth_last, E. cbn. rewrite <- !app_assoc. reflexivity.
Qed.

Lemma main_on_empty_data_witness :
  fst (@main nat Nat.ltb (fun G => map (fun n => (n, 0)) (nodes G)) str
             (mkWorld [("global-cities.dat", [""; "no bars here"]);
                       ("global-net.dat", ["1"; "1 2 3"])] [] [] []))
  = inl ValueError.
Proof.
  rewrite (main_on_empty_data nat Nat.ltb (fun G => map (fun n => (n, 0)) (nodes G)) str
             (mkWorld [("global-cities.dat", [""; "no bars here"]);
                       ("global-net.dat", ["1"; "1 2 3"])] [] [] [])
             [""; "no bars here"] ["1"; "1 2 3"] eq_refl eq_refl eq_refl).
  reflexivity.
Defined.

(** ** Q6: the route *)

Lemma dict_entry_unique {V} (d : dict string V) k v v' :
  NoDup (dict_keys d) -> In (k, v) d -> In (k, v') d -> v = v'.
Proof.
  intros N I I'. apply (dict_get_In k v d N) in I. apply (dict_get_In k v' d N) in I'.
  congruence.
Qed.

Lemma q6_find_distinct (G : AGraph) s t :
  wf G -> q6_find (_node G) = (Some s, Some t) ->
  In s (nodes G) /\ In t (nodes G) /\ s <> t.
Proof.
  intros W F. rewrite q6_find_last in F. injection F as Fs Ft.
  split; [now apply last_with_code_key in Fs|].
  split; [now apply last_with_code_key in Ft|].
  apply last_with_code_Some in Fs as (l1 & a & l2 & E1 & C1 & _).
  apply last_with_code_Some in Ft as (l1' & a' & l2' & E2 & C2 & _).
  intros <-.
  assert (a = a').
  { apply (dict_entry_unique (_node G) s a a' (wf_nodup W)).
    - rewrite E1. apply in_or_app. right. now left.
    - rewrite E2. apply in_or_app. right. now left. }
  subst a'. rewrite (code_is_exclusive a C1) in C2. discriminate.
Qed.

(** X18: the route that Q6 prints.  When both airports are found and some
    walk joins them, the route is a path of the graph from the "CBR" node
    to the "CPT" node, the number of flights printed is the distance
    between the two, which is at least 1, and the query prints its four
    lines, unless a node of the route has no [city], when it raises
    [KeyError] without printing. *)
Theorem q6_reports_shortest_route (w : World) (g : nat) (s t : string) :
  let G := nth g (heap w) empty_graph in
  wf G -> q6_find (_node G) = (Some s, Some t) -> reach G s t ->
  exists path flights,
    shortest_path G s t = inr path /\
    is_path G path /\ hd_error path = Some s /\ last path s = t /\
    length path = S flights /\ dist G s t flights /\ 1 <= flights /\
    ((rmap (city_of G) path = inl KeyError /\
      solve_problem2_q6 g w = (inl KeyError, w))
     \/
     (exists path_cities,
         rmap (city_of G) path = inr path_cities /\
         solve_problem2_q6 g w
         = (inr tt,
            mkWorld (files w) (heap w)
              (stdout w ++
               ["=== Problem2 (Q6) ===";
                ("Smallest number of flights from Canberra (CBR) to Cape Town (CPT): "
                 ++ str flights)%string;
                "Route (city/airport names only):";
                join " -> " path_cities])%list (figures w)))).
Proof.
  intros G W F R. destruct (q6_find_distinct G s t W F) as (Is & It & Nst).
  destruct (shortest_path_spec G s t W Is It R) as (path & d & SP & P1 & P2 & P3 & Len & D).
  exists path, d. repeat (split; [assumption|]).
  split.
  { destruct d; [|lia]. apply dist_zero in D. contradiction. }
  unfold solve_problem2_q6, bind, deref. fold G. rewrite F, SP.
  destruct (rmap (city_of G) path) as [e|cities] eqn:Ec.
  - left. rewrite (rmap_city_error _ _ _ Ec). split; reflexivity.
  - right. exists cities. split; [reflexivity|].
    unfold lift, print. cbn [fst snd stdout files heap figures].
    rewrite <- !app_assoc, Len. cbn [app]. 
    replace (S d - 1) with d by lia. reflexivity.
Qed.

Lemma q6_reports_shortest_route_witness :
  let G := load ["CBR|1|Canberra"; "SYD|2|Sydney"; "CPT|3|Cape Town"] ["1 2"; "2 3"] in
  exists path, shortest_path G "1" "3" = inr path /\ length path = 3.
Proof.
  intros G.
  destruct (q6_reports_shortest_route (mkWorld [] [G] [] []) 0 "1" "3")
    as (path & flights & SP & _ & _ & _ & Len & D & _).
  - apply wf_load.
  - reflexivity.
  - exists 2. apply walk_step with (v := "2"); [vm_compute; tauto|].
    apply walk_step with (v := "3"); [vm_compute; tauto | apply walk_nil].
  - exists path. split; [exact SP|]. rewrite Len. f_equal.
    vm_compute in SP. injection SP as <-. simpl in Len. lia.
Defined.

(** ** Q2: the components *)

Lemma largest_cc_component (G GL : AGraph) :
  wf G -> largest_cc G = inr GL ->
  exists v c,
    In v (nodes G) /\ c = _plain_bfs G v /\ In c (connected_components G) /\
    GL = subgraph G c /\
    forall c', In c' (connected_components G) -> length c' <= length c.
Proof.
  intros W L. unfold largest_cc in L.
  destruct (connected_components G) as [|c0 cs] eqn:E; [discriminate|].
  destruct (max_by_len_In (c0 :: cs)) as (c & Ec & Ic & Mc); [discriminate|].
  rewrite Ec in L. cbn [rbind] in L. injection L as <-.
  assert (Ic' : In c (connected_components G)) by now rewrite E.
  destruct (components_source G c Ic') as (v & Iv & Ev).
  exists v, c. auto.
Qed.

Lemma largest_cc_nodes (G GL : AGraph) :
  wf G -> largest_cc G = inr GL ->
  exists c,
    In c (connected_components G) /\ GL = subgraph G c /\
    number_of_nodes GL = length c /\ c <> [] /\
    (forall u w, In u c -> adj G u w -> In w c) /\
    (forall n, In n (nodes GL) <-> In n c) /\
    (forall c', In c' (connected_components G) -> length c' <= length c).
Proof.
  intros W L. destruct (largest_cc_component G GL W L) as (v & c & Iv & Ec & Ic & EG & Mc).
  destruct (plain_bfs_closed G v W Iv) as (Nc & Inc & Cc & Rc). rewrite <- Ec in *.
  exists c. split; [assumption|]. split; [assumption|].
  assert (Nn : forall n, In n (nodes GL) <-> In n c).
  { intros n. rewrite EG, nodes_subgraph, filter_In, mem_In. split; [tauto | auto]. }
  split; [|split; [|split; [|split]]]; try assumption.
  - rewrite number_of_nodes_length, EG, nodes_subgraph.
    apply filter_mem_length; [apply (wf_nodup W) | assumption | assumption].
  - intros ->. apply (Rc v). apply reach_refl.
Qed.

Lemma q2_run (w : World) (g : nat) (GL : AGraph) :
  largest_cc (nth g (heap w) empty_graph) = inr GL ->
  solve_problem2_q2 g w
  = (inr tt,
     mkWorld (files w) (heap w)
       (stdout w ++
        ["=== Problem2 (Q2) ===";
         ("Number of connected components: "
          ++ str (number_connected_components (nth g (heap w) empty_graph)))%string;
         "Largest connected component:";
         ("   Nodes: " ++ str (number_of_nodes GL))%string;
         ("   Edges: " ++ str (number_of_edges GL))%string])%list (figures w)).
Proof.
  intros L. unfold solve_problem2_q2, bind, deref, lift, print. rewrite L.
  cbn [fst snd stdout files heap figures]. rewrite <- !app_assoc. reflexivity.
Qed.

(** X19: what Q2 counts.  On a graph with at least one node the components
    partition the nodes (every node lies in exactly one of them), none is
    empty and none is larger than the one Q2 reports; so there are between
    one and [n] components, the largest holds at least [n] divided by their
    number and at most [n] nodes, and no more edges than the graph.  Q2
    then prints its five lines and raises nothing. *)
Theorem q2_component_counts (w : World) (g : nat) :
  let G := nth g (heap w) empty_graph in
  wf G -> nodes G <> [] ->
  exists largest,
    largest_cc G = inr largest /\
    Permutation (concat (connected_components G)) (nodes G) /\
    (forall c, In c (connected_components G) ->
               1 <= length c <= number_of_nodes largest) /\
    1 <= number_connected_components G <= number_of_nodes G /\
    number_of_nodes largest <= number_of_nodes G /\
    number_of_nodes G <= number_connected_components G * number_of_nodes largest /\
    number_of_edges largest <= number_of_edges G /\
    solve_problem2_q2 g w
    = (inr tt,
       mkWorld (files w) (heap w)
         (stdout w ++
          ["=== Problem2 (Q2) ===";
           ("Number of connected components: "
            ++ str (number_connected_components G))%string;
           "Largest connected component:";
           ("   Nodes: " ++ str (number_of_nodes largest))%string;
           ("   Edges: " ++ str (number_of_edges largest))%string])%list
         (figures w)).
Proof.
  intros G W N. destruct (largest_cc_exists G W N) as (v0 & GL & _ & L & _).
  exists GL. split; [exact L|].
  destruct (components_partition G W) as [Pm Src].
  destruct (largest_cc_nodes G GL W L) as (c & Ic & EG & Ln & Nc & Cc & Nn & Mc).
  assert (Sz : forall c', In c' (connected_components G) ->
                          1 <= length c' <= number_of_nodes GL).
  { intros c' Ic'. split; [|rewrite Ln; now apply Mc].
    destruct (Src c' Ic') as (v & Iv & ->).
    destruct (plain_bfs_head G v) as [rest ->]. simpl. lia. }
  assert (Tot : number_of_nodes G
                = list_sum (map (@length string) (connected_components G))).
  { rewrite number_of_nodes_length, <- (Permutation_length Pm). apply length_concat_sum. }
  assert (Lo : length (connected_components G) <= number_of_nodes G).
  { rewrite Tot.
    replace (length (connected_components G))
      with (length (map (@length string) (connected_components G)))
      by apply length_map.
    apply list_sum_lower.
    intros x Ix. apply in_map_iff in Ix as (c' & <- & Ic'). now apply Sz. }
  assert (Hi : number_of_nodes G
               <= length (connected_components G) * number_of_nodes GL).
  { rewrite Tot.
    replace (length (connected_components G))
      with (length (map (@length string) (connected_components G)))
      by apply length_map.
    apply list_sum_bound.
    intros x Ix. apply in_map_iff in Ix as (c' & <- & Ic'). now apply Sz. }
  split; [exact Pm|]. split; [exact Sz|]. unfold number_connected_components.
  split.
  { split; [|exact Lo]. destruct (connected_components G); [destruct Ic | simpl; lia]. }
  split.
  { rewrite Ln, number_of_nodes_length. apply NoDup_incl_length.
    - destruct (Src c Ic) as (v & Iv & ->). now apply (plain_bfs_closed G v W Iv).
    - intros x Ix. destruct (Src c Ic) as (v & Iv & ->).
      now apply (plain_bfs_closed G v W Iv). }
  split; [exact Hi|]. split.
  { rewrite EG. now apply (subgraph_closed_degrees G c W Cc). }
  now apply q2_run.
Qed.

Lemma q2_component_counts_witness :
  let G := load ["A|1|CityA"; "B|2|CityB"; "C|3|CityC"] ["1 2"; "7 8"] in
  number_of_nodes G <= number_connected_components G * 2.
Proof.
  intros G.
  destruct (q2_component_counts (mkWorld [] [G] [] []) 0) as (GL & L & _ & _ & _ & _ & H & _).
  - apply wf_load.
  - discriminate.
  - vm_compute in L. injection L as <-. exact H.
Defined.

(** X20: Q2 on a connected network.  When every two nodes are joined by a
    walk there is one component, the largest component is the graph
    itself, and the node and edge counts that Q2 prints are those of Q1. *)
Theorem q2_connected_graph (w : World) (g : nat) :
  let G := nth g (heap w) empty_graph in
  wf G -> nodes G <> [] -> connected G ->
  number_connected_components G = 1 /\
  largest_cc G = inr G /\
  solve_problem2_q2 g w
  = (inr tt,
     mkWorld (files w) (heap w)
       (stdout w ++
        ["=== Problem2 (Q2) ===";
         "Number of connected components: 1";
         "Largest connected component:";
         ("   Nodes: " ++ str (number_of_nodes G))%string;
         ("   Edges: " ++ str (number_of_edges G))%string])%list (figures w)).
Proof.
  intros G W N C. destruct (nodes G) as [|v rest] eqn:E; [congruence|].
  pose proof (components_connected G v rest W C E) as CC.
  assert (Iv : In v (nodes G)) by (rewrite E; now left).
  assert (L : largest_cc G = inr G).
  { unfold largest_cc. rewrite CC. cbn [max_by_len fold_left rbind]. f_equal.
    apply subgraph_all; [assumption|]. intros x Ix.
    apply (plain_bfs_closed G v W Iv). now apply C. }
  assert (N1 : number_connected_components G = 1).
  { unfold number_connected_components. now rewrite CC. }
  split; [exact N1|]. split; [exact L|].
  rewrite (q2_run w g G L). fold G. rewrite N1. reflexivity.
Qed.

Lemma q2_connected_graph_witness :
  let G := load ["A|1|CityA"; "B|2|CityB"; "C|3|CityC"] ["1 2"; "2 3"] in
  largest_cc G = inr G.
Proof.
  intros G.
  apply (q2_connected_graph (mkWorld [] [G] [] []) 0).
  - apply wf_load.
  - discriminate.
  - change (connected G). intros u v Iu Iv.
    assert (R : forall x, In x (nodes G) -> reach G "2" x).
    { intros x Ix. vm_compute in Ix. destruct Ix as [<-|[<-|[<-|[]]]].
      - exists 1. apply walk_step with (v := "1"); [vm_compute; tauto | apply walk_nil].
      - apply reach_refl.
      - exists 1. apply walk_step with (v := "3"); [vm_compute; tauto | apply walk_nil]. }
    apply reach_trans with "2"; [|now apply R].
    apply reach_sym; [apply wf_load | now apply R].
Defined.

(** ** Q3: the degrees *)

(** X21: the degrees that Q3 sorts.  No edge leaves the largest component,
    so that a node has there the neighbours, the attributes and the degree
    it has in the whole graph. *)
Theorem largest_component_keeps_degrees (G G_largest : AGraph) :
  wf G -> largest_cc G = inr G_largest ->
  (forall u v, In u (nodes G_largest) -> adj G u v -> In v (nodes G_largest)) /\
  (forall n, In n (nodes G_largest) ->
             neighbors G_largest n = neighbors G n /\
             dict_get n (_node G_largest) = dict_get n (_node G)) /\
  (forall n d, In (n, d) (degree G_largest) <->
               In n (nodes G_largest) /\ In (n, d) (degree G)) /\
  number_of_edges G_largest <= number_of_edges G.
Proof.
  intros W L. destruct (largest_cc_nodes G G_largest W L)
    as (c & Ic & EG & Ln & Nc & Cc & Nn & Mc).
  destruct (subgraph_closed_degrees G c W Cc) as [D NE]. rewrite <- EG in D, NE.
  split; [|split; [|split]].
  - intros u v Iu A. apply Nn. apply Nn in Iu. eapply Cc; eauto.
  - intros n In'. apply Nn in In'. split.
    + rewrite EG. apply neighbors_subgraph_closed; [assumption|].
      intros x Ix. eapply Cc; eauto.
    + rewrite EG, attrs_subgraph. apply mem_In in In'. now rewrite In'.
  - intros n d. rewrite D, filter_In, Nn, mem_In. tauto.
  - exact NE.
Qed.

Lemma largest_component_keeps_degrees_witness :
  let G := load ["A|1|CityA"; "B|2|CityB"; "C|3|CityC"] ["1 2"; "7 8"; "2 3"] in
  number_of_edges (subgraph G ["1"; "2"; "3"]) <= number_of_edges G.
Proof.
  intros G.
  assert (L : largest_cc G = inr (subgraph G ["1"; "2"; "3"]))
    by (vm_compute; reflexivity).
  destruct (largest_component_keeps_degrees G (subgraph G ["1"; "2"; "3"])
                                            (wf_load _ _) L) as (_ & _ & _ & E).
  exact E.
Defined.

(** ** Printing the names of a list of nodes *)

Section Lines.
Context {X : Type} (G : AGraph) (line : string -> X -> string).

Let body : string * X -> M unit :=
  fun '(node_id, d) => city_name <- lift (city_of G node_id) ;; print (line city_name d).

Let text (names : list string) (xs : list (string * X)) : list string :=
  map (fun '(c, x) => line c (snd x)) (combine names xs).

Lemma for_each_lines xs : forall w names,
  rmap (fun x => city_of G (fst x)) xs = inr names ->
  for_each xs body w
  = (inr tt, mkWorld (files w) (heap w) (stdout w ++ text names xs)%list (figures w)).
Proof.
  induction xs as [|[n d] xs IH]; intros w names E.
  - injection E as <-. unfold text. cbn. rewrite app_nil_r. now destruct w.
  - cbn [rmap fst] in E. destruct (city_of G n) as [e|c] eqn:Ec; [discriminate|].
    cbn [rbind] in E.
    destruct (rmap (fun x => city_of G (fst x)) xs) as [e|cs] eqn:Er; [discriminate|].
    injection E as <-. cbn [for_each]. unfold bind at 1. unfold body at 1.
    unfold bind at 1, lift at 1. rewrite Ec. unfold print at 1.
    rewrite (IH _ cs eq_refl). cbn [files heap stdout figures].
    unfold text. cbn [combine map snd]. now rewrite <- app_assoc.
Qed.

Lemma for_each_lines_fail pre x rest : forall w names,
  rmap (fun x => city_of G (fst x)) pre = inr names ->
  city_of G (fst x) = inl KeyError ->
  for_each (pre ++ x :: rest) body w
  = (inl KeyError,
     mkWorld (files w) (heap w) (stdout w ++ text names pre)%list (figures w)).
Proof.
  induction pre as [|[n d] pre IH]; intros w names E F.
  - injection E as <-. destruct x as [n d]. cbn [app for_each]. unfold bind at 1.
    unfold body at 1. unfold bind at 1, lift at 1. cbn [fst] in F. rewrite F.
    unfold text. cbn. rewrite app_nil_r. now destruct w.
  - cbn [rmap fst] in E. destruct (city_of G n) as [e|c] eqn:Ec; [discriminate|].
    cbn [rbind] in E.
    destruct (rmap (fun x => city_of G (fst x)) pre) as [e|cs] eqn:Er; [discriminate|].
    injection E as <-. cbn [app for_each]. unfold bind at 1. unfold body at 1.
    unfold bind at 1, lift at 1. rewrite Ec. unfold print at 1.
    rewrite (IH _ cs eq_refl F). cbn [files heap stdout figures].
    unfold text. cbn [combine map snd]. now rewrite <- app_assoc.
Qed.
End Lines.

(** X22: what Q3 prints.  After its two header lines Q3 prints one line
    for each of the ten pairs, in order, made of the city of the node and
    its degree.  If a node of the list has no [city], the lines of the
    nodes ahead of it are printed before [KeyError] is raised. *)
Theorem q3_output (w : World) (g : nat) (G_largest : AGraph) :
  largest_cc (nth g (heap w) empty_graph) = inr G_largest ->
  let top_10 := q3_top_10 G_largest in
  let lines (names : list string) (pairs : list (string * nat)) :=
    map (fun '(c, x) => "  - City/Airport: " ++ c ++ ", Degree: " ++ str (snd x))
        (combine names pairs) in
  let header := ["=== Problem2 (Q3) ===";
                 "Top 10 nodes in the largest component by degree:"] in
  (forall names,
      rmap (fun x => city_of G_largest (fst x)) top_10 = inr names ->
      solve_problem2_q3 g w
      = (inr tt, mkWorld (files w) (heap w)
                   (stdout w ++ header ++ lines names top_10)%list (figures w))) /\
  (forall pre x rest names,
      top_10 = (pre ++ x :: rest)%list ->
      rmap (fun x => city_of G_largest (fst x)) pre = inr names ->
      city_of G_largest (fst x) = inl KeyError ->
      solve_problem2_q3 g w
      = (inl KeyError, mkWorld (files w) (heap w)
                         (stdout w ++ header ++ lines names pre)%list (figures w))).
Proof.
  intros L top_10 lines header.
  assert (Run : solve_problem2_q3 g w
                = for_each top_10
                    (fun '(node_id, deg) =>
                       city_name <- lift (city_of G_largest node_id) ;;
                       print ("  - City/Airport: " ++ city_name ++ ", Degree: " ++ str deg))
                    (mkWorld (files w) (heap w) (stdout w ++ header)%list (figures w))).
  { unfold solve_problem2_q3. unfold bind at 1. unfold deref at 1.
    unfold bind at 1. unfold lift at 1. rewrite L.
    unfold bind at 1. unfold print at 1. unfold bind at 1. unfold print at 1.
    cbn [files heap stdout figures]. now rewrite <- app_assoc. }
  split.
  - intros names E. rewrite Run.
    rewrite (for_each_lines G_largest
               (fun c (deg : nat) => "  - City/Airport: " ++ c ++ ", Degree: " ++ str deg)
               top_10 _ names E).
    cbn [files heap stdout figures]. now rewrite <- app_assoc.
  - intros pre x rest names Et E F. rewrite Run, Et.
    rewrite (for_each_lines_fail G_largest
               (fun c (deg : nat) => "  - City/Airport: " ++ c ++ ", Degree: " ++ str deg)
               pre x rest _ names E F).
    cbn [files heap stdout figures]. now rewrite <- app_assoc.
Qed.

Lemma q3_output_witness :
  let G := load ["A|1|CityA"; "B|2|CityB"] ["1 2"; "2 9"] in
  solve_problem2_q3 0 (mkWorld [] [G] [] [])
  = (inl KeyError,
     mkWorld [] [G]
       ["=== Problem2 (Q3) ==="; "Top 10 nodes in the largest component by degree:";
        "  - City/Airport: CityB, Degree: 2"; "  - City/Airport: CityA, Degree: 1"] []).
Proof.
  intros G.
  destruct (q3_output (mkWorld [] [G] [] []) 0 (subgraph G ["1"; "2"; "9"]) eq_refl)
    as [_ F].
  apply (F [("2", 2); ("1", 1)] ("9", 1) [] ["CityB"; "CityA"]); reflexivity.
Defined.

(** ** Q4: the two plots *)

Lemma q4_distribution_total (GL : AGraph) :
  wf GL -> nodes GL <> [] -> exists xy, q4_distribution GL = inr xy.
Proof.
  intros WL NL. pose proof (DistributionFacts.degrees_nonempty GL WL NL) as D.
  unfold q4_distribution. rewrite DistributionFacts.Counter_count_degrees.
  rewrite <- (DistributionFacts.degrees_length GL WL).
  rewrite (DistributionFacts.fractions_fold _ D) by auto. eauto.
Qed.

(** X23: the two figures of Q4.  On a graph with at least one node Q4
    raises nothing (no division by zero), prints nothing, and hands the
    same series twice to the plotting library: the plot on linear axes and
    the plot on logarithmic axes show the same points. *)
Theorem q4_plots_twice (w : World) (g : nat) :
  let G := nth g (heap w) empty_graph in
  wf G -> nodes G <> [] ->
  exists G_largest x y,
    largest_cc G = inr G_largest /\
    q4_distribution G_largest = inr (x, y) /\
    solve_problem2_q4 g w
    = (inr tt, mkWorld (files w) (heap w) (stdout w)
                 (figures w ++ [(x, y); (x, y)])%list).
Proof.
  intros G W N. destruct (largest_cc_exists G W N) as (v & GL & Iv & L & _ & WL & IL).
  assert (NL : nodes GL <> []) by (intros E; rewrite E in IL; destruct IL).
  destruct (q4_distribution_total GL WL NL) as [[x y] Q].
  exists GL, x, y. split; [exact L|]. split; [exact Q|].
  unfold solve_problem2_q4, bind, deref, lift, plot. fold G. rewrite L, Q.
  cbn [fst snd files heap stdout figures]. now rewrite <- app_assoc.
Qed.

Lemma q4_plots_twice_witness :
  let G := load ["A|1|CityA"; "B|2|CityB"] ["1 2"] in
  exists x y,
    solve_problem2_q4 0 (mkWorld [] [G] [] [])
    = (inr tt, mkWorld [] [G] [] [(x, y); (x, y)]).
Proof.
  intros G.
  destruct (q4_plots_twice (mkWorld [] [G] [] []) 0) as (GL & x & y & _ & _ & E).
  - apply wf_load.
  - discriminate.
  - exists x, y. exact E.
Defined.

(** ** The whole run *)

Lemma is_path_nodes (G : AGraph) p : forall s,
  wf G -> is_path G p -> hd_error p = Some s -> In s (nodes G) -> incl p (nodes G).
Proof.
  induction p as [|a p IH]; intros s W P Hd Is x Ix; [destruct Ix|].
  injection Hd as ->. destruct Ix as [<-|Ix]; [assumption|].
  destruct p as [|b p]; [destruct Ix|]. destruct P as [Ab P].
  apply (IH b W P eq_refl); [|assumption]. eapply wf_neighbor_node; eauto.
Qed.

Lemma shortest_path_nodes (G : AGraph) s t path :
  wf G -> shortest_path G s t = inr path -> incl path (nodes G).
Proof.
  intros W. unfold shortest_path, single_source_shortest_path.
  destruct (has_node G s) eqn:Hs; [|discriminate].
  destruct (has_node G t); [|discriminate]. cbn [andb rbind].
  destruct (dict_get t _) as [p|] eqn:D; [|discriminate]. intros [= <-].
  apply dict_get_Some_In in D.
  destruct (bfs_paths_valid G s t p D) as (P & Hd & _).
  eapply is_path_nodes; eauto. now apply has_node_In.
Qed.

Lemma shortest_path_error (G : AGraph) s t e :
  In s (nodes G) -> In t (nodes G) -> shortest_path G s t = inl e -> e = NetworkXNoPath.
Proof.
  intros Is It. unfold shortest_path, single_source_shortest_path.
  apply has_node_In in Is, It. rewrite Is, It. cbn [andb rbind].
  destruct (dict_get t _); [discriminate | now intros [= <-]].
Qed.

Lemma rmap_named_fst {X} (G : AGraph) (l : list (string * X)) :
  all_named G -> (forall x, In x l -> In (fst x) (nodes G)) ->
  exists names, rmap (fun x => city_of G (fst x)) l = inr names.
Proof.
  intros A I.
  destruct (rmap_Forall2 (fun x => city_of G (fst x)) l) as (names & E & _); eauto.
Qed.

Lemma rmap_named (G : AGraph) (l : list string) :
  all_named G -> incl l (nodes G) -> exists names, rmap (city_of G) l = inr names.
Proof.
  intros A I. destruct (rmap_Forall2 (city_of G) l) as (names & E & _); eauto.
Qed.

Lemma add_nodes_dict (nd : dict string attrs) : forall g : AGraph,
  NoDup (dict_keys nd) ->
  (forall k, In k (dict_keys nd) -> ~ In k (nodes g)) ->
  _node (fold_left (fun g '(n, a) => add_node n a g) nd g) = (_node g ++ nd)%list.
Proof.
  induction nd as [|[n a] nd IH]; simpl; intros g N D; [now rewrite app_nil_r|].
  inversion N as [|? ? Nn Nd]; subst.
  assert (Hn : ~ In n (nodes g)) by (apply D; now left).
  assert (E : _node (add_node n a g) = (_node g ++ [(n, a)])%list).
  { unfold add_node. assert (dict_get n (_node g) = None) as -> by now apply dict_get_None.
    cbn [_node]. rewrite dict_set_notin by assumption.
    destruct a as [[c|] [y|]]; reflexivity. }
  rewrite IH.
  - now rewrite E, <- app_assoc.
  - assumption.
  - intros k Ik. unfold nodes. rewrite E, dict_keys_app. intros J.
    apply in_app_or in J as [J|[<-|[]]]; [|contradiction].
    apply (D k); [now right | assumption].
Qed.

(** A copy carries the attributes of the original. *)
Lemma copy_node_dict (G : AGraph) : wf G -> _node (copy G) = _node G.
Proof.
  intros W. unfold copy.
  set (G1 := fold_left (fun g '(n, a) => add_node n a g) (_node G) empty_graph).
  assert (N1 : _node G1 = _node G).
  { unfold G1. rewrite add_nodes_dict; [reflexivity | apply (wf_nodup W) | intros k _ []]. }
  assert (W1 : wf G1) by (apply add_nodes_wf, wf_empty).
  destruct (add_edges_outer (_adj G) G1 W1) as (_ & N' & _); [|congruence].
  intros u nbrs I. unfold nodes. rewrite N1. fold (nodes G). split.
  - unfold nodes. rewrite <- (wf_keys W). now apply (in_map fst) in I.
  - intros v Iv. apply (wf_neighbor_node G u v W). unfold neighbors.
    rewrite (dict_get_In u nbrs); [assumption | | assumption].
    rewrite (wf_keys W). apply (wf_nodup W).
Qed.

Lemma all_named_copy (G : AGraph) : wf G -> all_named G -> all_named (copy G).
Proof.
  intros W A x Ix. unfold nodes in Ix. rewrite copy_node_dict in Ix by assumption.
  destruct (A x Ix) as [c E]. exists c. unfold city_of in *.
  now rewrite copy_node_dict.
Qed.

Lemma all_named_largest (G GL : AGraph) :
  wf G -> largest_cc G = inr GL -> all_named G -> all_named GL.
Proof.
  intros W L A x Ix.
  unfold largest_cc in L. destruct (max_by_len _) as [e|ns]; [discriminate|].
  injection L as <-. rewrite nodes_subgraph in Ix. apply filter_In in Ix as [Ix M].
  destruct (A x Ix) as [c E]. exists c. unfold city_of in *.
  now rewrite attrs_subgraph, M.
Qed.

Section Completes.
Variables (g : nat) (G : AGraph).
Hypothesis W : wf G.
Hypothesis N : nodes G <> [].
Hypothesis A : all_named G.

Lemma completes_seq (m k : M unit) P Q :
  completes_on g G m P -> completes_on g G k Q ->
  completes_on g G (m ;; k)
    (fun extra out figs =>
       exists e1 o1 f1 e2 o2 f2,
         extra = (e1 ++ e2)%list /\ out = (o1 ++ o2)%list /\ figs = (f1 ++ f2)%list /\
         P e1 o1 f1 /\ Q e2 o2 f2).
Proof.
  intros Hm Hk w Lg Eg. destruct (Hm w Lg Eg) as (e1 & o1 & f1 & Em & Hp).
  unfold bind. rewrite Em.
  set (w1 := mkWorld (files w) (heap w ++ e1)%list (stdout w ++ o1)%list
                     (figures w ++ f1)%list).
  destruct (Hk w1) as (e2 & o2 & f2 & Ek & Hq).
  - unfold w1. cbn [heap]. rewrite length_app. lia.
  - unfold w1. cbn [heap]. now rewrite app_nth1.
  - exists (e1 ++ e2)%list, (o1 ++ o2)%list, (f1 ++ f2)%list.
    rewrite Ek. unfold w1. cbn [files heap stdout figures].
    rewrite !app_assoc. split; [reflexivity|]. exists e1, o1, f1, e2, o2, f2. auto.
Qed.

Lemma q1_completes :
  completes_on g G (solve_problem2_q1 g)
    (fun extra out figs => extra = [] /\ figs = [] /\ In "=== Problem2 (Q1) ===" out).
Proof.
  intros w Lg Eg. exists [], ["=== Problem2 (Q1) ===";
    ("Number of nodes (undirected): " ++ str (number_of_nodes G))%string;
    ("Number of edges (undirected): " ++ str (number_of_edges G))%string], [].
  split; [|repeat split; now left].
  unfold solve_problem2_q1, bind, deref, print. rewrite Eg.
  cbn [files heap stdout figures]. rewrite <- !app_assoc, !app_nil_r. reflexivity.
Qed.

Lemma q2_completes :
  completes_on g G (solve_problem2_q2 g)
    (fun extra out figs => extra = [] /\ figs = [] /\ In "=== Problem2 (Q2) ===" out).
Proof.
  intros w Lg Eg. destruct (largest_cc_exists G W N) as (v0 & GL & _ & L & _).
  rewrite <- Eg in L. rewrite (q2_run w g GL L).
  eexists [], _, []. rewrite (app_nil_r (heap w)), (app_nil_r (figures w)).
  split; [reflexivity|]. repeat split. now left.
Qed.

Lemma q3_completes :
  completes_on g G (solve_problem2_q3 g)
    (fun extra out figs => extra = [] /\ figs = [] /\ In "=== Problem2 (Q3) ===" out).
Proof.
  intros w Lg Eg. destruct (largest_cc_exists G W N) as (v0 & GL & _ & L & _ & WL & _).
  pose proof (all_named_largest G GL W L A) as AL.
  destruct (rmap_named_fst GL (q3_top_10 GL) AL) as [names En].
  { intros x Ix. unfold q3_top_10 in Ix.
    rewrite <- (degree_nodes GL WL). apply in_map.
    eapply Permutation_in; [apply Permutation_sym, sort_desc_perm|].
    rewrite <- (firstn_skipn 10). apply in_or_app. left. exact Ix. }
  unfold solve_problem2_q3. unfold bind at 1. unfold deref at 1. rewrite Eg.
  unfold bind at 1. unfold lift at 1. rewrite L.
  unfold bind at 1. unfold print at 1. unfold bind at 1. unfold print at 1.
  rewrite (for_each_lines GL
             (fun c (deg : nat) => "  - City/Airport: " ++ c ++ ", Degree: " ++ str deg)
             (q3_top_10 GL) _ names En).
  cbn [files heap stdout figures]. rewrite <- !app_assoc.
  eexists [], _, []. rewrite (app_nil_r (heap w)), (app_nil_r (figures w)).
  split; [reflexivity|]. repeat split. now left.
Qed.

Lemma q4_completes :
  completes_on g G (solve_problem2_q4 g)
    (fun extra out figs => extra = [] /\ out = [] /\ exists x y, figs = [(x, y); (x, y)]).
Proof.
  intros w Lg Eg. destruct (largest_cc_exists G W N) as (v & GL & Iv & L & _ & WL & IL).
  assert (NL : nodes GL <> []) by (intros E; rewrite E in IL; destruct IL).
  destruct (q4_distribution_total GL WL NL) as [[x y] Q].
  exists [], [], [(x, y); (x, y)]. split; [|repeat split; eauto].
  unfold solve_problem2_q4, bind, deref, lift, plot. rewrite Eg, L, Q.
  cbn [fst snd files heap stdout figures]. now rewrite <- app_assoc, !app_nil_r.
Qed.

Lemma q5_completes :
  completes_on g G (solve_problem2_q5 g)
    (fun extra out figs =>
       (exists c, extra = [c]) /\ figs = [] /\ In "=== Problem2 (Q5) ===" out).
Proof.
  intros w Lg Eg. destruct (largest_copy_connected G W N) as (view & L & WC & CC & NC).
  destruct (diameter_path (copy view) WC CC NC)
    as (d & p0 & rest & lengths & p1 & rest' & path & D & Pe & SL & Ca & SP & _).
  assert (Q : q5_path (copy view) = inr (Some (d, path))).
  { unfold q5_path. rewrite D. cbn [rbind]. rewrite Pe. cbn [rbind]. rewrite SL.
    cbn [rbind]. rewrite Ca. now rewrite SP. }
  assert (WV : wf view) by apply (largest_cc_wf G view W L).
  assert (AC : all_named (copy view)).
  { apply all_named_copy; [assumption|]. apply (all_named_largest G view W L A). }
  destruct (rmap_named (copy view) path AC) as [names En].
  { apply (shortest_path_nodes (copy view) p0 p1 path WC SP). }
  unfold solve_problem2_q5.
  unfold bind at 1. unfold deref at 1. rewrite Eg.
  unfold bind at 1. unfold lift at 1. rewrite L.
  unfold bind at 1. unfold alloc at 1.
  unfold bind at 1. unfold deref at 1. cbn [heap]. rewrite nth_last.
  unfold bind at 1. unfold lift at 1. rewrite Q.
  unfold bind, lift, print. rewrite En. cbn [fst snd files heap stdout figures].
  rewrite <- !app_assoc.
  eexists [copy view], _, []. rewrite (app_nil_r (figures w)). split; [reflexivity|].
  split; [eauto|]. split; [reflexivity | now left].
Qed.

Lemma q6_completes :
  completes_on g G (solve_problem2_q6 g)
    (fun extra out figs => extra = [] /\ figs = []).
Proof.
  intros w Lg Eg. unfold solve_problem2_q6. unfold bind at 1. unfold deref at 1.
  rewrite Eg.
  assert (Msg : forall s, exists extra out figs,
             print s w
             = (inr tt, mkWorld (files w) (heap w ++ extra)%list (stdout w ++ out)%list
                                (figures w ++ figs)%list)
             /\ extra = [] /\ figs = []).
  { intros s. exists [], [s], []. rewrite !app_nil_r. auto. }
  destruct (q6_find (_node G)) as [[s|] [t|]] eqn:F; try apply Msg.
  destruct (q6_find_distinct G s t W F) as (Is & It & _).
  destruct (shortest_path G s t) as [e|path] eqn:SP.
  - rewrite (shortest_path_error G s t e Is It SP). apply Msg.
  - destruct (rmap_named G path A) as [names En].
    { apply (shortest_path_nodes G s t path W SP). }
    unfold bind, lift, print. rewrite En. cbn [fst snd files heap stdout figures].
    rewrite <- !app_assoc.
    eexists [], _, []. rewrite (app_nil_r (heap w)), (app_nil_r (figures w)).
    split; [reflexivity | auto].
Qed.

Lemma q7_completes (Score : Type) (score_ltb : Score -> Score -> bool)
      (betweenness_centrality : AGraph -> dict string Score)
      (format_6f : Score -> string) :
  (forall G', dict_keys (betweenness_centrality G') = nodes G') ->
  completes_on g G (@solve_problem2_q7 Score score_ltb betweenness_centrality format_6f g)
    (fun extra out figs =>
       (exists c, extra = [c]) /\ figs = [] /\ In "=== Problem2 (Q7) ===" out).
Proof.
  intros Hbc w Lg Eg. destruct (largest_copy_connected G W N) as (view & L & WC & CC & NC).
  assert (WV : wf view) by apply (largest_cc_wf G view W L).
  assert (AC : all_named (copy view)).
  { apply all_named_copy; [assumption|]. apply (all_named_largest G view W L A). }
  set (top_10 := firstn 10 (sort_desc (fun x y : string * Score => score_ltb (snd x) (snd y))
                                      (betweenness_centrality (copy view)))).
  destruct (rmap_named_fst (copy view) top_10 AC) as [names En].
  { intros x Ix. unfold top_10 in Ix. rewrite <- Hbc. apply in_map.
    eapply Permutation_in; [apply Permutation_sym, sort_desc_perm|].
    rewrite <- (firstn_skipn 10). apply in_or_app. left. exact Ix. }
  unfold solve_problem2_q7.
  unfold bind at 1. unfold deref at 1. rewrite Eg.
  unfold bind at 1. unfold lift at 1. rewrite L.
  unfold bind at 1. unfold alloc at 1.
  unfold bind at 1. unfold deref at 1. cbn [heap]. rewrite nth_last.
  unfold bind at 1. unfold print at 1. unfold bind at 1. unfold print at 1.
  fold top_10.
  rewrite (for_each_lines (copy view)
             (fun c (bc_value : Score) =>
                "  - City : " ++ c ++ ", Betweenness: " ++ format_6f bc_value)
             top_10 _ names En).
  cbn [files heap stdout figures]. rewrite <- !app_assoc.
  eexists [copy view], _, []. rewrite (app_nil_r (figures w)). split; [reflexivity|].
  split; [eauto|]. split; [reflexivity | now left].
Qed.
End Completes.

(** X24: a run that ends well.  When both files exist, the graph has at
    least one node and every node has a city (every endpoint of the edge
    file is named by the city file), no query raises: [main] returns
    normally, having printed the blocks of Q1, Q2, Q3, Q5 and Q7 (and one
    of the three outcomes of Q6), shown the two plots of Q4 with the same
    series, and created, besides the graph, only the copies of Q5 and
    Q7.  Betweenness is assumed to score exactly the nodes of its
    argument. *)
Theorem main_completes
        (Score : Type) (score_ltb : Score -> Score -> bool)
        (betweenness_centrality : AGraph -> dict string Score)
        (format_6f : Score -> string) (w : World) (cities net : list string) :
  dict_get "global-cities.dat" (files w) = Some cities ->
  dict_get "global-net.dat" (files w) = Some net ->
  nodes (load cities net) <> [] ->
  all_named (load cities net) ->
  (forall G', dict_keys (betweenness_centrality G') = nodes G') ->
  exists out x y c5 c7,
    @main Score score_ltb betweenness_centrality format_6f w
    = (inr tt,
       mkWorld (files w) (heap w ++ [load cities net; c5; c7])%list
               (stdout w ++ out)%list (figures w ++ [(x, y); (x, y)])%list) /\
    Forall (fun h => In h out)
           ["=== Problem2 (Q1) ==="; "=== Problem2 (Q2) ==="; "=== Problem2 (Q3) ===";
            "=== Problem2 (Q5) ==="; "=== Problem2 (Q7) ==="].
Proof.
  intros Ec En N A Hbc. set (G := load cities net) in *.
  pose proof (wf_load cities net) as W. fold G in W.
  set (g := length (heap w)).
  pose proof (completes_seq g G _ _ _ _ (q1_completes g G)
             (completes_seq g G _ _ _ _ (q2_completes g G W N)
             (completes_seq g G _ _ _ _ (q3_completes g G W N A)
             (completes_seq g G _ _ _ _ (q4_completes g G W N)
             (completes_seq g G _ _ _ _ (q5_completes g G W N A)
             (completes_seq g G _ _ _ _ (q6_completes g G W A)
                (q7_completes g G W N A Score score_ltb betweenness_centrality
                              format_6f Hbc))))))) as Run.
  unfold main. unfold bind at 1. rewrite build_graph_run, Ec, En. fold G g.
  set (w1 := mkWorld (files w) (heap w ++ [G])%list (stdout w) (figures w)).
  destruct (Run w1) as (extra & out & figs & E & P).
  - unfold w1, g. cbn [heap]. rewrite length_app. simpl. lia.
  - unfold w1, g. cbn [heap]. apply nth_last.
  - destruct P as (e1 & o1 & f1 & ea & oa & fa & -> & -> & -> & (-> & -> & I1) & P).
    destruct P as (e2 & o2 & f2 & eb & ob & fb & -> & -> & -> & (-> & -> & I2) & P).
    destruct P as (e3 & o3 & f3 & ec & oc & fc & -> & -> & -> & (-> & -> & I3) & P).
    destruct P as (e4 & o4 & f4 & ed & od & fd & -> & -> & -> & (-> & -> & x & y & ->) & P).
    destruct P as (e5 & o5 & f5 & ee & oe & fe & -> & -> & -> & ((c5 & ->) & -> & I5) & P).
    destruct P as (e6 & o6 & f6 & e7 & o7 & f7 & -> & -> & -> & (-> & ->) & P).
    destruct P as ((c7 & ->) & -> & I7).
    exists (o1 ++ o2 ++ o3 ++ [] ++ o5 ++ o6 ++ o7)%list, x, y, c5, c7.
    split.
    + rewrite E. unfold w1. cbn [files heap stdout figures app].
      rewrite <- !app_assoc. reflexivity.
    + repeat constructor; rewrite ?in_app_iff; auto 10.
Qed.

Lemma main_completes_witness :
  fst (@main nat Nat.ltb (fun G => map (fun n => (n, 0)) (nodes G)) str
             (mkWorld [("global-cities.dat", ["CBR|1|Canberra"; "CPT|2|Cape Town"]);
                       ("global-net.dat", ["1 2"])] [] [] []))
  = inr tt.
Proof.
  destruct (main_completes nat Nat.ltb (fun G => map (fun n => (n, 0)) (nodes G)) str
              (mkWorld [("global-cities.dat", ["CBR|1|Canberra"; "CPT|2|Cape Town"]);
                        ("global-net.dat", ["1 2"])] [] [] [])
              ["CBR|1|Canberra"; "CPT|2|Cape Town"] ["1 2"] eq_refl eq_refl)
    as (out & x & y & c5 & c7 & E & _).
  - discriminate.
  - intros n In'. vm_compute in In'. destruct In' as [<-|[<-|[]]]; eexists; reflexivity.
  - intros G'. unfold dict_keys. rewrite map_map. apply map_id.
  - rewrite E. reflexivity.
Defined.

(** X25: the copies of Q5 and Q7.  The copy of the largest component is a
    well-formed graph with the nodes of the component in the same order
    and with the same attributes; every node has in it the city, the
    neighbours and the number of neighbours that it has in the loaded
    graph. *)
Theorem largest_copy_faithful (G view : AGraph) :
  wf G -> largest_cc G = inr view ->
  wf (copy view) /\
  nodes (copy view) = nodes view /\
  _node (copy view) = _node view /\
  (forall n, In n (nodes (copy view)) ->
             In n (nodes G) /\
             city_of (copy view) n = city_of G n /\
             (forall v, In v (neighbors (copy view) n) <-> In v (neighbors G n)) /\
             length (neighbors (copy view) n) = length (neighbors G n)).
Proof.
  intros W L. pose proof (largest_cc_wf G view W L) as WV.
  destruct (copy_spec view WV) as (WC & NC & BC).
  pose proof (copy_node_dict view WV) as DC.
  destruct (largest_cc_nodes G view W L) as (c & Ic & EG & Ln & Nc & Cc & Nn & Mc).
  split; [assumption|]. split; [assumption|]. split; [assumption|].
  intros n In'. rewrite NC in In'. apply Nn in In' as Jn.
  assert (NV : neighbors view n = neighbors G n).
  { rewrite EG. apply neighbors_subgraph_closed; [assumption|].
    intros x Ix. eapply Cc; eauto. }
  assert (S : forall v, In v (neighbors (copy view) n) <-> In v (neighbors G n)).
  { intros v. now rewrite BC, NV. }
  split; [|split; [|split]].
  - rewrite EG, nodes_subgraph in In'. now apply filter_In in In'.
  - unfold city_of. rewrite DC, EG, attrs_subgraph.
    apply mem_In in Jn. now rewrite Jn.
  - exact S.
  - apply Permutation_length, NoDup_Permutation;
      [apply (wf_nbrs WC) | apply (wf_nbrs W) | exact S].
Qed.

Lemma largest_copy_faithful_witness :
  let G := load ["A|1|CityA"; "B|2|CityB"; "C|3|CityC"] ["1 2"; "7 8"; "2 3"] in
  nodes (copy (subgraph G ["1"; "2"; "3"])) = nodes (subgraph G ["1"; "2"; "3"]).
Proof.
  intros G.
  assert (L : largest_cc G = inr (subgraph G ["1"; "2"; "3"]))
    by (vm_compute; reflexivity).
  destruct (largest_copy_faithful G (subgraph G ["1"; "2"; "3"]) (wf_load _ _) L)
    as (_ & E & _).
  exact E.
Defined.

End RunFacts.

(* ================================================================== *)
(** * The iteration order of the largest component *)
(* ================================================================== *)

Module ViewFacts.
Import Py PyFacts Nx NxFacts AirTraffic AirTrafficFacts.
Import EdgeCountFacts SearchFacts.
Unset Implicit Arguments.

Section View.
Context {K : Type} `{Key K} {A : Type} `{Attrs A}.
Implicit Types (G : Graph K A) (u v w n : K) (ns c : list K).
Variable set_iter : list K -> list K.
Hypothesis set_ok : set_iter_ok set_iter.

Lemma mem_same (l l' : list K) x :
  (forall y, In y l <-> In y l') -> mem x l = mem x l'.
Proof.
  intros E. destruct (mem x l') eqn:M.
  - apply mem_In, E, mem_In, M.
  - apply mem_false. intros I. apply E, mem_In in I. congruence.
Qed.

Lemma set_iter_In l x : In x (set_iter l) <-> In x l.
Proof. apply (set_ok l). Qed.

Lemma set_iter_NoDup l : NoDup (set_iter l).
Proof. apply (set_ok l). Qed.

(** The set that [show_nodes] builds holds the elements of [ns] that are
    nodes of [G]. *)
Lemma node_ok_In G ns x :
  In x (set_iter (filter (has_node G) (set_iter ns))) <-> In x ns /\ In x (nodes G).
Proof. rewrite set_iter_In, filter_In, set_iter_In, has_node_In. tauto. Qed.

Lemma dict_get_by_keys {V} (g : K -> V) (l : list K) n :
  dict_get n (map (fun k => (k, g k)) l) = if mem n l then Some (g n) else None.
Proof.
  induction l as [|k l IH]; simpl; [reflexivity|].
  destruct (keqb_dec n k) as [[-> ->]|[_ ->]]; [reflexivity | exact IH].
Qed.

Lemma keys_by_keys {V} (g : K -> V) (l : list K) :
  dict_keys (map (fun k => (k, g k)) l) = l.
Proof. unfold dict_keys. rewrite map_map. apply map_id. Qed.

(** A dictionary without repeated keys, filtered by key, entry by entry. *)
Lemma filter_by_keys {V W} (g : K -> V -> W) (dflt : V) (p : K -> bool) (d : dict K V) :
  NoDup (dict_keys d) ->
  map (fun '(k, x) => (k, g k x)) (filter (fun '(k, _) => p k) d)
  = map (fun k => (k, g k (match dict_get k d with Some x => x | None => dflt end)))
        (filter p (dict_keys d)).
Proof.
  induction d as [|[k x] d IH]; simpl; intros N; [reflexivity|].
  inversion N as [|? ? Nk Nd]; subst.
  assert (T : map (fun k0 => (k0, g k0 (match (if keqb k0 k then Some x else dict_get k0 d)
                                        with Some x0 => x0 | None => dflt end)))
                  (filter p (dict_keys d))
              = map (fun k0 => (k0, g k0 (match dict_get k0 d
                                          with Some x0 => x0 | None => dflt end)))
                    (filter p (dict_keys d))).
  { apply map_ext_in. intros n In'. apply filter_In in In' as [In' _].
    destruct (keqb_dec n k) as [[-> _]|[_ ->]]; [contradiction | reflexivity]. }
  destruct (p k); simpl; rewrite ?keqb_refl, T, IH by assumption; reflexivity.
Qed.

(** ** The nodes of the view, in order *)

Lemma nodes_subgraph_view G ns :
  nodes (subgraph_view set_iter G ns)
  = let node_ok := set_iter (filter (has_node G) (set_iter ns)) in
    if 2 * length node_ok <? number_of_nodes G
    then filter (has_node G) node_ok
    else filter (fun n => mem n node_ok) (nodes G).
Proof. unfold nodes at 1, subgraph_view. cbn [_node]. apply keys_by_keys. Qed.

Lemma keys_ok_subgraph_view G ns : keys_ok (subgraph_view set_iter G ns).
Proof.
  unfold keys_ok, subgraph_view. cbn [_node _adj]. now rewrite !keys_by_keys.
Qed.

Lemma nodes_subgraph_view_In G ns n :
  In n (nodes (subgraph_view set_iter G ns)) <-> In n ns /\ In n (nodes G).
Proof.
  rewrite nodes_subgraph_view. cbv zeta.
  destruct (_ <? _); rewrite filter_In, ?has_node_In, ?mem_In, node_ok_In; tauto.
Qed.

Lemma nodes_subgraph_view_NoDup G ns :
  wf G -> NoDup (nodes (subgraph_view set_iter G ns)).
Proof.
  intros W. rewrite nodes_subgraph_view. cbv zeta.
  destruct (_ <? _); apply NoDup_filter; [apply set_iter_NoDup | apply (wf_nodup W)].
Qed.

Lemma neighbors_subgraph_view G ns n :
  neighbors (subgraph_view set_iter G ns) n
  = if mem n (nodes (subgraph_view set_iter G ns))
    then filter (fun w => mem w (set_iter (filter (has_node G) (set_iter ns))))
                (neighbors G n)
    else [].
Proof.
  unfold neighbors at 1, nodes at 1, subgraph_view. cbn [_node _adj].
  rewrite keys_by_keys, dict_get_by_keys. now destruct (mem n _).
Qed.

Lemma attrs_subgraph_view G ns n :
  dict_get n (_node (subgraph_view set_iter G ns))
  = if mem n (nodes (subgraph_view set_iter G ns)) then Some (attrs_of G n) else None.
Proof.
  unfold nodes at 1, subgraph_view. cbn [_node _adj].
  now rewrite keys_by_keys, dict_get_by_keys.
Qed.

(** ** The view and the induced subgraph

    [subgraph] and [subgraph_view] have the same nodes, with the same
    attributes and the same neighbours in the same order; they can differ
    in the order of the nodes, and do not when [ns] is at least half of
    [G]. *)
Lemma subgraph_view_nodes G ns :
  wf G ->
  Permutation (nodes (subgraph_view set_iter G ns)) (nodes (subgraph G ns)).
Proof.
  intros W. apply NoDup_Permutation.
  - now apply nodes_subgraph_view_NoDup.
  - rewrite nodes_subgraph. apply NoDup_filter, (wf_nodup W).
  - intros x. rewrite nodes_subgraph_view_In, nodes_subgraph, filter_In, mem_In. tauto.
Qed.

Lemma subgraph_view_neighbors G ns n :
  wf G ->
  neighbors (subgraph_view set_iter G ns) n = neighbors (subgraph G ns) n.
Proof.
  intros W. rewrite neighbors_subgraph_view, neighbors_subgraph.
  destruct (mem n (nodes (subgraph_view set_iter G ns))) eqn:M.
  - apply mem_In, nodes_subgraph_view_In in M as [In1 In2].
    apply mem_In in In1. rewrite In1.
    apply filter_ext_in. intros w Iw.
    assert (Nw : In w (nodes G)).
    { apply (wf_sym W) in Iw. eapply neighbors_In_node; [apply (wf_keys W) | exact Iw]. }
    destruct (mem w ns) eqn:Mw.
    + apply mem_In, node_ok_In. apply mem_In in Mw. auto.
    + apply mem_false. rewrite node_ok_In. apply mem_false in Mw. tauto.
  - destruct (mem n ns) eqn:Mn; [|reflexivity].
    apply mem_In in Mn. apply mem_false in M. rewrite nodes_subgraph_view_In in M.
    rewrite neighbors_not_node; [reflexivity | apply (wf_keys W) | tauto].
Qed.

Lemma subgraph_view_attrs G ns n :
  dict_get n (_node (subgraph_view set_iter G ns)) = dict_get n (_node (subgraph G ns)).
Proof.
  rewrite attrs_subgraph_view, attrs_subgraph.
  destruct (mem n (nodes (subgraph_view set_iter G ns))) eqn:M.
  - apply mem_In, nodes_subgraph_view_In in M as [In1 In2].
    apply mem_In in In1. rewrite In1. unfold attrs_of.
    apply dict_keys_get in In2 as [a ->]. reflexivity.
  - destruct (mem n ns) eqn:Mn; [|reflexivity].
    apply mem_In in Mn. apply mem_false in M. rewrite nodes_subgraph_view_In in M.
    symmetry. apply dict_get_None. unfold nodes in M. tauto.
Qed.

Lemma wf_subgraph_view G ns : wf G -> wf (subgraph_view set_iter G ns).
Proof.
  intros W. pose proof (wf_subgraph G ns W) as WS. constructor.
  - apply keys_ok_subgraph_view.
  - now apply nodes_subgraph_view_NoDup.
  - intros u v. rewrite !subgraph_view_neighbors by assumption. apply (wf_sym WS).
  - intros u. rewrite subgraph_view_neighbors by assumption. apply (wf_nbrs WS).
Qed.

Lemma node_ok_length G ns :
  NoDup ns -> incl ns (nodes G) ->
  length (set_iter (filter (has_node G) (set_iter ns))) = length ns.
Proof.
  intros N I. apply Permutation_length, NoDup_Permutation;
    [apply set_iter_NoDup | assumption|].
  intros x. rewrite node_ok_In. split; [tauto | auto].
Qed.

Lemma subgraph_view_large G ns :
  wf G -> NoDup ns -> incl ns (nodes G) ->
  number_of_nodes G <= 2 * length ns ->
  subgraph_view set_iter G ns = subgraph G ns.
Proof.
  intros W N I L. unfold subgraph_view, subgraph. cbv zeta.
  rewrite (node_ok_length G ns N I).
  assert (C : (2 * length ns <? number_of_nodes G) = false) by now apply Nat.ltb_ge.
  rewrite C.
  assert (F : filter (fun n => mem n (set_iter (filter (has_node G) (set_iter ns))))
                     (nodes G)
              = filter (fun n => mem n ns) (nodes G)).
  { apply filter_ext. intros n. apply mem_same. intros y. rewrite node_ok_In.
    split; [tauto | auto]. }
  rewrite F. f_equal.
  - transitivity (map (fun '(k, x) => (k, x)) (filter (fun '(n, _) => mem n ns) (_node G))).
    + rewrite (filter_by_keys (fun _ x => x) attr_empty (fun n => mem n ns) (_node G))
        by apply (wf_nodup W).
      reflexivity.
    + rewrite <- (map_id (filter _ (_node G))) at 2. apply map_ext. now intros [k x].
  - pose proof (wf_keys W) as E. pose proof (wf_nodup W) as Nn. rewrite <- E in Nn.
    rewrite (filter_by_keys (fun _ nbrs => filter (fun w => mem w ns) nbrs) []
               (fun n => mem n ns) (_adj G)) by assumption.
    rewrite E. apply map_ext. intros n. f_equal.
    apply filter_ext. intros w. apply mem_same. intros y. rewrite node_ok_In.
    split; [tauto | auto].
Qed.

(** ** The view of a component *)

Lemma view_component_nodes G c :
  NoDup c -> incl c (nodes G) ->
  nodes (subgraph_view set_iter G c)
  = if 2 * length c <? number_of_nodes G
    then set_iter (set_iter c)
    else filter (fun n => mem n c) (nodes G).
Proof.
  intros N I. rewrite nodes_subgraph_view. cbv zeta.
  rewrite (node_ok_length G c N I).
  assert (E : filter (has_node G) (set_iter c) = set_iter c).
  { apply filter_all. intros x Ix. apply has_node_In, I.
    now apply (proj1 (set_iter_In _ _)) in Ix. }
  rewrite E. destruct (_ <? _).
  - apply filter_all. intros x Ix. apply has_node_In, I.
    now apply (proj1 (set_iter_In _ _)), (proj1 (set_iter_In _ _)) in Ix.
  - apply filter_ext. intros n. apply mem_same. intros y. now rewrite !set_iter_In.
Qed.

Lemma view_component_degree G c :
  wf G -> (forall u w, In u c -> adj G u w -> In w c) ->
  degree (subgraph_view set_iter G c)
  = map (fun n => (n, degree_of n (neighbors G n))) (nodes (subgraph_view set_iter G c)).
Proof.
  intros W C. rewrite (degree_by_nodes _ (wf_subgraph_view G c W)).
  apply map_ext_in. intros n In'. apply nodes_subgraph_view_In in In' as [Ic In'].
  rewrite subgraph_view_neighbors by assumption.
  rewrite neighbors_subgraph_closed; [reflexivity | assumption|].
  intros w Iw. now apply (C n w).
Qed.
End View.

(** ** One iteration order *)

Lemma slot_order_ok slots : NoDup slots -> set_iter_ok (slot_order slots).
Proof.
  intros N l. unfold slot_order. split.
  - apply NoDup_app.
    + now apply NoDup_filter.
    + apply NoDup_nodup.
    + intros a Ia Ib. apply filter_In in Ia as [Ia _].
      apply nodup_In, filter_In in Ib as [_ Ib]. apply mem_In in Ia.
      rewrite Ia in Ib. discriminate.
  - intros x. rewrite in_app_iff, filter_In, nodup_In, filter_In, mem_In.
    destruct (mem x slots) eqn:M.
    + apply mem_In in M. simpl. intuition discriminate.
    + apply mem_false in M. simpl. tauto.
Qed.

(** ** Q3 on the view *)

Lemma largest_cc_view_component set_iter (G GL : AGraph) :
  wf G -> largest_cc_view set_iter G = inr GL ->
  exists c,
    In c (connected_components G) /\ GL = subgraph_view set_iter G c /\
    c <> [] /\ NoDup c /\ incl c (nodes G) /\
    (forall u w, In u c -> adj G u w -> In w c) /\
    (forall c', In c' (connected_components G) -> length c' <= length c).
Proof.
  intros W L. unfold largest_cc_view in L.
  destruct (connected_components G) as [|c0 cs] eqn:E; [discriminate|].
  destruct (max_by_len_In (c0 :: cs)) as (c & Ec & Ic & Mc); [discriminate|].
  rewrite Ec in L. cbn [rbind] in L. injection L as <-.
  assert (Ic' : In c (connected_components G)) by now rewrite E.
  destruct (components_source G c Ic') as (v & Iv & Ev).
  destruct (plain_bfs_closed G v W Iv) as (Nc & Inc & Cc & Rc). rewrite <- Ev in *.
  exists c. split; [assumption|]. split; [reflexivity|]. split; [|auto].
  intros ->. apply (Rc v). apply reach_refl.
Qed.




End ViewFacts.
